(** * An in-memory filesystem: [VirtualFileSystem], [Directory], [File]

    Shallow embedding of [src/index.ts] and [src/FileSystemNode.ts].

    - JavaScript objects live in an explicit store: a reference is the index
      of the object in the list of all [Directory] (resp. [File]) objects
      ever constructed, [new] appends to that list, and a field assignment
      is an in-place update of the list.  Parent back-references and the
      entries of the child collections are such references, so that aliasing
      is the aliasing of the program.
    - A [Map<string, _>] is an association list in insertion order, which is
      the order in which JavaScript iterates a [Map].
    - A method either returns, throws one of the [ErrorMsg] errors, or does
      not complete ([Diverge]): the recursive methods and the loop of
      [_getRoot] follow parent and child references, and do not finish when
      these form a cycle.
    - Strings are sequences of bytes; [Buffer.byteLength] is their length.
      Byte counts are integers ([Z]); the subtractions of the program can
      take [totalFileContentBytes] anywhere.
    - [process.cwd()], which [path.relative] reads, is an argument of the
      one call that depends on it, [moveDirectory]. *)

From Stdlib Require Import String Ascii List ZArith Lia Bool.
From stdpp Require Import base list.
Import ListNotations.

Local Open Scope string_scope.

(** ** Strings *)

Definition str_eqb (a b : string) : bool := String.eqb a b.

(** [Array.prototype.includes] on an array of strings. *)
Definition includes (xs : list string) (x : string) : bool :=
  existsb (str_eqb x) xs.
Arguments includes : simpl never.

Definition is_slash (c : ascii) : bool := Ascii.eqb c "/"%char.

(** [s.split('/')]: the pieces between the separators, empty ones kept. *)
Fixpoint split_slash (s : string) : list string :=
  match s with
  | EmptyString => [EmptyString]
  | String c r =>
      if is_slash c then EmptyString :: split_slash r
      else match split_slash r with
           | h :: t => String c h :: t
           | [] => [String c EmptyString]
           end
  end.

Definition nonempty (s : string) : bool := negb (str_eqb s "").

Definition starts_with_slash (s : string) : bool :=
  match s with String c _ => is_slash c | EmptyString => false end.

Fixpoint ends_with_slash (s : string) : bool :=
  match s with
  | EmptyString => false
  | String c EmptyString => is_slash c
  | String _ r => ends_with_slash r
  end.

(** ** [node:path], POSIX flavour

    The path library is not part of the repository.  Its functions are
    modelled on the segments of a path, after the behaviour of Node's
    [path.posix]. *)

Module pathUtils.

(** One step of [normalizeString]: [res] holds the segments kept so far,
    last one first. *)
Definition push_segment (allowAboveRoot : bool) (res : list string)
    (seg : string) : list string :=
  if str_eqb seg "" || str_eqb seg "." then res
  else if str_eqb seg ".." then
    match res with
    | top :: rest =>
        if str_eqb top ".." then (if allowAboveRoot then ".." :: res else res)
        else rest
    | [] => if allowAboveRoot then [".."] else []
    end
  else seg :: res.

Definition normalizeString (path : string) (allowAboveRoot : bool) : string :=
  String.concat "/"
    (rev (fold_left (push_segment allowAboveRoot) (split_slash path) [])).

Definition isAbsolute (path : string) : bool := starts_with_slash path.

Definition normalize (path : string) : string :=
  if str_eqb path "" then "."
  else
    let isAbs := starts_with_slash path in
    let trailingSeparator := ends_with_slash path in
    let p := normalizeString path (negb isAbs) in
    if str_eqb p "" then
      (if isAbs then "/" else if trailingSeparator then "./" else ".")
    else
      let p := if trailingSeparator then p ++ "/" else p in
      if isAbs then "/" ++ p else p.

Fixpoint drop_empty (segs : list string) : list string :=
  match segs with
  | s :: r => if str_eqb s "" then drop_empty r else segs
  | [] => []
  end.

(** The segments of [path] from the last one backwards, trailing
    separators dropped. *)
Definition rev_segments (path : string) : list string :=
  drop_empty (rev (split_slash path)).

Definition basename (path : string) : string :=
  match rev_segments path with
  | [] => ""
  | last :: _ => last
  end.

Definition dirname (path : string) : string :=
  if str_eqb path "" then "."
  else
    let hasRoot := starts_with_slash path in
    match rev_segments path with
    | [] => if hasRoot then "/" else "."
    | _ :: [] => if hasRoot then "/" else "."
    | _ :: before =>
        let d := String.concat "/" (rev before) in
        if str_eqb d "" then "/"
        else if hasRoot && str_eqb d "/" then "//"
        else d
    end.

(** [path.resolve(p)] for one argument; [cwd] is [process.cwd()], an
    absolute path of the host. *)
Definition resolve (cwd : string) (p : string) : string :=
  let full := if str_eqb p "" then cwd ++ "/"
              else if starts_with_slash p then p ++ "/"
              else cwd ++ "/" ++ p ++ "/" in
  "/" ++ normalizeString full false.

(** [path.relative(from, to) === '']: the relative path is empty exactly
    when both ends resolve to the same absolute path. *)
Definition relative_is_empty (cwd from to : string) : bool :=
  str_eqb from to || str_eqb (resolve cwd from) (resolve cwd to).

End pathUtils.

(** ** Constants and errors of [index.ts] *)

Inductive NodeType := DIRECTORY | FILE.

Definition ROOT_PATH : string := "/".
Definition MOVE_UP_PATHS : list string := [".."; "../"].
Definition CURRENT_DIR_PATHS : list string := ["."; "./"].

Inductive ErrorMsg :=
| AmbiguousPath
| CannotUpdateRoot
| DirectoryNotFound
| DirectoryExists
| FileNotFound
| FileExists
| MissingPath
| NotFound
| OutOfMemory.

(** Outcome of a call.  [Diverge] stands for a call that does not complete:
    the endless loop of [_getRoot], or the unbounded recursion of [getPath],
    [getTotalByteCount] and [find], on a cycle of references.  A JavaScript
    engine ends such a recursion, when its stack is used up, by a
    [RangeError]; this error is none of [ErrorMsg], and it is part of
    [Diverge] here, not of [Throw]. *)
Inductive Result (A : Type) :=
| Ret (a : A)
| Throw (e : ErrorMsg)
| Diverge.
Arguments Ret {A} a.
Arguments Throw {A} e.
Arguments Diverge {A}.

Definition rbind {A B} (r : Result A) (k : A -> Result B) : Result B :=
  match r with
  | Ret a => k a
  | Throw e => Throw e
  | Diverge => Diverge
  end.

Notation "x <-r m ; k" := (rbind m (fun x => k))
  (at level 100, m at next level, right associativity).

(** ** [Map<string, T>] in insertion order *)

Abbreviation ref := nat.
Abbreviation JSMap := (list (string * nat)).

Fixpoint map_get (k : string) (m : JSMap) : option ref :=
  match m with
  | [] => None
  | (k', v) :: r => if str_eqb k k' then Some v else map_get k r
  end.

(** [m.set(k, v)]: an existing key keeps its place, a new one goes last. *)
Fixpoint map_set (k : string) (v : ref) (m : JSMap) : JSMap :=
  match m with
  | [] => [(k, v)]
  | (k', v') :: r =>
      if str_eqb k k' then (k, v) :: r else (k', v') :: map_set k v r
  end.

Fixpoint map_delete (k : string) (m : JSMap) : JSMap :=
  match m with
  | [] => []
  | (k', v') :: r =>
      if str_eqb k k' then map_delete k r else (k', v') :: map_delete k r
  end.

Definition map_has (k : string) (m : JSMap) : bool :=
  match map_get k m with Some _ => true | None => false end.

Definition map_keys (m : JSMap) : list string := map fst m.
Definition map_values (m : JSMap) : list ref := map snd m.

(** ** The objects of [FileSystemNode.ts] and the store *)

Record Directory := mkDirectory {
  dir_parent : option ref;          (* [parent: Directory | null] *)
  dir_name : string;
  filesByName : JSMap;
  directoriesByName : JSMap
}.

Record File := mkFile {
  file_parent : ref;                (* [parent: Directory] *)
  file_name : string;
  content : option string;
  contentByteCount : option Z
}.

Record VirtualFileSystem := mkVFS {
  directories : list Directory;     (* every [Directory] object, by reference *)
  files : list File;                (* every [File] object, by reference *)
  currentDir : ref;
  totalFileContentBytes : Z;
  maxBytes : Z
}.

Definition byteLength (s : string) : Z := Z.of_nat (String.length s).

(** [new Directory({parent, name})] *)
Definition new_Directory (parent : option ref) (name : string) : Directory :=
  mkDirectory parent name [] [].

(** [new File({parent, name, content})]: an absent or empty content is
    falsy and leaves both content fields undefined. *)
Definition new_File (parent : ref) (name : string) (c : option string) : File :=
  match c with
  | Some s => if str_eqb s "" then mkFile parent name None None
              else mkFile parent name (Some s) (Some (byteLength s))
  | None => mkFile parent name None None
  end.

Definition dir_at (st : VirtualFileSystem) (d : ref) : Directory :=
  default (new_Directory None ROOT_PATH) (directories st !! d).

Definition file_at (st : VirtualFileSystem) (f : ref) : File :=
  default (new_File 0 "" None) (files st !! f).

Definition with_directories (ds : list Directory) (st : VirtualFileSystem) :=
  mkVFS ds (files st) (currentDir st) (totalFileContentBytes st) (maxBytes st).
Definition with_files (fs : list File) (st : VirtualFileSystem) :=
  mkVFS (directories st) fs (currentDir st) (totalFileContentBytes st) (maxBytes st).
Definition with_currentDir (d : ref) (st : VirtualFileSystem) :=
  mkVFS (directories st) (files st) d (totalFileContentBytes st) (maxBytes st).
Definition with_total (n : Z) (st : VirtualFileSystem) :=
  mkVFS (directories st) (files st) (currentDir st) n (maxBytes st).
Definition with_maxBytes (n : Z) (st : VirtualFileSystem) :=
  mkVFS (directories st) (files st) (currentDir st) (totalFileContentBytes st) n.

(** Field assignments on the object behind a reference. *)
Definition upd_dir (d : ref) (f : Directory -> Directory) (st : VirtualFileSystem) :=
  with_directories (<[d := f (dir_at st d)]> (directories st)) st.
Definition upd_file (x : ref) (f : File -> File) (st : VirtualFileSystem) :=
  with_files (<[x := f (file_at st x)]> (files st)) st.

Definition set_dir_parent (p : option ref) (o : Directory) :=
  mkDirectory p (dir_name o) (filesByName o) (directoriesByName o).
Definition set_dir_name (n : string) (o : Directory) :=
  mkDirectory (dir_parent o) n (filesByName o) (directoriesByName o).
Definition set_filesByName (m : JSMap) (o : Directory) :=
  mkDirectory (dir_parent o) (dir_name o) m (directoriesByName o).
Definition set_directoriesByName (m : JSMap) (o : Directory) :=
  mkDirectory (dir_parent o) (dir_name o) (filesByName o) m.

Definition set_file_parent (p : ref) (o : File) :=
  mkFile p (file_name o) (content o) (contentByteCount o).
Definition set_file_name (n : string) (o : File) :=
  mkFile (file_parent o) n (content o) (contentByteCount o).
Definition set_content (c : option string) (o : File) :=
  mkFile (file_parent o) (file_name o) c (contentByteCount o).
Definition set_contentByteCount (n : option Z) (o : File) :=
  mkFile (file_parent o) (file_name o) (content o) n.

(** ** Calls that may change the store *)

Definition M (A : Type) := VirtualFileSystem -> Result A * VirtualFileSystem.

Definition ret {A} (a : A) : M A := fun st => (Ret a, st).
Definition throw {A} (e : ErrorMsg) : M A := fun st => (Throw e, st).
Definition bind {A B} (m : M A) (k : A -> M B) : M B := fun st =>
  match m st with
  | (Ret a, st') => k a st'
  | (Throw e, st') => (Throw e, st')
  | (Diverge, st') => (Diverge, st')
  end.
(** A query: reads the store, leaves it as it is. *)
Definition query {A} (q : VirtualFileSystem -> Result A) : M A :=
  fun st => (q st, st).
Definition modify (f : VirtualFileSystem -> VirtualFileSystem) : M unit :=
  fun st => (Ret tt, f st).

Notation "x <- m ;; k" := (bind m (fun x => k))
  (at level 100, m at next level, right associativity).
Notation "m ;;; k" := (bind m (fun _ => k))
  (at level 100, right associativity).

(** ** [FileSystemNode.getPath] *)

(** [getPath] on a directory.  The recursion follows [parent]; a chain of
    parents longer than the number of directory objects repeats one of them
    and never reaches the root, hence the bound on the depth. *)
Fixpoint Directory_getPath_rec (fuel : nat) (st : VirtualFileSystem) (d : ref)
  : Result string :=
  match fuel with
  | O => Diverge
  | S n =>
      let o := dir_at st d in
      match dir_parent o with
      | None => Ret (dir_name o)
      | Some p =>
          pp <-r Directory_getPath_rec n st p;
          Ret (pathUtils.normalize (pp ++ "/" ++ dir_name o))
      end
  end.

Definition Directory_getPath (st : VirtualFileSystem) (d : ref) : Result string :=
  Directory_getPath_rec (length (directories st)) st d.

(** [getPath] on a file: its parent is never [null]. *)
Definition File_getPath (st : VirtualFileSystem) (f : ref) : Result string :=
  let o := file_at st f in
  pp <-r Directory_getPath st (file_parent o);
  Ret (pathUtils.normalize (pp ++ "/" ++ file_name o)).

(** ** [Directory] *)

Definition Directory_hasDirectory (st : VirtualFileSystem) (this : ref)
    (name : string) : bool :=
  map_has name (directoriesByName (dir_at st this)).

Definition Directory_hasFile (st : VirtualFileSystem) (this : ref)
    (name : string) : bool :=
  map_has name (filesByName (dir_at st this)).

Definition Directory_addDirectory (this dir : ref) : M unit := fun st =>
  if Directory_hasFile st this (dir_name (dir_at st dir)) then
    throw AmbiguousPath st
  else
    let st := upd_dir dir (set_dir_parent (Some this)) st in
    let st := upd_dir this (fun o =>
                set_directoriesByName
                  (map_set (dir_name (dir_at st dir)) dir (directoriesByName o)) o) st in
    ret tt st.

Definition Directory_addFile (this file : ref) : M unit := fun st =>
  if Directory_hasDirectory st this (file_name (file_at st file)) then
    throw AmbiguousPath st
  else
    let st := upd_file file (set_file_parent this) st in
    let st := upd_dir this (fun o =>
                set_filesByName
                  (map_set (file_name (file_at st file)) file (filesByName o)) o) st in
    ret tt st.

Definition Directory_removeDirectory (this : ref) (name : string) : M unit :=
  fun st =>
  if str_eqb name ROOT_PATH then throw CannotUpdateRoot st
  else
    ret tt (upd_dir this (fun o =>
              set_directoriesByName (map_delete name (directoriesByName o)) o) st).

Definition Directory_removeFile (this : ref) (name : string) : M unit :=
  modify (upd_dir this (fun o =>
            set_filesByName (map_delete name (filesByName o)) o)).

(** [new Directory(...)]: the object is appended to the store. *)
Definition alloc_Directory (o : Directory) : M ref := fun st =>
  (Ret (length (directories st)), with_directories (directories st ++ [o])%list st).

Definition alloc_File (o : File) : M ref := fun st =>
  (Ret (length (files st)), with_files (files st ++ [o])%list st).

Definition Directory_createAndAddDirectory (this : ref) (name : string) : M unit :=
  if str_eqb name ROOT_PATH then throw DirectoryExists
  else
    dir <- alloc_Directory (new_Directory (Some this) name) ;;
    Directory_addDirectory this dir.

Definition Directory_createAndAddFile (this : ref) (name : string)
    (c : option string) : M unit :=
  file <- alloc_File (new_File this name c) ;;
  Directory_addFile this file.

Definition Directory_update (this : ref) (name : option string)
    (parent : option ref) : M unit := fun st =>
  match dir_parent (dir_at st this) with
  | None => throw CannotUpdateRoot st
  | Some originalParent =>
      let originalName := dir_name (dir_at st this) in
      let name := default originalName name in
      let parent := default originalParent parent in
      if map_has name (filesByName (dir_at st parent)) then
        throw AmbiguousPath st
      else
        (modify (upd_dir this (set_dir_name name)) ;;;
         modify (upd_dir this (set_dir_parent (Some parent))) ;;;
         Directory_addDirectory parent this ;;;
         Directory_removeDirectory originalParent originalName) st
  end.

(** [getTotalByteCount]: recursion through the child directories, bounded
    like [getPath]. *)
Fixpoint Directory_getTotalByteCount_rec (fuel : nat) (st : VirtualFileSystem)
    (this : ref) : Result Z :=
  match fuel with
  | O => Diverge
  | S n =>
      let o := dir_at st this in
      let ofFiles :=
        fold_left (fun acc f => (acc + default 0 (contentByteCount (file_at st f)))%Z)
                  (map_values (filesByName o)) 0%Z in
      fold_left (fun acc d =>
                   a <-r acc;
                   b <-r Directory_getTotalByteCount_rec n st d;
                   Ret (a + b)%Z)
                (map_values (directoriesByName o)) (Ret ofFiles)
  end.

Definition Directory_getTotalByteCount (st : VirtualFileSystem) (this : ref)
  : Result Z :=
  Directory_getTotalByteCount_rec (length (directories st)) st this.

(** ** [File] *)

Definition File_update (this : ref) (name : option string) (parent : option ref)
    (c : option string) : M unit := fun st =>
  let originalName := file_name (file_at st this) in
  let originalParent := file_parent (file_at st this) in
  let name := default originalName name in
  let parent := default originalParent parent in
  let c := match c with Some x => Some x | None => content (file_at st this) end in
  (modify (upd_file this (set_file_name name)) ;;;
   modify (upd_file this (set_content c)) ;;;
   Directory_addFile parent this ;;;
   Directory_removeFile originalParent originalName) st.

Definition File_setContent (this : ref) (c : string) : M unit :=
  modify (upd_file this (set_contentByteCount (Some (byteLength c)))) ;;;
  modify (upd_file this (set_content (Some c))).

(** ** [VirtualFileSystem] *)

(** [new VirtualFileSystem()] *)
Definition VirtualFileSystem_new : VirtualFileSystem :=
  mkVFS [new_Directory None ROOT_PATH] [] 0 0%Z 1073741824%Z.

(** The [while] loop of [_getRoot]; it ends within as many steps as there
    are directory objects, or not at all. *)
Fixpoint getRoot_loop (fuel : nat) (st : VirtualFileSystem) (dir : ref)
  : Result ref :=
  match fuel with
  | O => Diverge
  | S n =>
      match dir_parent (dir_at st dir) with
      | None => Ret dir
      | Some p => getRoot_loop n st p
      end
  end.

Definition _getRoot (st : VirtualFileSystem) : Result ref :=
  getRoot_loop (length (directories st)) st (currentDir st).

(** The [for] loop of [_getTarget] over the directory names of the path;
    [None] is the early [return] of [undefined]. *)
Fixpoint walk (st : VirtualFileSystem) (currDir : ref) (pathArray : list string)
  : option ref :=
  match pathArray with
  | [] => Some currDir
  | nextPath :: rest =>
      if includes MOVE_UP_PATHS nextPath then
        match dir_parent (dir_at st currDir) with
        | Some p => walk st p rest
        | None => walk st currDir rest
        end
      else if includes CURRENT_DIR_PATHS nextPath then walk st currDir rest
      else
        match map_get nextPath (directoriesByName (dir_at st currDir)) with
        | Some c => walk st c rest
        | None => None
        end
  end.

(** [_getTarget(path, type)]: the reference found is one of a [Directory]
    for [DIRECTORY] and of a [File] for [FILE]; [None] is [undefined]. *)
Definition _getTarget (st : VirtualFileSystem) (path : string) (type : NodeType)
  : Result (option ref) :=
  let path := pathUtils.normalize path in
  let general :=
    let pathArray := filter (fun s => nonempty s = true)
                            (split_slash (pathUtils.dirname path)) in
    start <-r (if pathUtils.isAbsolute path then _getRoot st
               else Ret (currentDir st));
    match walk st start pathArray with
    | None => Ret None
    | Some currDir =>
        let targetName := pathUtils.basename path in
        match type with
        | DIRECTORY => Ret (map_get targetName (directoriesByName (dir_at st currDir)))
        | FILE => Ret (map_get targetName (filesByName (dir_at st currDir)))
        end
    end in
  match type with
  | DIRECTORY =>
      if includes CURRENT_DIR_PATHS path then Ret (Some (currentDir st))
      else if str_eqb path ROOT_PATH then (r <-r _getRoot st; Ret (Some r))
      else if includes MOVE_UP_PATHS path then
        match dir_parent (dir_at st (currentDir st)) with
        | Some p => Ret (Some p)
        | None => Ret (Some (currentDir st))
        end
      else general
  | FILE => general
  end.

Definition _getTargetDirectory (st : VirtualFileSystem) (path : string) :=
  _getTarget st path DIRECTORY.

Definition _getTargetFile (st : VirtualFileSystem) (path : string) :=
  _getTarget st path FILE.

Definition getCurrentDir (st : VirtualFileSystem) : Result string :=
  Directory_getPath st (currentDir st).

(** [path ? ... : this.currentDir]: the empty string is falsy. *)
Definition getDirectoryContents (st : VirtualFileSystem) (path : option string)
  : Result (list string) :=
  targetDir <-r match path with
                | Some p => if str_eqb p "" then Ret (Some (currentDir st))
                            else _getTargetDirectory st p
                | None => Ret (Some (currentDir st))
                end;
  match targetDir with
  | None => Throw DirectoryNotFound
  | Some d =>
      Ret (map_keys (directoriesByName (dir_at st d))
           ++ map_keys (filesByName (dir_at st d)))%list
  end.

Definition getAvailableSpace (st : VirtualFileSystem) : Z :=
  (maxBytes st - totalFileContentBytes st)%Z.

Definition changeDirectory (path : option string) : M unit :=
  let path := default ROOT_PATH path in
  targetDir <- query (fun st => _getTargetDirectory st path) ;;
  match targetDir with
  | None => throw DirectoryNotFound
  | Some d => modify (with_currentDir d)
  end.

Definition makeDirectory (path : string) : M unit :=
  if (String.length path =? 0)%nat then throw MissingPath
  else
    let path := pathUtils.normalize path in
    let name := pathUtils.basename path in
    targetDir <- query (fun st => _getTargetDirectory st (pathUtils.dirname path)) ;;
    match targetDir with
    | None => throw DirectoryNotFound
    | Some d => Directory_createAndAddDirectory d name
    end.

Definition makeFile (path : string) : M unit :=
  let path := pathUtils.normalize path in
  let name := pathUtils.basename path in
  targetDir <- query (fun st => _getTargetDirectory st (pathUtils.dirname path)) ;;
  match targetDir with
  | None => throw DirectoryNotFound
  | Some d => Directory_createAndAddFile d name None
  end.

Definition removeDirectory (path : string) : M unit :=
  dir <- query (fun st => _getTargetDirectory st path) ;;
  match dir with
  | None => throw DirectoryNotFound
  | Some dir => fun st =>
      match dir_parent (dir_at st dir) with
      | None => throw CannotUpdateRoot st
      | Some parent =>
          (n <- query (fun st => Directory_getTotalByteCount st dir) ;;
           modify (fun st => with_total (totalFileContentBytes st - n)%Z st) ;;;
           Directory_removeDirectory parent (dir_name (dir_at st dir))) st
      end
  end.

(** [if (file.content)]: an undefined or empty content is falsy. *)
Definition truthy (c : option string) : bool :=
  match c with Some s => nonempty s | None => false end.

Definition removeFile (path : string) : M unit :=
  file <- query (fun st => _getTargetFile st path) ;;
  match file with
  | None => throw FileNotFound
  | Some file => fun st =>
      let o := file_at st file in
      (modify (fun st =>
                 if truthy (content o) then
                   with_total (totalFileContentBytes st
                               - byteLength (default "" (content o)))%Z st
                 else st) ;;;
       Directory_removeFile (file_parent o) (file_name o)) st
  end.

Definition readFile (st : VirtualFileSystem) (path : string)
  : Result (option string) :=
  file <-r _getTargetFile st path;
  match file with
  | None => Throw FileNotFound
  | Some file => Ret (content (file_at st file))
  end.

Definition writeFile (path : string) (c : string) : M unit :=
  file <- query (fun st => _getTargetFile st path) ;;
  match file with
  | None => throw FileNotFound
  | Some file => fun st =>
      let n := byteLength c in
      if (totalFileContentBytes st + n >? maxBytes st)%Z then throw OutOfMemory st
      else
        (File_setContent file c ;;;
         modify (fun st => with_total (totalFileContentBytes st + n)%Z st)) st
  end.

Definition moveFile (path targetDirPath : string) : M unit :=
  file <- query (fun st => _getTargetFile st path) ;;
  targetDir <- query (fun st => _getTargetDirectory st targetDirPath) ;;
  match file, targetDir with
  | None, _ => throw FileNotFound
  | Some _, None => throw DirectoryNotFound
  | Some file, Some targetDir => fun st =>
      let originalParent := file_parent (file_at st file) in
      (Directory_addFile targetDir file ;;;
       fun st => Directory_removeFile originalParent
                   (file_name (file_at st file)) st) st
  end.

Definition renameFile (path name : string) : M unit :=
  file <- query (fun st => _getTargetFile st path) ;;
  let originalName := pathUtils.basename path in
  match file with
  | None => throw FileNotFound
  | Some file =>
      File_update file (Some name) None None ;;;
      fun st => Directory_removeFile (file_parent (file_at st file)) originalName st
  end.

Definition renameDirectory (path name : string) : M unit :=
  if str_eqb (pathUtils.normalize path) ROOT_PATH then throw CannotUpdateRoot
  else
    directory <- query (fun st => _getTargetDirectory st path) ;;
    let originalName := pathUtils.basename path in
    match directory with
    | None => throw DirectoryNotFound
    | Some directory =>
        Directory_update directory (Some name) None ;;;
        fun st =>
          match dir_parent (dir_at st directory) with
          | Some p => Directory_removeDirectory p originalName st
          | None => ret tt st
          end
    end.

(** [processCwd] is the value of [process.cwd()] at the call: [path.relative]
    resolves a relative [path] against it. *)
Definition moveDirectory (processCwd : string) (path targetDirPath : string)
  : M unit :=
  if str_eqb (pathUtils.normalize path) ROOT_PATH then throw CannotUpdateRoot
  else
    directory <- query (fun st => _getTargetDirectory st path) ;;
    targetDir <- query (fun st => _getTargetDirectory st targetDirPath) ;;
    match directory, targetDir with
    | None, _ => throw DirectoryNotFound
    | Some _, None => throw DirectoryNotFound
    | Some directory, Some targetDir => fun st =>
        let originalParent := dir_parent (dir_at st directory) in
        (Directory_addDirectory targetDir directory ;;;
         (fun st =>
            match originalParent with
            | Some p => Directory_removeDirectory p (dir_name (dir_at st directory)) st
            | None => ret tt st
            end) ;;;
         here <- query (fun st => Directory_getPath st (currentDir st)) ;;
         if pathUtils.relative_is_empty processCwd here path then
           modify (with_currentDir directory)
         else ret tt) st
    end.

(** [find(name, path)]: every level resolves its [path] anew, so the depth of
    the recursion is bounded by the number of directory objects unless some
    directory is reached again from itself.  [Throw] is an error of
    [ErrorMsg] thrown by the program; the recursion that has no bound, and
    that an engine ends by a [RangeError], is [Diverge]. *)
Fixpoint find_rec (fuel : nat) (st : VirtualFileSystem) (name : string)
    (path : option string) : Result (list string) :=
  match fuel with
  | O => Diverge
  | S n =>
      let path := default "." path in
      parentDir <-r _getTargetDirectory st path;
      match parentDir with
      | None => Throw DirectoryNotFound
      | Some parentDir =>
          matches <-r match map_get name (filesByName (dir_at st parentDir)) with
                      | Some foundFile => p <-r File_getPath st foundFile; Ret [p]
                      | None => Ret []
                      end;
          fold_left
            (fun acc dir =>
               matches <-r acc;
               own <-r (if str_eqb (dir_name (dir_at st dir)) name
                        then p <-r Directory_getPath st dir; Ret [p]
                        else Ret []);
               p <-r Directory_getPath st dir;
               below <-r find_rec n st name (Some p);
               Ret (matches ++ own ++ below)%list)
            (map_values (directoriesByName (dir_at st parentDir)))
            (Ret matches)
      end
  end.

Definition find (st : VirtualFileSystem) (name : string) (path : option string)
  : Result (list string) :=
  find_rec (length (directories st)) st name path.

(** Assignment to the public field [maxBytes]. *)
Definition setMaxBytes (n : Z) : M unit := modify (with_maxBytes n).

(** ** Sequences of calls *)

Inductive Op :=
| OpGetCurrentDir
| OpGetDirectoryContents (path : option string)
| OpGetAvailableSpace
| OpChangeDirectory (path : option string)
| OpMakeDirectory (path : string)
| OpMakeFile (path : string)
| OpRemoveDirectory (path : string)
| OpRemoveFile (path : string)
| OpReadFile (path : string)
| OpWriteFile (path : string) (c : string)
| OpMoveFile (path targetDirPath : string)
| OpRenameFile (path name : string)
| OpRenameDirectory (path name : string)
| OpMoveDirectory (processCwd path targetDirPath : string)
| OpFind (name : string) (path : option string)
| OpSetMaxBytes (n : Z).

(** The call as a state transformer; a query leaves the state alone. *)
Definition run (op : Op) : M unit :=
  match op with
  | OpGetCurrentDir => query (fun st => _ <-r getCurrentDir st; Ret tt)
  | OpGetDirectoryContents p => query (fun st => _ <-r getDirectoryContents st p; Ret tt)
  | OpGetAvailableSpace => ret tt
  | OpChangeDirectory p => changeDirectory p
  | OpMakeDirectory p => makeDirectory p
  | OpMakeFile p => makeFile p
  | OpRemoveDirectory p => removeDirectory p
  | OpRemoveFile p => removeFile p
  | OpReadFile p => query (fun st => _ <-r readFile st p; Ret tt)
  | OpWriteFile p c => writeFile p c
  | OpMoveFile p t => moveFile p t
  | OpRenameFile p n => renameFile p n
  | OpRenameDirectory p n => renameDirectory p n
  | OpMoveDirectory cwd p t => moveDirectory cwd p t
  | OpFind n p => query (fun st => _ <-r find st n p; Ret tt)
  | OpSetMaxBytes n => setMaxBytes n
  end.

(** The states a program can observe: the new file system, and the state
    left by any call, whether it returned or threw. *)
Inductive reachable : VirtualFileSystem -> Prop :=
| reachable_new : reachable VirtualFileSystem_new
| reachable_run st op : reachable st -> reachable (snd (run op st)).

Definition run_all (ops : list Op) (st : VirtualFileSystem) : VirtualFileSystem :=
  fold_left (fun st op => snd (run op st)) ops st.

(** The outcome of every call of a sequence, in order. *)
Fixpoint outcomes (ops : list Op) (st : VirtualFileSystem) : list (Result unit) :=
  match ops with
  | [] => []
  | op :: rest => fst (run op st) :: outcomes rest (snd (run op st))
  end.

(** ** Scenarios *)

(** A file [a] next to a directory [b]. *)
Definition st_file_and_directory : VirtualFileSystem :=
  run_all [OpMakeFile "a"; OpMakeDirectory "b"] VirtualFileSystem_new.

(** A directory created under the name [.]. *)
Definition st_dot_directory : VirtualFileSystem :=
  run_all [OpMakeDirectory "."] VirtualFileSystem_new.

(** Capacity of one byte and an empty file [a]. *)
Definition st_one_byte : VirtualFileSystem :=
  run_all [OpSetMaxBytes 1; OpMakeFile "a"] VirtualFileSystem_new.

(** [/foo], [/foo/bar] and the file [/foo/bar/foo]. *)
Definition st_foo : VirtualFileSystem :=
  run_all [OpMakeDirectory "/foo"; OpMakeDirectory "/foo/bar";
           OpMakeFile "/foo/bar/foo"] VirtualFileSystem_new.

(** A directory [d] holding a file [x], created before the file [/x]. *)
Definition st_file_first : VirtualFileSystem :=
  run_all [OpMakeDirectory "d"; OpMakeFile "d/x"; OpMakeFile "x"]
          VirtualFileSystem_new.

(** The current directory [/x/a] is removed, a new [/x/a] with a child [b] is
    made, and the new [/x/a] is moved into its own child. *)
Definition cycle_calls : list Op :=
  [OpMakeDirectory "x"; OpMakeDirectory "x/a"; OpChangeDirectory (Some "x/a");
   OpRemoveDirectory "/x/a"; OpMakeDirectory "/x/a"; OpMakeDirectory "/x/a/b";
   OpMoveDirectory "/" "/x/a" "/x/a/b"].

Definition st_cycle : VirtualFileSystem :=
  run_all cycle_calls VirtualFileSystem_new.

(** The file [a] after a refused renaming to [b], the directory [b] then
    removed. *)
Definition stale_name_calls : list Op :=
  [OpMakeFile "a"; OpMakeDirectory "b"; OpRenameFile "a" "b";
   OpRemoveDirectory "b"].

Definition st_stale_name : VirtualFileSystem :=
  run_all stale_name_calls VirtualFileSystem_new.

(** A written file moved onto a written file of the same name. *)
Definition st_replaced : VirtualFileSystem :=
  run_all [OpMakeFile "fooFile"; OpWriteFile "fooFile" "fooFile content";
           OpMakeDirectory "bar"; OpMakeFile "bar/fooFile";
           OpWriteFile "bar/fooFile" "bar/fooFile content";
           OpMoveFile "fooFile" "bar/"] VirtualFileSystem_new.

(** A directory renamed to [x/y] beside the directory [/x/y]. *)
Definition st_slash_name : VirtualFileSystem :=
  run_all [OpMakeDirectory "x"; OpMakeDirectory "x/y"; OpMakeFile "x/y/bar0";
           OpMakeDirectory "a"; OpMakeFile "a/bar"; OpRenameDirectory "a" "x/y"]
          VirtualFileSystem_new.

(** The file [a], still held by the root after a refused renaming, is moved
    to [p], and [p] is then moved into its own child [q]. *)
Definition st_far_parent : VirtualFileSystem :=
  run_all [OpMakeFile "a"; OpMakeDirectory "b"; OpRenameFile "a" "b";
           OpMakeDirectory "p"; OpMakeDirectory "p/q";
           OpMoveFile "a" "p"; OpMoveDirectory "/" "p" "p/q"]
          VirtualFileSystem_new.

(** ** [find], by the words of the specification

    The hits of a directory: the path of the file of that name first, then,
    for every child directory in the order of the collection, the path of
    the child when its name is the one looked for, followed, matched or
    not, by the hits of this child.  The descent is into the child
    directory itself, where the program resolves the path of the child
    anew; [depth] bounds the number of levels followed. *)
Fixpoint collect (f : ref -> Result (list string)) (ds : list ref)
  : Result (list string) :=
  match ds with
  | [] => Ret []
  | d :: rest =>
      here <-r f d;
      others <-r collect f rest;
      Ret (here ++ others)%list
  end.

Fixpoint find_spec (depth : nat) (st : VirtualFileSystem) (name : string)
    (d : ref) : Result (list string) :=
  match depth with
  | O => Diverge
  | S n =>
      ofFile <-r match map_get name (filesByName (dir_at st d)) with
                 | Some f => p <-r File_getPath st f; Ret [p]
                 | None => Ret []
                 end;
      ofChildren <-r collect
          (fun c =>
             own <-r (if str_eqb (dir_name (dir_at st c)) name
                      then p <-r Directory_getPath st c; Ret [p]
                      else Ret []);
             sub <-r find_spec n st name c;
             Ret (own ++ sub)%list)
          (map_values (directoriesByName (dir_at st d)));
      Ret (ofFile ++ ofChildren)%list
  end.

(** ** Nodes of the tree and their paths

    A name is plain when it can be a segment of a normalised path: not
    empty, neither [.] nor [..], and without separator. *)
Fixpoint no_slash (s : string) : bool :=
  match s with
  | EmptyString => true
  | String c r => negb (is_slash c) && no_slash r
  end.

Definition plain (s : string) : bool :=
  nonempty s && negb (str_eqb s ".") && negb (str_eqb s "..") && no_slash s.

(** The absolute path with the given segments; [/] when there is none. *)
Definition abs_path (segs : list string) : string :=
  "/" ++ String.concat "/" segs.

(** [tree_dir st root d segs]: the directory [d] is reached from [root]
    through the child-directory collections along the names [segs], each
    directory on the way being held under its own, plain, name by the
    directory that is its parent. *)
Inductive tree_dir (st : VirtualFileSystem) (root : ref)
  : ref -> list string -> Prop :=
| tree_root : tree_dir st root root []
| tree_child p segs s c :
    tree_dir st root p segs ->
    map_get s (directoriesByName (dir_at st p)) = Some c ->
    dir_name (dir_at st c) = s ->
    dir_parent (dir_at st c) = Some p ->
    plain s = true ->
    tree_dir st root c (segs ++ [s])%list.

(** [tree_file st root f segs]: likewise for a file, [segs] ending with the
    name of the file. *)
Inductive tree_file (st : VirtualFileSystem) (root : ref)
  : ref -> list string -> Prop :=
| tree_file_in p segs s f :
    tree_dir st root p segs ->
    map_get s (filesByName (dir_at st p)) = Some f ->
    file_name (file_at st f) = s ->
    file_parent (file_at st f) = p ->
    plain s = true ->
    tree_file st root f (segs ++ [s])%list.

(** The [k]-th directory up the parent links, if the links go that far. *)
Fixpoint ancestor (st : VirtualFileSystem) (k : nat) (d : ref) : option ref :=
  match k with
  | O => Some d
  | S k' =>
      match dir_parent (dir_at st d) with
      | Some p => ancestor st k' p
      | None => None
      end
  end.

(** [under st d c]: the directory [c] is reached from [d] through the
    child-directory collections. *)
Inductive under (st : VirtualFileSystem) (d : ref) : ref -> Prop :=
| under_here : under st d d
| under_child c k e :
    under st d c ->
    map_get k (directoriesByName (dir_at st c)) = Some e ->
    under st d e.

(** The directory [c] holds every child directory under the own, plain,
    name of the child and is its parent, and is the parent of every file
    that it holds. *)
Definition holds_own (st : VirtualFileSystem) (c : ref) : Prop :=
  (forall k e, map_get k (directoriesByName (dir_at st c)) = Some e ->
     dir_name (dir_at st e) = k /\
     dir_parent (dir_at st e) = Some c /\
     plain k = true) /\
  (forall k f, map_get k (filesByName (dir_at st c)) = Some f ->
     file_parent (file_at st f) = c).

(** ** Predicates on states and calls *)

(** Well-formed stores.

    Every reference held by an object points into the store, a directory
    without parent is named [ROOT_PATH], and no directory has a name in both
    of its collections. *)

Definition dir_ok (nd nf : nat) (o : Directory) : Prop :=
  (forall p, dir_parent o = Some p -> p < nd) /\
  (dir_parent o = None -> dir_name o = ROOT_PATH) /\
  Forall (fun kv => snd kv < nf) (filesByName o) /\
  Forall (fun kv => snd kv < nd) (directoriesByName o) /\
  (forall k, map_has k (filesByName o) = true ->
             map_has k (directoriesByName o) = true -> False).

Definition file_ok (nd : nat) (o : File) : Prop := file_parent o < nd.

Definition Inv (st : VirtualFileSystem) : Prop :=
  currentDir st < length (directories st) /\
  Forall (dir_ok (length (directories st)) (length (files st))) (directories st) /\
  Forall (file_ok (length (directories st))) (files st).

(** The byte counter after the call is the one before it. *)
Definition keeps_total {A} (m : M A) : Prop :=
  forall st, totalFileContentBytes (snd (m st)) = totalFileContentBytes st.

(** No file collection holds the file [f]. *)
Definition held_nowhere (st : VirtualFileSystem) (f : ref) : Prop :=
  forall d k, map_get k (filesByName (dir_at st d)) <> Some f.

(** The keys of each collection are pairwise different, and the byte count
    of a file is the one of its content. *)
Definition keys_distinct (o : Directory) : Prop :=
  NoDup (map_keys (filesByName o)) /\ NoDup (map_keys (directoriesByName o)).

Definition content_consistent (o : File) : Prop :=
  contentByteCount o
  = match content o with Some c => Some (byteLength c) | None => None end.

Definition Inv2 (st : VirtualFileSystem) : Prop :=
  Forall keys_distinct (directories st) /\ Forall content_consistent (files st).

(** The directory in which [_getTarget] looks the base name up, in its
    general case: the end of the walk along the directory part of the
    path. *)
Definition landing (st : VirtualFileSystem) (path : string) : Result (option ref) :=
  let path := pathUtils.normalize path in
  start <-r (if pathUtils.isAbsolute path then _getRoot st
             else Ret (currentDir st));
  Ret (walk st start (filter (fun s => nonempty s = true)
                        (split_slash (pathUtils.dirname path)))).

(** [k] levels up from [d], staying where there is no parent. *)
Fixpoint up (st : VirtualFileSystem) (d : ref) (k : nat) : ref :=
  match k with
  | O => d
  | S k' =>
      match dir_parent (dir_at st d) with
      | Some p => up st p k'
      | None => up st d k'
      end
  end.

(** The relative path [../..] with [k] segments. *)
Definition ups (k : nat) : string := String.concat "/" (repeat ".." k).

(** * Properties *)

(** ** String equality *)

Lemma str_eqb_eq a b : str_eqb a b = true <-> a = b.
Proof. apply String.eqb_eq. Qed.

Lemma str_eqb_refl a : str_eqb a a = true.
Proof. apply String.eqb_refl. Qed.

Lemma str_eqb_neq a b : str_eqb a b = false <-> a <> b.
Proof. apply String.eqb_neq. Qed.

(** ** The path functions on the examples of their documentation *)

Example normalize_examples :
  pathUtils.normalize "" = "." /\
  pathUtils.normalize "foo/" = "foo/" /\
  pathUtils.normalize "./" = "./" /\
  pathUtils.normalize "../" = "../" /\
  pathUtils.normalize "/foo/bar//baz/asdf/quux/.." = "/foo/bar/baz/asdf" /\
  pathUtils.normalize "a/../.." = ".." /\
  pathUtils.normalize "/a/../.." = "/" /\
  pathUtils.normalize "//." = "/".
Proof. repeat split; reflexivity. Qed.

Example dirname_basename_examples :
  pathUtils.dirname "/foo/bar/baz/asdf/quux" = "/foo/bar/baz/asdf" /\
  pathUtils.dirname "/a" = "/" /\
  pathUtils.dirname "a" = "." /\
  pathUtils.dirname "a/b/" = "a" /\
  pathUtils.dirname "" = "." /\
  pathUtils.dirname "/" = "/" /\
  pathUtils.basename "/foo/bar/baz/asdf/quux.html" = "quux.html" /\
  pathUtils.basename "foo/" = "foo" /\
  pathUtils.basename "/" = "" /\
  pathUtils.basename "." = ".".
Proof. repeat split; reflexivity. Qed.

Example relative_examples :
  pathUtils.relative_is_empty "/home" "/foo" "/foo" = true /\
  pathUtils.relative_is_empty "/home" "/bar/foo" "/foo" = false /\
  pathUtils.relative_is_empty "/home" "/home/foo" "foo" = true /\
  pathUtils.relative_is_empty "/home" "/foo" "foo" = false.
Proof. repeat split; reflexivity. Qed.

(** ** The model on the tests of [test/index.test.ts] *)

Example test_makeDirectory :
  Directory_getPath (run_all [OpMakeDirectory "foo/"] VirtualFileSystem_new) 1
  = Ret "/foo" /\
  fst (makeDirectory "foo/bar" VirtualFileSystem_new) = Throw DirectoryNotFound /\
  fst (makeDirectory "" VirtualFileSystem_new) = Throw MissingPath /\
  fst (makeFile "foo/bar" VirtualFileSystem_new) = Throw DirectoryNotFound.
Proof. repeat split; reflexivity. Qed.

Example test_changeDirectory :
  getCurrentDir (run_all [OpMakeDirectory "test"; OpChangeDirectory (Some "test")]
                         VirtualFileSystem_new) = Ret "/test" /\
  getCurrentDir (run_all [OpMakeDirectory "test"; OpChangeDirectory (Some "test");
                          OpChangeDirectory None] VirtualFileSystem_new) = Ret "/" /\
  fst (changeDirectory (Some "foo")
         (run_all [OpMakeFile "foo"] VirtualFileSystem_new)) = Throw DirectoryNotFound.
Proof. repeat split; reflexivity. Qed.

Example test_getDirectoryContents :
  getDirectoryContents
    (run_all [OpMakeFile "newFile"; OpMakeDirectory "newDir"] VirtualFileSystem_new)
    None = Ret ["newDir"; "newFile"].
Proof. reflexivity. Qed.

Example test_moveFile :
  let st := run_all [OpMakeFile "fooFile"; OpMakeDirectory "bar";
                     OpMakeDirectory "bar/baz"; OpChangeDirectory (Some "bar");
                     OpMoveFile "../fooFile" "baz"] VirtualFileSystem_new in
  getDirectoryContents st (Some "/bar/baz") = Ret ["fooFile"] /\
  getDirectoryContents st (Some "/") = Ret ["bar"].
Proof. split; reflexivity. Qed.

Example test_moveDirectory :
  let st := run_all [OpMakeDirectory "foo"; OpMakeDirectory "bar";
                     OpChangeDirectory (Some "foo");
                     OpMoveDirectory "/home" "/foo" "/bar"] VirtualFileSystem_new in
  getCurrentDir st = Ret "/bar/foo" /\
  getDirectoryContents st (Some "/bar") = Ret ["foo"] /\
  getDirectoryContents st (Some "/") = Ret ["bar"].
Proof. repeat split; reflexivity. Qed.

Example test_rename :
  getDirectoryContents
    (run_all [OpMakeFile "foo"; OpRenameFile "foo" "bar"] VirtualFileSystem_new)
    None = Ret ["bar"] /\
  getDirectoryContents
    (run_all [OpMakeDirectory "foo"; OpRenameDirectory "foo" "bar"]
             VirtualFileSystem_new) None = Ret ["bar"].
Proof. split; reflexivity. Qed.

Example test_remove :
  let st := run_all [OpSetMaxBytes 10; OpMakeFile "foo"; OpWriteFile "foo" "content"]
                    VirtualFileSystem_new in
  totalFileContentBytes st = 7%Z /\
  totalFileContentBytes (snd (removeFile "foo" st)) = 0%Z /\
  getDirectoryContents (snd (removeFile "foo" st)) None = Ret [] /\
  fst (removeDirectory "foo" VirtualFileSystem_new) = Throw DirectoryNotFound.
Proof. repeat split; reflexivity. Qed.

(** ** The [Map] operations *)

Lemma map_get_set k k' v m :
  map_get k (map_set k' v m) = if str_eqb k k' then Some v else map_get k m.
Proof.
  induction m as [|[k0 v0] m IH]; simpl.
  - destruct (str_eqb k k'); reflexivity.
  - destruct (str_eqb k' k0) eqn:E0; simpl.
    + apply str_eqb_eq in E0. subst k0.
      destruct (str_eqb k k'); reflexivity.
    + rewrite IH. destruct (str_eqb k k0) eqn:E1; [|reflexivity].
      apply str_eqb_eq in E1. subst k0.
      destruct (str_eqb k k') eqn:E2; [|reflexivity].
      apply str_eqb_eq in E2. subst k'. rewrite str_eqb_refl in E0. discriminate.
Qed.

Lemma map_get_delete k k' m :
  map_get k (map_delete k' m) = if str_eqb k k' then None else map_get k m.
Proof.
  induction m as [|[k0 v0] m IH]; simpl.
  - destruct (str_eqb k k'); reflexivity.
  - destruct (str_eqb k' k0) eqn:E0; simpl.
    + apply str_eqb_eq in E0. subst k0. rewrite IH.
      destruct (str_eqb k k'); reflexivity.
    + rewrite IH. destruct (str_eqb k k0) eqn:E1; [|reflexivity].
      apply str_eqb_eq in E1. subst k0.
      destruct (str_eqb k k') eqn:E2; [|reflexivity].
      apply str_eqb_eq in E2. subst k'. rewrite str_eqb_refl in E0. discriminate.
Qed.

Lemma map_has_set k k' v m :
  map_has k (map_set k' v m) = str_eqb k k' || map_has k m.
Proof. unfold map_has. rewrite map_get_set. destruct (str_eqb k k'); reflexivity. Qed.

Lemma map_has_delete k k' m :
  map_has k (map_delete k' m) = negb (str_eqb k k') && map_has k m.
Proof. unfold map_has. rewrite map_get_delete. destruct (str_eqb k k'); reflexivity. Qed.

Lemma map_get_In k v m : map_get k m = Some v -> In (k, v) m.
Proof.
  induction m as [|[k0 v0] m IH]; simpl; [discriminate|].
  destruct (str_eqb k k0) eqn:E.
  - apply str_eqb_eq in E. intros [= ->]. left. congruence.
  - intros H. right. auto.
Qed.

Lemma Forall_map_set (P : string * nat -> Prop) k v m :
  Forall P m -> P (k, v) -> Forall P (map_set k v m).
Proof.
  induction 1 as [|[k0 v0] m H0 Hm IH]; simpl; intros Hk.
  - repeat constructor. exact Hk.
  - destruct (str_eqb k k0); constructor; auto.
Qed.

Lemma Forall_map_delete (P : string * nat -> Prop) k m :
  Forall P m -> Forall P (map_delete k m).
Proof.
  induction 1 as [|[k0 v0] m H0 Hm IH]; simpl; [constructor|].
  destruct (str_eqb k k0); [exact IH|constructor; auto].
Qed.

Lemma Forall_map_get (P : string * nat -> Prop) k v m :
  Forall P m -> map_get k m = Some v -> P (k, v).
Proof.
  intros HF Hg. apply map_get_In in Hg.
  rewrite Forall_forall in HF. apply HF. apply list_elem_of_In. exact Hg.
Qed.

(** ** Well-formed stores *)

Lemma dir_ok_mono nd nf nd' nf' o :
  nd <= nd' -> nf <= nf' -> dir_ok nd nf o -> dir_ok nd' nf' o.
Proof.
  intros Hd Hf (H1 & H2 & H3 & H4 & H5). repeat split; auto.
  - intros p Hp. specialize (H1 p Hp). lia.
  - eapply Forall_impl; [exact H3|]. simpl. intros; lia.
  - eapply Forall_impl; [exact H4|]. simpl. intros; lia.
Qed.

Lemma dir_ok_default nd nf : dir_ok nd nf (new_Directory None ROOT_PATH).
Proof.
  repeat split; simpl; try constructor; try discriminate.
Qed.

Lemma Inv_dir_at st d :
  Inv st -> dir_ok (length (directories st)) (length (files st)) (dir_at st d).
Proof.
  intros (_ & HD & _). unfold dir_at.
  destruct (directories st !! d) as [o|] eqn:E; simpl.
  - eapply Forall_lookup_1; eauto.
  - apply dir_ok_default.
Qed.

Lemma Inv_file_at st f :
  Inv st -> 0 < length (directories st) ->
  file_ok (length (directories st)) (file_at st f).
Proof.
  intros (_ & _ & HF) Hpos. unfold file_at.
  destruct (files st !! f) as [o|] eqn:E; simpl.
  - eapply Forall_lookup_1; eauto.
  - exact Hpos.
Qed.

Lemma Inv_pos st : Inv st -> 0 < length (directories st).
Proof. intros (H & _). lia. Qed.

Lemma Inv_upd_dir st d f :
  Inv st ->
  dir_ok (length (directories st)) (length (files st)) (f (dir_at st d)) ->
  Inv (upd_dir d f st).
Proof.
  intros (HC & HD & HF) Hok. unfold Inv, upd_dir; simpl.
  rewrite length_insert. repeat split; auto.
  apply Forall_insert; auto.
Qed.

Lemma Inv_upd_file st x f :
  Inv st ->
  file_ok (length (directories st)) (f (file_at st x)) ->
  Inv (upd_file x f st).
Proof.
  intros (HC & HD & HF) Hok. unfold Inv, upd_file; simpl.
  rewrite length_insert. repeat split; auto.
  apply Forall_insert; auto.
Qed.

Lemma Inv_alloc_Directory st p name :
  Inv st -> p < length (directories st) ->
  Inv (snd (alloc_Directory (new_Directory (Some p) name) st)).
Proof.
  intros (HC & HD & HF) Hp. unfold Inv; simpl.
  rewrite length_app; simpl. repeat split.
  - lia.
  - apply Forall_app. split.
    + eapply Forall_impl; [exact HD|]. intros o. apply dir_ok_mono; lia.
    + repeat constructor; simpl; try discriminate.
      intros q [= <-]. lia.
  - eapply Forall_impl; [exact HF|]. unfold file_ok. intros; lia.
Qed.

Lemma Inv_alloc_File st p name c :
  Inv st -> p < length (directories st) ->
  Inv (snd (alloc_File (new_File p name c) st)).
Proof.
  intros (HC & HD & HF) Hp. unfold Inv; simpl.
  rewrite length_app; simpl. repeat split.
  - exact HC.
  - eapply Forall_impl; [exact HD|]. intros o. apply dir_ok_mono; lia.
  - apply Forall_app. split; [exact HF|].
    repeat constructor. unfold file_ok, new_File.
    destruct c as [x|]; [destruct (str_eqb x "")|]; exact Hp.
Qed.

(** ** Reading the store after an assignment *)

Lemma length_directories_upd_dir d f st :
  length (directories (upd_dir d f st)) = length (directories st).
Proof. unfold upd_dir; simpl. apply length_insert. Qed.

Lemma length_files_upd_file x f st :
  length (files (upd_file x f st)) = length (files st).
Proof. unfold upd_file; simpl. apply length_insert. Qed.

Lemma dir_at_upd_dir_eq d f st :
  d < length (directories st) -> dir_at (upd_dir d f st) d = f (dir_at st d).
Proof.
  intros H. unfold dir_at at 1, upd_dir; simpl.
  rewrite list_lookup_insert_eq by exact H. reflexivity.
Qed.

Lemma dir_at_upd_dir_ne d d' f st :
  d <> d' -> dir_at (upd_dir d f st) d' = dir_at st d'.
Proof.
  intros H. unfold dir_at, upd_dir; simpl.
  rewrite list_lookup_insert_ne by exact H. reflexivity.
Qed.

Lemma upd_dir_out_of_range d f st :
  length (directories st) <= d -> upd_dir d f st = st.
Proof.
  intros H. unfold upd_dir. rewrite list_insert_ge by exact H.
  destruct st; reflexivity.
Qed.

Lemma upd_file_out_of_range x f st :
  length (files st) <= x -> upd_file x f st = st.
Proof.
  intros H. unfold upd_file. rewrite list_insert_ge by exact H.
  destruct st; reflexivity.
Qed.

Lemma file_at_upd_file_eq x f st :
  x < length (files st) -> file_at (upd_file x f st) x = f (file_at st x).
Proof.
  intros H. unfold file_at at 1, upd_file; simpl.
  rewrite list_lookup_insert_eq by exact H. reflexivity.
Qed.

Lemma file_at_upd_file_ne x x' f st :
  x <> x' -> file_at (upd_file x f st) x' = file_at st x'.
Proof.
  intros H. unfold file_at, upd_file; simpl.
  rewrite list_lookup_insert_ne by exact H. reflexivity.
Qed.

(** A field that the assignment does not touch reads as before. *)
Lemma dir_at_upd_dir_field {A} (field : Directory -> A) d f st d' :
  (forall o, field (f o) = field o) ->
  field (dir_at (upd_dir d f st) d') = field (dir_at st d').
Proof.
  intros Hf. destruct (Nat.eq_dec d d') as [<-|Hne].
  - destruct (Nat.lt_ge_cases d (length (directories st))) as [Hlt|Hge].
    + rewrite dir_at_upd_dir_eq by exact Hlt. apply Hf.
    + rewrite upd_dir_out_of_range by exact Hge. reflexivity.
  - rewrite dir_at_upd_dir_ne by exact Hne. reflexivity.
Qed.

Lemma file_at_upd_file_field {A} (field : File -> A) x f st x' :
  (forall o, field (f o) = field o) ->
  field (file_at (upd_file x f st) x') = field (file_at st x').
Proof.
  intros Hf. destruct (Nat.eq_dec x x') as [<-|Hne].
  - destruct (Nat.lt_ge_cases x (length (files st))) as [Hlt|Hge].
    + rewrite file_at_upd_file_eq by exact Hlt. apply Hf.
    + rewrite upd_file_out_of_range by exact Hge. reflexivity.
  - rewrite file_at_upd_file_ne by exact Hne. reflexivity.
Qed.

Lemma dir_at_upd_file x f st d : dir_at (upd_file x f st) d = dir_at st d.
Proof. reflexivity. Qed.

Lemma file_at_upd_dir d f st x : file_at (upd_dir d f st) x = file_at st x.
Proof. reflexivity. Qed.

(** ** Calls keep the store well formed *)

Lemma bind_Inv {A B} (m : M A) (k : A -> M B) st :
  Inv (snd (m st)) ->
  (forall a, fst (m st) = Ret a -> Inv (snd (k a (snd (m st))))) ->
  Inv (snd (bind m k st)).
Proof.
  unfold bind. destruct (m st) as [[a|e|] st']; simpl; auto.
Qed.

Lemma Directory_addDirectory_Inv this dir st :
  Inv st -> this < length (directories st) -> dir < length (directories st) ->
  Inv (snd (Directory_addDirectory this dir st)).
Proof.
  intros HI Ht Hd. unfold Directory_addDirectory, Directory_hasFile.
  destruct (map_has _ _) eqn:Hhas; [exact HI|]. simpl.
  set (st1 := upd_dir dir (set_dir_parent (Some this)) st).
  assert (HI1 : Inv st1).
  { apply Inv_upd_dir; [exact HI|].
    destruct (Inv_dir_at st dir HI) as (H1 & H2 & H3 & H4 & H5).
    repeat split; simpl; auto; try discriminate.
    intros p [= <-]. exact Ht. }
  apply Inv_upd_dir; [exact HI1|].
  destruct (Inv_dir_at st1 this HI1) as (H1 & H2 & H3 & H4 & H5).
  repeat split; simpl; auto.
  - apply Forall_map_set; [exact H4|]. simpl.
    rewrite length_insert. exact Hd.
  - intros k Hk. rewrite map_has_set. intros Hor.
    apply orb_true_iff in Hor as [Heq|Hin]; [|eauto].
    apply str_eqb_eq in Heq. subst k.
    unfold st1 in Hk.
    rewrite (dir_at_upd_dir_field dir_name) in Hk by reflexivity.
    rewrite (dir_at_upd_dir_field filesByName) in Hk by reflexivity.
    congruence.
Qed.

Lemma Directory_addFile_Inv this file st :
  Inv st -> this < length (directories st) -> file < length (files st) ->
  Inv (snd (Directory_addFile this file st)).
Proof.
  intros HI Ht Hf. unfold Directory_addFile, Directory_hasDirectory.
  destruct (map_has _ _) eqn:Hhas; [exact HI|]. simpl.
  set (st1 := upd_file file (set_file_parent this) st).
  assert (HI1 : Inv st1).
  { apply Inv_upd_file; [exact HI|]. exact Ht. }
  apply Inv_upd_dir; [exact HI1|].
  destruct (Inv_dir_at st1 this HI1) as (H1 & H2 & H3 & H4 & H5).
  repeat split; simpl; auto.
  - apply Forall_map_set; [exact H3|]. simpl.
    rewrite length_insert. exact Hf.
  - intros k. rewrite map_has_set. intros Hor Hk.
    apply orb_true_iff in Hor as [Heq|Hin]; [|eauto].
    apply str_eqb_eq in Heq. subst k.
    unfold st1 in Hk.
    rewrite (file_at_upd_file_field file_name) in Hk by reflexivity.
    rewrite dir_at_upd_file in Hk.
    congruence.
Qed.

Lemma Directory_removeDirectory_Inv this name st :
  Inv st -> Inv (snd (Directory_removeDirectory this name st)).
Proof.
  intros HI. unfold Directory_removeDirectory.
  destruct (str_eqb name ROOT_PATH); [exact HI|]. simpl.
  apply Inv_upd_dir; [exact HI|].
  destruct (Inv_dir_at st this HI) as (H1 & H2 & H3 & H4 & H5).
  repeat split; simpl; auto.
  - apply Forall_map_delete. exact H4.
  - intros k Hk. rewrite map_has_delete. intros Hand.
    apply andb_true_iff in Hand as [_ Hin]. eauto.
Qed.

Lemma Directory_removeFile_Inv this name st :
  Inv st -> Inv (snd (Directory_removeFile this name st)).
Proof.
  intros HI. unfold Directory_removeFile, modify. simpl.
  apply Inv_upd_dir; [exact HI|].
  destruct (Inv_dir_at st this HI) as (H1 & H2 & H3 & H4 & H5).
  repeat split; simpl; auto.
  - apply Forall_map_delete. exact H3.
  - intros k. rewrite map_has_delete. intros Hand Hk.
    apply andb_true_iff in Hand as [_ Hin]. eauto.
Qed.

(** ** The resolver returns references of the store *)

Lemma getRoot_loop_root n st d r :
  getRoot_loop n st d = Ret r -> dir_parent (dir_at st r) = None.
Proof.
  revert d. induction n as [|n IH]; simpl; intros d; [discriminate|].
  destruct (dir_parent (dir_at st d)) as [p|] eqn:E; [apply IH|].
  intros [= <-]. exact E.
Qed.

Lemma getRoot_loop_valid n st d r :
  Inv st -> d < length (directories st) ->
  getRoot_loop n st d = Ret r -> r < length (directories st).
Proof.
  intros HI. revert d. induction n as [|n IH]; simpl; intros d Hd; [discriminate|].
  destruct (dir_parent (dir_at st d)) as [p|] eqn:E.
  - apply IH. destruct (Inv_dir_at st d HI) as (H1 & _). auto.
  - intros [= <-]. exact Hd.
Qed.

Lemma _getRoot_valid st r :
  Inv st -> _getRoot st = Ret r -> r < length (directories st).
Proof.
  intros HI. apply getRoot_loop_valid; [exact HI|]. apply HI.
Qed.

Lemma walk_valid st d l r :
  Inv st -> d < length (directories st) ->
  walk st d l = Some r -> r < length (directories st).
Proof.
  intros HI. revert d. induction l as [|x l IH]; simpl; intros d Hd.
  - intros [= <-]. exact Hd.
  - destruct (Inv_dir_at st d HI) as (H1 & _ & _ & H4 & _).
    destruct (includes MOVE_UP_PATHS x).
    + destruct (dir_parent (dir_at st d)) as [p|]; apply IH; auto.
    + destruct (includes CURRENT_DIR_PATHS x); [apply IH; exact Hd|].
      destruct (map_get x (directoriesByName (dir_at st d))) as [c|] eqn:E;
        [|discriminate].
      apply IH. apply (Forall_map_get _ _ _ _ H4 E).
Qed.

(** What the general case of [_getTarget] returns was found in a collection
    of a directory of the store, under the base name of the path. *)
Lemma _getTarget_general st path start currDir :
  Inv st ->
  (if pathUtils.isAbsolute path then _getRoot st else Ret (currentDir st))
    = Ret start ->
  walk st start (filter (fun s => nonempty s = true)
                        (split_slash (pathUtils.dirname path))) = Some currDir ->
  currDir < length (directories st).
Proof.
  intros HI Hs Hw. eapply walk_valid; [exact HI| |exact Hw].
  destruct (pathUtils.isAbsolute path).
  - eapply _getRoot_valid; eauto.
  - injection Hs as <-. apply HI.
Qed.

Lemma _getTargetFile_found st path f :
  Inv st -> _getTargetFile st path = Ret (Some f) ->
  exists d, d < length (directories st) /\
    map_get (pathUtils.basename (pathUtils.normalize path))
            (filesByName (dir_at st d)) = Some f.
Proof.
  intros HI. unfold _getTargetFile, _getTarget.
  destruct (if pathUtils.isAbsolute _ then _ else _) as [start| |] eqn:Hs;
    simpl; try discriminate.
  destruct (walk st start _) as [currDir|] eqn:Hw; [|discriminate].
  intros [= Hg]. exists currDir. split; [|exact Hg].
  eapply _getTarget_general; eauto.
Qed.

Lemma _getTargetFile_valid st path f :
  Inv st -> _getTargetFile st path = Ret (Some f) -> f < length (files st).
Proof.
  intros HI H. destruct (_getTargetFile_found st path f HI H) as (d & Hd & Hg).
  destruct (Inv_dir_at st d HI) as (_ & _ & H3 & _).
  apply (Forall_map_get _ _ _ _ H3 Hg).
Qed.

Lemma _getTargetDirectory_valid st path d :
  Inv st -> _getTargetDirectory st path = Ret (Some d) ->
  d < length (directories st).
Proof.
  intros HI. unfold _getTargetDirectory, _getTarget.
  destruct (includes CURRENT_DIR_PATHS _).
  { intros [= <-]. apply HI. }
  destruct (str_eqb _ ROOT_PATH).
  { destruct (_getRoot st) as [r| |] eqn:E; simpl; try discriminate.
    intros [= <-]. eapply _getRoot_valid; eauto. }
  destruct (includes MOVE_UP_PATHS _).
  { destruct (dir_parent (dir_at st (currentDir st))) as [p|] eqn:E.
    - intros [= <-]. destruct (Inv_dir_at st (currentDir st) HI) as (H1 & _). auto.
    - intros [= <-]. apply HI. }
  destruct (if pathUtils.isAbsolute _ then _ else _) as [start| |] eqn:Hs;
    simpl; try discriminate.
  destruct (walk st start _) as [currDir|] eqn:Hw; [|discriminate].
  intros [= Hg].
  assert (Hc : currDir < length (directories st))
    by (eapply _getTarget_general; eauto).
  destruct (Inv_dir_at st currDir HI) as (_ & _ & _ & H4 & _).
  apply (Forall_map_get _ _ _ _ H4 Hg).
Qed.

(** ** Every call keeps the store well formed *)

Lemma Directory_createAndAddDirectory_Inv this name st :
  Inv st -> this < length (directories st) ->
  Inv (snd (Directory_createAndAddDirectory this name st)).
Proof.
  intros HI Ht. unfold Directory_createAndAddDirectory.
  destruct (str_eqb name ROOT_PATH); [exact HI|].
  apply bind_Inv.
  - apply Inv_alloc_Directory; assumption.
  - intros dir Hdir. simpl in Hdir. injection Hdir as <-.
    apply Directory_addDirectory_Inv.
    + apply Inv_alloc_Directory; assumption.
    + simpl. rewrite length_app. simpl. lia.
    + simpl. rewrite length_app. simpl. lia.
Qed.

Lemma Directory_createAndAddFile_Inv this name c st :
  Inv st -> this < length (directories st) ->
  Inv (snd (Directory_createAndAddFile this name c st)).
Proof.
  intros HI Ht. unfold Directory_createAndAddFile.
  apply bind_Inv.
  - apply Inv_alloc_File; assumption.
  - intros file Hfile. simpl in Hfile. injection Hfile as <-.
    apply Directory_addFile_Inv.
    + apply Inv_alloc_File; assumption.
    + simpl. exact Ht.
    + simpl. rewrite length_app. simpl. lia.
Qed.

Lemma Directory_update_Inv this name st :
  Inv st -> this < length (directories st) ->
  Inv (snd (Directory_update this name None st)).
Proof.
  intros HI Ht. unfold Directory_update.
  destruct (dir_parent (dir_at st this)) as [originalParent|] eqn:Ep; [|exact HI].
  simpl.
  destruct (map_has _ _); [exact HI|].
  assert (Hp : originalParent < length (directories st)).
  { destruct (Inv_dir_at st this HI) as (H1 & _). auto. }
  set (nm := default (dir_name (dir_at st this)) name).
  pose (st1 := upd_dir this (set_dir_name nm) st).
  assert (HI1 : Inv st1).
  { apply Inv_upd_dir; [exact HI|].
    destruct (Inv_dir_at st this HI) as (H1 & H2 & H3 & H4 & H5).
    repeat split; simpl; auto. rewrite Ep. discriminate. }
  pose (st2 := upd_dir this (set_dir_parent (Some originalParent)) st1).
  assert (HI2 : Inv st2).
  { apply Inv_upd_dir; [exact HI1|].
    destruct (Inv_dir_at st1 this HI1) as (H1 & H2 & H3 & H4 & H5).
    repeat split; simpl; auto; try discriminate.
    intros p [= <-]. rewrite length_insert. exact Hp. }
  assert (Hlen : length (directories st2) = length (directories st)).
  { unfold st2, st1. rewrite !length_directories_upd_dir. reflexivity. }
  assert (HI3 : Inv (snd (Directory_addDirectory originalParent this st2))).
  { apply Directory_addDirectory_Inv; [exact HI2| |]; lia. }
  apply bind_Inv; [exact HI1|]. intros _ _.
  apply bind_Inv; [exact HI2|]. intros _ _.
  apply bind_Inv; [exact HI3|]. intros _ _.
  apply Directory_removeDirectory_Inv. exact HI3.
Qed.

Lemma File_update_Inv this name c st :
  Inv st -> this < length (files st) ->
  Inv (snd (File_update this name None c st)).
Proof.
  intros HI Ht. unfold File_update. simpl.
  assert (Hp : file_parent (file_at st this) < length (directories st)).
  { apply Inv_file_at; [exact HI|]. apply Inv_pos. exact HI. }
  set (nm := default (file_name (file_at st this)) name).
  set (c' := match c with Some x => Some x | None => content (file_at st this) end).
  pose (st1 := upd_file this (set_file_name nm) st).
  assert (HI1 : Inv st1).
  { apply Inv_upd_file; [exact HI|]. exact Hp. }
  pose (st2 := upd_file this (set_content c') st1).
  assert (HI2 : Inv st2).
  { apply Inv_upd_file; [exact HI1|].
    unfold file_ok. simpl. apply (Inv_file_at st1 this HI1). apply Inv_pos. exact HI1. }
  assert (HI3 : Inv (snd (Directory_addFile (file_parent (file_at st this)) this st2))).
  { apply Directory_addFile_Inv; [exact HI2| |].
    + exact Hp.
    + unfold st2, st1. rewrite !length_files_upd_file. exact Ht. }
  apply bind_Inv; [exact HI1|]. intros _ _.
  apply bind_Inv; [exact HI2|]. intros _ _.
  apply bind_Inv; [exact HI3|]. intros _ _.
  apply Directory_removeFile_Inv. exact HI3.
Qed.

Lemma File_setContent_Inv this c st :
  Inv st -> Inv (snd (File_setContent this c st)).
Proof.
  intros HI. unfold File_setContent.
  assert (H1 : Inv (upd_file this (set_contentByteCount (Some (byteLength c))) st)).
  { apply Inv_upd_file; [exact HI|].
    apply (Inv_file_at st this HI). apply Inv_pos. exact HI. }
  apply bind_Inv; [exact H1|]. intros _ _.
  apply Inv_upd_file; [exact H1|].
  apply (Inv_file_at _ this H1). apply Inv_pos. exact H1.
Qed.

Lemma Inv_with_total n st : Inv st -> Inv (with_total n st).
Proof. intros H. exact H. Qed.

Lemma Inv_with_maxBytes n st : Inv st -> Inv (with_maxBytes n st).
Proof. intros H. exact H. Qed.

Lemma Inv_with_currentDir d st :
  Inv st -> d < length (directories st) -> Inv (with_currentDir d st).
Proof. intros (H1 & H2 & H3) Hd. repeat split; assumption. Qed.

Lemma query_Inv {A} (q : VirtualFileSystem -> Result A) st :
  Inv st -> Inv (snd (query q st)).
Proof. intros H. exact H. Qed.

Lemma changeDirectory_Inv path st : Inv st -> Inv (snd (changeDirectory path st)).
Proof.
  intros HI. unfold changeDirectory.
  apply bind_Inv; [exact HI|]. simpl. intros [d|] Hd; [|exact HI].
  apply Inv_with_currentDir; [exact HI|].
  eapply _getTargetDirectory_valid; eauto.
Qed.

Lemma makeDirectory_Inv path st : Inv st -> Inv (snd (makeDirectory path st)).
Proof.
  intros HI. unfold makeDirectory.
  destruct (String.length path =? 0)%nat; [exact HI|].
  apply bind_Inv; [exact HI|]. simpl. intros [d|] Hd; [|exact HI].
  apply Directory_createAndAddDirectory_Inv; [exact HI|].
  eapply _getTargetDirectory_valid; eauto.
Qed.

Lemma makeFile_Inv path st : Inv st -> Inv (snd (makeFile path st)).
Proof.
  intros HI. unfold makeFile.
  apply bind_Inv; [exact HI|]. simpl. intros [d|] Hd; [|exact HI].
  apply Directory_createAndAddFile_Inv; [exact HI|].
  eapply _getTargetDirectory_valid; eauto.
Qed.

Lemma removeDirectory_Inv path st : Inv st -> Inv (snd (removeDirectory path st)).
Proof.
  intros HI. unfold removeDirectory.
  apply bind_Inv; [exact HI|]. simpl. intros [d|] Hd; [|exact HI].
  destruct (dir_parent (dir_at st d)) as [parent|]; [|exact HI].
  apply bind_Inv; [exact HI|]. simpl. intros n _.
  apply bind_Inv; [exact HI|]. simpl. intros _ _.
  apply Directory_removeDirectory_Inv. exact HI.
Qed.

Lemma removeFile_Inv path st : Inv st -> Inv (snd (removeFile path st)).
Proof.
  intros HI. unfold removeFile.
  apply bind_Inv; [exact HI|]. simpl. intros [f|] Hf; [|exact HI].
  assert (H1 : Inv (if truthy (content (file_at st f))
                    then with_total (totalFileContentBytes st
                           - byteLength (default "" (content (file_at st f))))%Z st
                    else st)).
  { destruct (truthy _); exact HI. }
  apply bind_Inv; [exact H1|]. intros _ _.
  apply Directory_removeFile_Inv. exact H1.
Qed.

Lemma writeFile_Inv path c st : Inv st -> Inv (snd (writeFile path c st)).
Proof.
  intros HI. unfold writeFile.
  apply bind_Inv; [exact HI|]. simpl. intros [f|] Hf; [|exact HI].
  destruct (_ >? _)%Z; [exact HI|].
  apply bind_Inv.
  - apply File_setContent_Inv. exact HI.
  - intros _ _. apply Inv_with_total. apply File_setContent_Inv. exact HI.
Qed.

Lemma moveFile_Inv path target st : Inv st -> Inv (snd (moveFile path target st)).
Proof.
  intros HI. unfold moveFile.
  apply bind_Inv; [exact HI|]. simpl. intros file Hf.
  apply bind_Inv; [exact HI|]. simpl. intros targetDir Hd.
  destruct file as [f|]; [|exact HI].
  destruct targetDir as [d|]; [|exact HI].
  assert (H1 : Inv (snd (Directory_addFile d f st))).
  { apply Directory_addFile_Inv; [exact HI| |].
    - eapply _getTargetDirectory_valid; eauto.
    - eapply _getTargetFile_valid; eauto. }
  apply bind_Inv; [exact H1|]. intros _ _.
  apply Directory_removeFile_Inv. exact H1.
Qed.

Lemma renameFile_Inv path name st : Inv st -> Inv (snd (renameFile path name st)).
Proof.
  intros HI. unfold renameFile.
  apply bind_Inv; [exact HI|]. simpl. intros [f|] Hf; [|exact HI].
  assert (H1 : Inv (snd (File_update f (Some name) None None st))).
  { apply File_update_Inv; [exact HI|]. eapply _getTargetFile_valid; eauto. }
  apply bind_Inv; [exact H1|]. intros _ _.
  apply Directory_removeFile_Inv. exact H1.
Qed.

Lemma renameDirectory_Inv path name st :
  Inv st -> Inv (snd (renameDirectory path name st)).
Proof.
  intros HI. unfold renameDirectory.
  destruct (str_eqb _ ROOT_PATH); [exact HI|].
  apply bind_Inv; [exact HI|]. simpl. intros [d|] Hd; [|exact HI].
  assert (H1 : Inv (snd (Directory_update d (Some name) None st))).
  { apply Directory_update_Inv; [exact HI|].
    eapply _getTargetDirectory_valid; eauto. }
  apply bind_Inv; [exact H1|]. intros _ _.
  destruct (dir_parent _) as [p|]; [|exact H1].
  apply Directory_removeDirectory_Inv. exact H1.
Qed.

Lemma length_directories_addDirectory this dir st :
  length (directories (snd (Directory_addDirectory this dir st)))
  = length (directories st).
Proof.
  unfold Directory_addDirectory. destruct (Directory_hasFile _ _ _); [reflexivity|].
  simpl. rewrite !length_insert. reflexivity.
Qed.

Lemma length_directories_removeDirectory this name st :
  length (directories (snd (Directory_removeDirectory this name st)))
  = length (directories st).
Proof.
  unfold Directory_removeDirectory. destruct (str_eqb _ _); [reflexivity|].
  simpl. rewrite !length_insert. reflexivity.
Qed.

Lemma moveDirectory_Inv cwd path target st :
  Inv st -> Inv (snd (moveDirectory cwd path target st)).
Proof.
  intros HI. unfold moveDirectory.
  destruct (str_eqb _ ROOT_PATH); [exact HI|].
  apply bind_Inv; [exact HI|]. simpl. intros directory Hdir.
  apply bind_Inv; [exact HI|]. simpl. intros targetDir Ht.
  destruct directory as [d|]; [|exact HI].
  destruct targetDir as [t|]; [|exact HI].
  assert (Hd : d < length (directories st))
    by (eapply _getTargetDirectory_valid; eauto).
  assert (Htv : t < length (directories st))
    by (eapply _getTargetDirectory_valid; eauto).
  set (st1 := snd (Directory_addDirectory t d st)).
  assert (H1 : Inv st1) by (apply Directory_addDirectory_Inv; assumption).
  set (rm := fun st' : VirtualFileSystem =>
               match dir_parent (dir_at st d) with
               | Some p => Directory_removeDirectory p (dir_name (dir_at st' d)) st'
               | None => ret tt st'
               end).
  assert (H2 : Inv (snd (rm st1))).
  { unfold rm. destruct (dir_parent (dir_at st d)); [|exact H1].
    apply Directory_removeDirectory_Inv. exact H1. }
  assert (Hlen : length (directories (snd (rm st1))) = length (directories st)).
  { unfold rm. destruct (dir_parent (dir_at st d)).
    - rewrite length_directories_removeDirectory. unfold st1.
      apply length_directories_addDirectory.
    - apply length_directories_addDirectory. }
  apply bind_Inv; [exact H1|]. intros _ _.
  apply bind_Inv; [exact H2|]. intros _ _.
  apply bind_Inv; [exact H2|]. simpl. intros here _.
  destruct (pathUtils.relative_is_empty _ _ _); [|exact H2].
  apply Inv_with_currentDir; [exact H2|].
  fold st1. change (d < length (directories (snd (rm st1)))). lia.
Qed.

Lemma run_Inv op st : Inv st -> Inv (snd (run op st)).
Proof.
  intros HI. destruct op; simpl;
    auto using changeDirectory_Inv, makeDirectory_Inv, makeFile_Inv,
      removeDirectory_Inv, removeFile_Inv, writeFile_Inv, moveFile_Inv,
      renameFile_Inv, renameDirectory_Inv, moveDirectory_Inv.
Qed.

Lemma Inv_new : Inv VirtualFileSystem_new.
Proof.
  unfold Inv; simpl. repeat split; repeat constructor; simpl;
    try discriminate; lia.
Qed.

Lemma reachable_Inv st : reachable st -> Inv st.
Proof.
  induction 1 as [|st op _ IH]; [apply Inv_new|apply run_Inv; exact IH].
Qed.

Lemma reachable_run_all ops st : reachable st -> reachable (run_all ops st).
Proof.
  revert st. induction ops as [|op ops IH]; intros st H; simpl; [exact H|].
  apply IH. constructor. exact H.
Qed.

(** ** Keys of a collection *)

Lemma map_has_keys k m : map_has k m = true <-> In k (map_keys m).
Proof.
  unfold map_has, map_keys. induction m as [|[k0 v0] m IH]; simpl.
  - split; [discriminate|tauto].
  - destruct (str_eqb k k0) eqn:E.
    + apply str_eqb_eq in E. subst k0. tauto.
    + apply str_eqb_neq in E. rewrite IH. split; [tauto|].
      intros [H|H]; [congruence|exact H].
Qed.

(** ** The uniqueness invariant *)

(** C4: in every state reached from the new file system by calls of the
    public operations, the states left by throwing calls included, no
    directory object has a name that is a key of both its child-directory
    collection and its child-file collection. *)
Theorem uniqueness_invariant st d D name :
  reachable st ->
  directories st !! d = Some D ->
  ~ (In name (map_keys (directoriesByName D)) /\ In name (map_keys (filesByName D))).
Proof.
  intros Hr HD [Hd Hf].
  destruct (reachable_Inv st Hr) as (_ & Hdirs & _).
  destruct (Forall_lookup_1 _ _ _ _ Hdirs HD) as (_ & _ & _ & _ & Huniq).
  apply (Huniq name); apply map_has_keys; assumption.
Qed.

Lemma uniqueness_invariant_witness :
  ~ (In "a" (map_keys (directoriesByName (dir_at st_file_and_directory 0))) /\
     In "a" (map_keys (filesByName (dir_at st_file_and_directory 0)))).
Proof.
  apply (uniqueness_invariant st_file_and_directory 0).
  - apply reachable_run_all. apply reachable_new.
  - reflexivity.
Defined.

(** ** Writing a file *)

(** C2: when [path] resolves to a file, a call of [writeFile(path, content)]
    that returns has set the content of that file to [content] and has added
    exactly [byteLength(content)] to [totalFileContentBytes], whatever the
    file held before. *)
Theorem writeFile_sets_content_and_adds_bytes st path c f :
  reachable st ->
  _getTargetFile st path = Ret (Some f) ->
  fst (writeFile path c st) = Ret tt ->
  content (file_at (snd (writeFile path c st)) f) = Some c /\
  totalFileContentBytes (snd (writeFile path c st))
  = (totalFileContentBytes st + byteLength c)%Z.
Proof.
  intros Hr Hf. pose proof (reachable_Inv st Hr) as HI.
  pose proof (_getTargetFile_valid st path f HI Hf) as Hv.
  unfold writeFile, bind, query. rewrite Hf.
  destruct (_ >? _)%Z; [discriminate|]. intros _.
  unfold File_setContent, bind, modify. simpl. split; [|reflexivity].
  unfold file_at at 1. simpl.
  rewrite list_lookup_insert_eq by (rewrite length_insert; exact Hv).
  reflexivity.
Qed.

Lemma writeFile_sets_content_and_adds_bytes_witness :
  content (file_at (snd (writeFile "a" "hello" st_file_and_directory)) 0)
  = Some "hello" /\
  totalFileContentBytes (snd (writeFile "a" "hello" st_file_and_directory))
  = (totalFileContentBytes st_file_and_directory + byteLength "hello")%Z.
Proof.
  apply (writeFile_sets_content_and_adds_bytes st_file_and_directory "a" "hello" 0).
  - apply reachable_run_all. apply reachable_new.
  - reflexivity.
  - reflexivity.
Defined.

(** C6: when [path] resolves to a file, [writeFile(path, content)] throws
    [OutOfMemory] exactly when
    [totalFileContentBytes + byteLength(content) > maxBytes], and the state
    after that failure is the state before the call; with [maxBytes = 1] and
    a new file [a], [writeFile('a', 'xx')] throws [OutOfMemory] and
    [totalFileContentBytes] stays 0. *)
Theorem writeFile_OutOfMemory :
  (forall st path c f,
     _getTargetFile st path = Ret (Some f) ->
     (fst (writeFile path c st) = Throw OutOfMemory <->
      (totalFileContentBytes st + byteLength c > maxBytes st)%Z) /\
     (fst (writeFile path c st) = Throw OutOfMemory ->
      snd (writeFile path c st) = st)) /\
  (maxBytes st_one_byte = 1%Z /\
   fst (writeFile "a" "xx" st_one_byte) = Throw OutOfMemory /\
   totalFileContentBytes (snd (writeFile "a" "xx" st_one_byte)) = 0%Z).
Proof.
  split; [|repeat split; reflexivity].
  intros st path c f Hf. unfold writeFile, bind, query. rewrite Hf.
  destruct (_ >? _)%Z eqn:E.
  - simpl. split; [|reflexivity]. split; [|reflexivity].
    intros _. apply Z.gtb_gt. exact E.
  - split.
    + split.
      * unfold File_setContent, bind, modify. simpl. discriminate.
      * intros H. apply Z.gtb_gt in H. congruence.
    + unfold File_setContent, bind, modify. simpl. discriminate.
Qed.

Lemma writeFile_OutOfMemory_witness :
  (fst (writeFile "a" "xx" st_one_byte) = Throw OutOfMemory <->
   (totalFileContentBytes st_one_byte + byteLength "xx" > maxBytes st_one_byte)%Z) /\
  (fst (writeFile "a" "xx" st_one_byte) = Throw OutOfMemory ->
   snd (writeFile "a" "xx" st_one_byte) = st_one_byte).
Proof.
  apply (proj1 writeFile_OutOfMemory st_one_byte "a" "xx" 0).
  reflexivity.
Defined.

(** ** Calls that leave the byte counter alone *)

Lemma keeps_total_bind {A B} (m : M A) (k : A -> M B) :
  keeps_total m -> (forall a, keeps_total (k a)) -> keeps_total (bind m k).
Proof.
  intros Hm Hk st. unfold bind. specialize (Hm st).
  destruct (m st) as [[a|e|] st']; simpl in *; [|exact Hm..].
  rewrite Hk. exact Hm.
Qed.

Lemma keeps_total_query {A} (q : VirtualFileSystem -> Result A) :
  keeps_total (query q).
Proof. intros st. reflexivity. Qed.

Lemma keeps_total_throw {A} e : keeps_total (@throw A e).
Proof. intros st. reflexivity. Qed.

Lemma keeps_total_ret {A} (a : A) : keeps_total (ret a).
Proof. intros st. reflexivity. Qed.

Lemma keeps_total_addFile this file : keeps_total (Directory_addFile this file).
Proof.
  intros st. unfold Directory_addFile.
  destruct (Directory_hasDirectory _ _ _); reflexivity.
Qed.

Lemma keeps_total_addDirectory this dir :
  keeps_total (Directory_addDirectory this dir).
Proof.
  intros st. unfold Directory_addDirectory.
  destruct (Directory_hasFile _ _ _); reflexivity.
Qed.

Lemma keeps_total_removeFile this name :
  keeps_total (Directory_removeFile this name).
Proof. intros st. reflexivity. Qed.

Lemma keeps_total_removeDirectory this name :
  keeps_total (Directory_removeDirectory this name).
Proof.
  intros st. unfold Directory_removeDirectory.
  destruct (str_eqb _ _); reflexivity.
Qed.

Lemma keeps_total_File_update this name parent c :
  keeps_total (File_update this name parent c).
Proof.
  intros st. unfold File_update.
  apply keeps_total_bind; [intros s; reflexivity|]. intros _.
  apply keeps_total_bind; [intros s; reflexivity|]. intros _.
  apply keeps_total_bind; [apply keeps_total_addFile|]. intros _.
  apply keeps_total_removeFile.
Qed.

Lemma keeps_total_Directory_update this name parent :
  keeps_total (Directory_update this name parent).
Proof.
  intros st. unfold Directory_update.
  destruct (dir_parent _); [|reflexivity].
  destruct (map_has _ _); [reflexivity|].
  apply keeps_total_bind; [intros s; reflexivity|]. intros _.
  apply keeps_total_bind; [intros s; reflexivity|]. intros _.
  apply keeps_total_bind; [apply keeps_total_addDirectory|]. intros _.
  apply keeps_total_removeDirectory.
Qed.

Lemma keeps_total_moveFile path target : keeps_total (moveFile path target).
Proof.
  unfold moveFile.
  apply keeps_total_bind; [apply keeps_total_query|]. intros file.
  apply keeps_total_bind; [apply keeps_total_query|]. intros targetDir.
  destruct file as [f|]; [|apply keeps_total_throw].
  destruct targetDir as [d|]; [|apply keeps_total_throw].
  intros st.
  apply keeps_total_bind; [apply keeps_total_addFile|]. intros _ s.
  apply keeps_total_removeFile.
Qed.

Lemma keeps_total_renameFile path name : keeps_total (renameFile path name).
Proof.
  unfold renameFile.
  apply keeps_total_bind; [apply keeps_total_query|]. intros [f|];
    [|apply keeps_total_throw].
  apply keeps_total_bind; [apply keeps_total_File_update|]. intros _ s.
  apply keeps_total_removeFile.
Qed.

Lemma keeps_total_renameDirectory path name :
  keeps_total (renameDirectory path name).
Proof.
  unfold renameDirectory.
  destruct (str_eqb _ _); [apply keeps_total_throw|].
  apply keeps_total_bind; [apply keeps_total_query|]. intros [d|];
    [|apply keeps_total_throw].
  apply keeps_total_bind; [apply keeps_total_Directory_update|]. intros _ s.
  destruct (dir_parent _); [apply keeps_total_removeDirectory|reflexivity].
Qed.

Lemma keeps_total_moveDirectory cwd path target :
  keeps_total (moveDirectory cwd path target).
Proof.
  unfold moveDirectory.
  destruct (str_eqb _ _); [apply keeps_total_throw|].
  apply keeps_total_bind; [apply keeps_total_query|]. intros directory.
  apply keeps_total_bind; [apply keeps_total_query|]. intros targetDir.
  destruct directory as [d|]; [|apply keeps_total_throw].
  destruct targetDir as [t|]; [|apply keeps_total_throw].
  intros st.
  apply keeps_total_bind; [apply keeps_total_addDirectory|]. intros _.
  apply keeps_total_bind.
  { intros s. destruct (dir_parent _);
      [apply keeps_total_removeDirectory|reflexivity]. }
  intros _.
  apply keeps_total_bind; [apply keeps_total_query|]. intros here.
  destruct (pathUtils.relative_is_empty _ _ _); intros s; reflexivity.
Qed.

(** C10: [moveFile], [moveDirectory], [renameFile] and [renameDirectory]
    leave [totalFileContentBytes] as it was, whatever the outcome of the
    call; when a written file is moved onto a written file of the same name,
    the bytes of the replaced file stay counted (34 = 15 + 19) although only
    the moved file (15 bytes) is left in the tree. *)
Theorem move_rename_keep_totalFileContentBytes :
  (forall st processCwd path target name,
     totalFileContentBytes (snd (moveFile path target st))
     = totalFileContentBytes st /\
     totalFileContentBytes (snd (moveDirectory processCwd path target st))
     = totalFileContentBytes st /\
     totalFileContentBytes (snd (renameFile path name st))
     = totalFileContentBytes st /\
     totalFileContentBytes (snd (renameDirectory path name st))
     = totalFileContentBytes st) /\
  (readFile st_replaced "bar/fooFile" = Ret (Some "fooFile content") /\
   totalFileContentBytes st_replaced = 34%Z /\
   (r <-r _getRoot st_replaced; Directory_getTotalByteCount st_replaced r)
   = Ret 15%Z).
Proof.
  split; [|repeat split; reflexivity].
  intros st processCwd path target name. repeat split.
  - apply keeps_total_moveFile.
  - apply keeps_total_moveDirectory.
  - apply keeps_total_renameFile.
  - apply keeps_total_renameDirectory.
Qed.

(** ** [find] *)

Lemma fold_left_collect (f : ref -> Result (list string)) ds acc :
  fold_left (fun acc d => matches <-r acc; here <-r f d; Ret (matches ++ here)%list)
            ds (Ret acc)
  = (others <-r collect f ds; Ret (acc ++ others)%list).
Proof.
  revert acc. induction ds as [|d ds IH]; intros acc; simpl.
  - rewrite app_nil_r. reflexivity.
  - destruct (f d) as [here|e|]; simpl.
    + rewrite IH. destruct (collect f ds) as [others|e|]; simpl; try reflexivity.
      rewrite app_assoc. reflexivity.
    + clear IH. induction ds as [|d' ds IH]; simpl; [reflexivity|exact IH].
    + clear IH. induction ds as [|d' ds IH]; simpl; [reflexivity|exact IH].
Qed.

Lemma fold_left_ext {A B} (f g : A -> B -> A) l a :
  (forall a x, f a x = g a x) -> fold_left f l a = fold_left g l a.
Proof.
  intros H. revert a. induction l as [|x l IH]; intros a; simpl; [reflexivity|].
  rewrite H. apply IH.
Qed.

Lemma find_rec_level n st name path d :
  _getTargetDirectory st (default "." path) = Ret (Some d) ->
  find_rec (S n) st name path
  = (ofFile <-r match map_get name (filesByName (dir_at st d)) with
                | Some f => p <-r File_getPath st f; Ret [p]
                | None => Ret []
                end;
     ofChildren <-r collect
         (fun c =>
            own <-r (if str_eqb (dir_name (dir_at st c)) name
                     then p <-r Directory_getPath st c; Ret [p]
                     else Ret []);
            p <-r Directory_getPath st c;
            sub <-r find_rec n st name (Some p);
            Ret (own ++ sub)%list)
         (map_values (directoriesByName (dir_at st d)));
     Ret (ofFile ++ ofChildren)%list).
Proof.
  intros Hd. simpl. rewrite Hd. simpl.
  destruct (match map_get name (filesByName (dir_at st d)) with
            | Some f => _ | None => _ end) as [ofFile|e|]; simpl; try reflexivity.
  rewrite <- fold_left_collect.
  apply fold_left_ext. intros acc c.
  destruct acc as [matches|e|]; simpl; try reflexivity.
  destruct (if str_eqb _ _ then _ else _) as [own|e|]; simpl; try reflexivity.
  destruct (Directory_getPath st c) as [p|e|]; simpl; try reflexivity.
  destruct (find_rec n st name (Some p)) as [below|e|]; reflexivity.
Qed.

(** ** Protection of the root *)

Lemma normalize_root : pathUtils.normalize "/" = ROOT_PATH.
Proof. reflexivity. Qed.

Lemma _getTargetDirectory_root st :
  _getTargetDirectory st "/" = (r <-r _getRoot st; Ret (Some r)).
Proof. reflexivity. Qed.

Lemma st_cycle_parents : forall n,
  getRoot_loop n st_cycle 3 = Diverge /\ getRoot_loop n st_cycle 4 = Diverge.
Proof.
  induction n as [|n [IH3 IH4]]; [split; reflexivity|].
  split; [exact IH4|exact IH3].
Qed.

(** C8 does not hold in every reachable state: after the calls of [cycle_calls], all of which
    return, the current directory lies on a cycle of parents, and
    [removeDirectory('/')] does not throw [CannotUpdateRoot]: the loop of
    [_getRoot] never ends, however many steps it is given. *)
Lemma removeDirectory_root_diverges :
  reachable st_cycle /\
  outcomes cycle_calls VirtualFileSystem_new = repeat (Ret tt) 7 /\
  (forall n, getRoot_loop n st_cycle (currentDir st_cycle) = Diverge) /\
  fst (removeDirectory "/" st_cycle) = Diverge /\
  fst (removeDirectory "/" st_cycle) <> Throw CannotUpdateRoot.
Proof.
  split; [apply reachable_run_all; apply reachable_new|].
  split; [reflexivity|]. split; [intros n; apply st_cycle_parents|].
  split; [reflexivity|]. vm_compute. discriminate.
Qed.

(** C8, amended: in every state and for every [x], [renameDirectory('/', x)]
    and [moveDirectory('/', x)] throw [CannotUpdateRoot]; so does
    [removeDirectory('/')] in every state in which the walk along the parent
    links from the current directory ends.  None of these calls changes the
    state. *)
Theorem root_protection st processCwd x :
  renameDirectory "/" x st = (Throw CannotUpdateRoot, st) /\
  moveDirectory processCwd "/" x st = (Throw CannotUpdateRoot, st) /\
  (forall root, _getRoot st = Ret root ->
     removeDirectory "/" st = (Throw CannotUpdateRoot, st)).
Proof.
  split; [reflexivity|]. split; [reflexivity|].
  intros root Hroot. unfold removeDirectory, bind, query.
  rewrite _getTargetDirectory_root, Hroot. simpl.
  unfold _getRoot in Hroot. apply getRoot_loop_root in Hroot.
  rewrite Hroot. reflexivity.
Qed.

Lemma root_protection_witness :
  removeDirectory "/" st_foo = (Throw CannotUpdateRoot, st_foo).
Proof.
  apply (proj2 (proj2 (root_protection st_foo "/" "x")) 0).
  reflexivity.
Defined.

(** ** State after a failed call *)

(** C1: a call that throws should leave the state as it was, and
    [renameFile] refused with [AmbiguousPath] should leave the name of the
    file alone.  The code does not: with a file [a] next to a directory [b],
    [renameFile('a', 'b')] throws [AmbiguousPath], and the file, still
    registered under [a] in an unchanged collection, has its [name] field
    changed to [b], because [File.update] assigns the name before [addFile]
    checks it ([Directory.update] checks first). *)
Theorem renameFile_AmbiguousPath_changes_name :
  let st := st_file_and_directory in
  let st' := snd (renameFile "a" "b" st) in
  _getTargetFile st "a" = Ret (Some 0) /\
  fst (renameFile "a" "b" st) = Throw AmbiguousPath /\
  directories st' = directories st /\
  _getTargetFile st' "a" = Ret (Some 0) /\
  file_name (file_at st 0) = "a" /\
  file_name (file_at st' 0) = "b" /\
  find st "a" None = Ret ["/a"] /\
  find st' "a" None = Ret ["/b"] /\
  st' <> st.
Proof.
  repeat split; try reflexivity. vm_compute. discriminate.
Qed.

(** C3: [makeDirectory('')] and [makeFile('')] should throw [MissingPath]
    and change nothing.  [makeDirectory('')] does, in every state;
    [makeFile] lacks the check of its sibling: on a new file system
    [makeFile('')] returns and has created a file named [.] in the current
    directory. *)
Theorem makeFile_empty_path_creates_file :
  (forall st, makeDirectory "" st = (Throw MissingPath, st)) /\
  fst (makeFile "" VirtualFileSystem_new) = Ret tt /\
  files VirtualFileSystem_new = [] /\
  files (snd (makeFile "" VirtualFileSystem_new)) = [mkFile 0 "." None None] /\
  getDirectoryContents (snd (makeFile "" VirtualFileSystem_new)) None = Ret ["."].
Proof.
  repeat split; reflexivity.
Qed.

(** ** Moving or renaming a file onto itself *)

Lemma dir_at_default st d :
  length (directories st) <= d -> dir_at st d = new_Directory None ROOT_PATH.
Proof.
  intros H. unfold dir_at. rewrite lookup_ge_None_2 by exact H. reflexivity.
Qed.

Lemma filesByName_removeFile this name st d :
  filesByName (dir_at (snd (Directory_removeFile this name st)) d)
  = if Nat.eq_dec d this then map_delete name (filesByName (dir_at st this))
    else filesByName (dir_at st d).
Proof.
  unfold Directory_removeFile, modify. simpl.
  destruct (Nat.eq_dec d this) as [->|Hne].
  - destruct (Nat.lt_ge_cases this (length (directories st))) as [Hlt|Hge].
    + rewrite dir_at_upd_dir_eq by exact Hlt. reflexivity.
    + rewrite upd_dir_out_of_range by exact Hge.
      rewrite dir_at_default by exact Hge. reflexivity.
  - rewrite dir_at_upd_dir_ne by congruence. reflexivity.
Qed.

Lemma file_at_removeFile this name st f :
  file_at (snd (Directory_removeFile this name st)) f = file_at st f.
Proof. reflexivity. Qed.

Lemma addFile_returns this file st :
  Directory_hasDirectory st this (file_name (file_at st file)) = false ->
  Directory_addFile this file st
  = (Ret tt,
     upd_dir this (fun o =>
        set_filesByName (map_set (file_name (file_at st file)) file (filesByName o)) o)
       (upd_file file (set_file_parent this) st)).
Proof.
  intros H. unfold Directory_addFile. rewrite H. unfold ret.
  rewrite (file_at_upd_file_field file_name) by reflexivity. reflexivity.
Qed.

Lemma filesByName_addFile this file st d :
  Directory_hasDirectory st this (file_name (file_at st file)) = false ->
  this < length (directories st) ->
  filesByName (dir_at (snd (Directory_addFile this file st)) d)
  = if Nat.eq_dec d this
    then map_set (file_name (file_at st file)) file (filesByName (dir_at st this))
    else filesByName (dir_at st d).
Proof.
  intros H Hlt. rewrite addFile_returns by exact H. simpl.
  destruct (Nat.eq_dec d this) as [->|Hne].
  - rewrite dir_at_upd_dir_eq by exact Hlt. reflexivity.
  - rewrite dir_at_upd_dir_ne by congruence. reflexivity.
Qed.

Lemma file_name_addFile this file st f :
  file_name (file_at (snd (Directory_addFile this file st)) f)
  = file_name (file_at st f).
Proof.
  unfold Directory_addFile. destruct (Directory_hasDirectory _ _ _); [reflexivity|].
  simpl. rewrite file_at_upd_dir.
  apply (file_at_upd_file_field file_name). reflexivity.
Qed.

(** A file that no collection holds stays so when an entry is deleted. *)
Lemma held_nowhere_removeFile this name st f :
  held_nowhere st f -> held_nowhere (snd (Directory_removeFile this name st)) f.
Proof.
  intros H d k. rewrite filesByName_removeFile.
  destruct (Nat.eq_dec d this) as [->|Hne]; [|apply H].
  rewrite map_get_delete. destruct (str_eqb k name); [discriminate|apply H].
Qed.

(** Adding a file to the directory that holds it, under the name it is held
    under, and deleting that name: the file is held nowhere. *)
Lemma held_nowhere_add_remove st f d :
  Inv st -> d < length (directories st) ->
  map_get (file_name (file_at st f)) (filesByName (dir_at st d)) = Some f ->
  (forall d' k, d' < length (directories st) ->
     map_get k (filesByName (dir_at st d')) = Some f ->
     d' = d /\ k = file_name (file_at st f)) ->
  Directory_hasDirectory st d (file_name (file_at st f)) = false /\
  held_nowhere
    (snd (Directory_removeFile d (file_name (file_at st f))
            (snd (Directory_addFile d f st)))) f.
Proof.
  intros HI Hd Hreg Honly.
  assert (Hno : Directory_hasDirectory st d (file_name (file_at st f)) = false).
  { unfold Directory_hasDirectory.
    destruct (map_has _ (directoriesByName _)) eqn:E; [|reflexivity].
    destruct (Inv_dir_at st d HI) as (_ & _ & _ & _ & Huniq).
    exfalso. apply (Huniq (file_name (file_at st f))); [|exact E].
    unfold map_has. rewrite Hreg. reflexivity. }
  split; [exact Hno|].
  intros d' k. rewrite filesByName_removeFile.
  destruct (Nat.eq_dec d' d) as [->|Hne].
  - rewrite map_get_delete.
    destruct (str_eqb k _) eqn:Ek; [discriminate|].
    rewrite filesByName_addFile by assumption.
    destruct (Nat.eq_dec d d) as [_|]; [|congruence].
    rewrite map_get_set, Ek. intros Hk.
    apply Honly in Hk; [|exact Hd]. destruct Hk as [_ ->].
    rewrite str_eqb_refl in Ek. discriminate.
  - rewrite filesByName_addFile by assumption.
    destruct (Nat.eq_dec d' d) as [|_]; [congruence|].
    destruct (Nat.lt_ge_cases d' (length (directories st))) as [Hlt|Hge].
    + intros Hk. apply Honly in Hk; [|exact Hlt]. destruct Hk as [-> _]. congruence.
    + rewrite dir_at_default by exact Hge. discriminate.
Qed.

Lemma moveFile_to_parent st path target f d :
  Inv st -> d < length (directories st) ->
  _getTargetFile st path = Ret (Some f) ->
  _getTargetDirectory st target = Ret (Some d) ->
  file_parent (file_at st f) = d ->
  map_get (file_name (file_at st f)) (filesByName (dir_at st d)) = Some f ->
  (forall d' k, d' < length (directories st) ->
     map_get k (filesByName (dir_at st d')) = Some f ->
     d' = d /\ k = file_name (file_at st f)) ->
  fst (moveFile path target st) = Ret tt /\
  held_nowhere (snd (moveFile path target st)) f.
Proof.
  intros HI Hd Hf Ht Hpar Hreg Honly.
  destruct (held_nowhere_add_remove st f d HI Hd Hreg Honly) as [Hno Hheld].
  unfold moveFile, bind, query. rewrite Hf, Ht, Hpar.
  pose proof (file_name_addFile d f st f) as Hname.
  destruct (Directory_addFile d f st) as [r st1] eqn:Eadd.
  rewrite addFile_returns in Eadd by exact Hno.
  injection Eadd as <- Est1. simpl in Hname, Hheld.
  rewrite <- Est1. rewrite Est1, Hname.
  split; [reflexivity|exact Hheld].
Qed.

Lemma renameFile_to_own_name st path f d :
  Inv st -> d < length (directories st) -> f < length (files st) ->
  _getTargetFile st path = Ret (Some f) ->
  file_parent (file_at st f) = d ->
  map_get (file_name (file_at st f)) (filesByName (dir_at st d)) = Some f ->
  (forall d' k, d' < length (directories st) ->
     map_get k (filesByName (dir_at st d')) = Some f ->
     d' = d /\ k = file_name (file_at st f)) ->
  fst (renameFile path (file_name (file_at st f)) st) = Ret tt /\
  held_nowhere (snd (renameFile path (file_name (file_at st f)) st)) f.
Proof.
  intros HI Hd Hfv Hf Hpar Hreg Honly.
  destruct (held_nowhere_add_remove st f d HI Hd Hreg Honly) as [Hno Hheld].
  (* the two assignments of [File.update] write the values already there *)
  assert (Hsame : upd_file f (set_content (content (file_at st f)))
                    (upd_file f (set_file_name (file_name (file_at st f))) st) = st).
  { unfold upd_file at 1. rewrite file_at_upd_file_eq by exact Hfv.
    unfold upd_file, with_files. simpl. rewrite list_insert_insert_eq.
    unfold file_at. destruct (files st !! f) as [o|] eqn:E.
    - simpl. rewrite list_insert_id; [destruct st; reflexivity|].
      rewrite E. destruct o; reflexivity.
    - apply lookup_ge_None_1 in E. lia. }
  unfold renameFile, bind, query. rewrite Hf.
  unfold File_update, bind, modify. simpl default. cbv beta iota zeta.
  simpl fst. simpl snd. rewrite Hsame, Hpar.
  pose proof (file_name_addFile d f st f) as Hname.
  destruct (Directory_addFile d f st) as [r st1] eqn:Eadd.
  rewrite addFile_returns in Eadd by exact Hno.
  injection Eadd as <- Est1. simpl in Hname, Hheld.
  split; [reflexivity|].
  exact (held_nowhere_removeFile _ _ _ _ Hheld).
Qed.

(** C9 does not hold of every file in the tree: after the calls of [stale_name_calls] the file is
    held by [/] under the key [a] while its name is [b]; [moveFile('a', '/')]
    moves it to the directory that is its parent, returns, and the file is
    still held by [/] under [a]. *)
Lemma moveFile_to_parent_keeps_stale_entry :
  let st := st_stale_name in
  reachable st /\
  _getTargetFile st "a" = Ret (Some 0) /\
  _getTargetDirectory st "/" = Ret (Some (file_parent (file_at st 0))) /\
  fst (moveFile "a" "/" st) = Ret tt /\
  map_get "a" (filesByName (dir_at (snd (moveFile "a" "/" st)) 0)) = Some 0 /\
  ~ held_nowhere (snd (moveFile "a" "/" st)) 0.
Proof.
  simpl. split; [apply reachable_run_all; apply reachable_new|].
  repeat split; try reflexivity.
  intros H. apply (H 0 "a"). reflexivity.
Qed.

(** C9, amended: for every file held by its parent directory under its own
    name and by no other collection, [moveFile] with a source path that
    resolves to the file and a target path that resolves to that parent, and
    [renameFile] with the current name of the file as the new name, return
    and leave the file in no file collection at all. *)
Theorem file_onto_itself_is_removed st path target f :
  reachable st ->
  _getTargetFile st path = Ret (Some f) ->
  (forall d k, d < length (directories st) ->
     map_get k (filesByName (dir_at st d)) = Some f ->
     d = file_parent (file_at st f) /\ k = file_name (file_at st f)) ->
  (_getTargetDirectory st target = Ret (Some (file_parent (file_at st f))) ->
   fst (moveFile path target st) = Ret tt /\
   held_nowhere (snd (moveFile path target st)) f) /\
  (fst (renameFile path (file_name (file_at st f)) st) = Ret tt /\
   held_nowhere (snd (renameFile path (file_name (file_at st f)) st)) f).
Proof.
  intros Hr Hf Honly. pose proof (reachable_Inv st Hr) as HI.
  destruct (_getTargetFile_found st path f HI Hf) as (d0 & Hd0 & Hg).
  destruct (Honly d0 _ Hd0 Hg) as [Hd Hk]. subst d0. rewrite Hk in Hg.
  pose proof (_getTargetFile_valid st path f HI Hf) as Hfv.
  split.
  - intros Ht. eapply moveFile_to_parent; eauto.
  - eapply renameFile_to_own_name; eauto.
Qed.

Lemma file_onto_itself_is_removed_witness :
  (fst (moveFile "a" "/" st_file_and_directory) = Ret tt /\
   held_nowhere (snd (moveFile "a" "/" st_file_and_directory)) 0) /\
  (fst (renameFile "a" "a" st_file_and_directory) = Ret tt /\
   held_nowhere (snd (renameFile "a" "a" st_file_and_directory)) 0).
Proof.
  destruct (file_onto_itself_is_removed st_file_and_directory "a" "/" 0)
    as [Hmove Hrename].
  - apply reachable_run_all. apply reachable_new.
  - reflexivity.
  - change (file_at st_file_and_directory 0) with (mkFile 0 "a" None None).
    intros [|[|d]] k Hd.
    + change (dir_at st_file_and_directory 0)
        with (mkDirectory None "/" [("a", 0)] [("b", 1)]).
      simpl. destruct (str_eqb k "a") eqn:E; [|discriminate].
      apply str_eqb_eq in E. intros _. split; [reflexivity|exact E].
    + change (dir_at st_file_and_directory 1)
        with (mkDirectory (Some 0) "b" [] []).
      simpl. discriminate.
    + change (length (directories st_file_and_directory)) with 2 in Hd. lia.
  - split; [apply Hmove; reflexivity|exact Hrename].
Defined.

(** ** Paths made of plain segments *)

Lemma plain_inv s :
  plain s = true -> s <> "" /\ s <> "." /\ s <> ".." /\ no_slash s = true.
Proof.
  unfold plain, nonempty. intros H.
  apply andb_true_iff in H as [H H4].
  apply andb_true_iff in H as [H H3].
  apply andb_true_iff in H as [H1 H2].
  apply negb_true_iff in H1, H2, H3.
  apply str_eqb_neq in H1, H2, H3. auto.
Qed.

Lemma plain_nonempty s : plain s = true -> nonempty s = true.
Proof.
  unfold plain. intros H.
  apply andb_true_iff in H as [H _].
  apply andb_true_iff in H as [H _].
  apply andb_true_iff in H as [H _]. exact H.
Qed.

Lemma slash_append s : "/" ++ s = String "/" s.
Proof. reflexivity. Qed.

Lemma append_assoc (a b c : string) : (a ++ b) ++ c = a ++ b ++ c.
Proof. induction a as [|x a IH]; simpl; [reflexivity|rewrite IH; reflexivity]. Qed.

Lemma split_slash_no_slash a b :
  no_slash a = true -> split_slash (a ++ String "/" b) = a :: split_slash b.
Proof.
  induction a as [|c a IH]; simpl; intros H; [reflexivity|].
  apply andb_true_iff in H as [Hc Ha]. apply negb_true_iff in Hc.
  rewrite Hc, (IH Ha). reflexivity.
Qed.

Lemma split_slash_single a : no_slash a = true -> split_slash a = [a].
Proof.
  induction a as [|c a IH]; simpl; intros H; [reflexivity|].
  apply andb_true_iff in H as [Hc Ha]. apply negb_true_iff in Hc.
  rewrite Hc, (IH Ha). reflexivity.
Qed.

Lemma concat_cons2 sep (x y : string) l :
  String.concat sep (x :: y :: l) = x ++ sep ++ String.concat sep (y :: l).
Proof. reflexivity. Qed.

Lemma split_slash_concat segs :
  segs <> [] -> Forall (fun s => no_slash s = true) segs ->
  split_slash (String.concat "/" segs) = segs.
Proof.
  induction segs as [|x [|y l] IH]; intros Hne HF; [congruence| |].
  - simpl. apply split_slash_single. inversion HF; assumption.
  - rewrite concat_cons2, slash_append.
    inversion HF as [|? ? Hx Hl]; subst.
    rewrite split_slash_no_slash by exact Hx.
    rewrite IH; [reflexivity|discriminate|exact Hl].
Qed.

Lemma concat_snoc sep segs (s : string) :
  segs <> [] ->
  String.concat sep (segs ++ [s])%list = String.concat sep segs ++ sep ++ s.
Proof.
  induction segs as [|x [|y l] IH]; intros Hne; [congruence|reflexivity|].
  change ((x :: y :: l) ++ [s])%list with (x :: y :: (l ++ [s]))%list.
  rewrite !concat_cons2.
  change (y :: (l ++ [s]))%list with ((y :: l) ++ [s])%list.
  rewrite IH by discriminate.
  rewrite !append_assoc. reflexivity.
Qed.

Lemma concat_nonempty sep x l : x <> "" -> String.concat sep (x :: l) <> "".
Proof.
  intros Hx. destruct l as [|y l]; simpl; [exact Hx|].
  destruct x; [congruence|]. simpl. discriminate.
Qed.

Lemma ends_with_slash_append a s :
  s <> "" -> ends_with_slash (a ++ s) = ends_with_slash s.
Proof.
  intros Hs. induction a as [|c a IH]; [reflexivity|].
  change (String c a ++ s) with (String c (a ++ s)).
  simpl. destruct (a ++ s) eqn:E.
  - destruct a; simpl in E; [congruence|discriminate].
  - exact IH.
Qed.

Lemma ends_with_slash_no_slash s : no_slash s = true -> ends_with_slash s = false.
Proof.
  induction s as [|c s IH]; simpl; intros H; [reflexivity|].
  apply andb_true_iff in H as [Hc Hs]. apply negb_true_iff in Hc.
  destruct s; [exact Hc|apply IH; exact Hs].
Qed.

Lemma ends_with_slash_plain a s : plain s = true -> ends_with_slash (a ++ s) = false.
Proof.
  intros H. apply plain_inv in H as (H1 & _ & _ & H4).
  rewrite ends_with_slash_append by exact H1.
  apply ends_with_slash_no_slash. exact H4.
Qed.

Lemma push_segment_plain allow res s :
  plain s = true -> pathUtils.push_segment allow res s = s :: res.
Proof.
  intros H. apply plain_inv in H as (H1 & H2 & H3 & _).
  apply str_eqb_neq in H1, H2, H3.
  unfold pathUtils.push_segment. rewrite H1, H2, H3. reflexivity.
Qed.

(** Empty segments are dropped and plain ones kept. *)
Lemma fold_push_segment allow l res :
  Forall (fun s => s = "" \/ plain s = true) l ->
  fold_left (pathUtils.push_segment allow) l res
  = (rev (filter (fun s => nonempty s = true) l) ++ res)%list.
Proof.
  intros HF. revert res. induction HF as [|s l Hs _ IH]; intros res; [reflexivity|].
  simpl fold_left. rewrite IH. destruct Hs as [->|Hs].
  - reflexivity.
  - rewrite push_segment_plain by exact Hs.
    rewrite filter_cons_True by (apply plain_nonempty; exact Hs).
    simpl. rewrite <- app_assoc. reflexivity.
Qed.

Lemma filter_plain l :
  Forall (fun s => plain s = true) l -> filter (fun s => nonempty s = true) l = l.
Proof.
  induction 1 as [|s l Hs _ IH]; [reflexivity|].
  rewrite filter_cons_True by (apply plain_nonempty; exact Hs).
  rewrite IH. reflexivity.
Qed.

(** [normalize] of a path [/x] whose segments are empty or plain. *)
Lemma normalize_abs x l :
  Forall (fun s => s = "" \/ plain s = true) (split_slash x) ->
  filter (fun s => nonempty s = true) (split_slash x) = l ->
  l <> [] -> Forall (fun s => plain s = true) l ->
  ends_with_slash (String "/" x) = false ->
  pathUtils.normalize (String "/" x) = abs_path l.
Proof.
  intros HF Hl Hne Hplain Hend. unfold pathUtils.normalize.
  change (str_eqb (String "/" x) "") with false. cbv iota.
  change (starts_with_slash (String "/" x)) with true.
  cbv zeta. rewrite Hend. simpl negb.
  unfold pathUtils.normalizeString.
  change (split_slash (String "/" x)) with ("" :: split_slash x).
  rewrite fold_push_segment by (constructor; [left; reflexivity|exact HF]).
  rewrite app_nil_r, rev_involutive.
  change (filter (fun s => nonempty s = true) ("" :: split_slash x))
    with (filter (fun s => nonempty s = true) (split_slash x)).
  rewrite Hl.
  destruct l as [|s l']; [congruence|].
  assert (Hs : String.concat "/" (s :: l') <> "").
  { apply concat_nonempty. inversion Hplain as [|? ? Hp _]; subst.
    apply plain_inv in Hp. tauto. }
  apply str_eqb_neq in Hs. rewrite Hs. reflexivity.
Qed.

Lemma Forall_plain_no_slash l :
  Forall (fun s => plain s = true) l -> Forall (fun s => no_slash s = true) l.
Proof.
  intros HF. eapply Forall_impl; [exact HF|].
  intros s H. apply plain_inv in H. tauto.
Qed.

Lemma Forall_plain_or l :
  Forall (fun s => plain s = true) l ->
  Forall (fun s => s = "" \/ plain s = true) l.
Proof. intros HF. eapply Forall_impl; [exact HF|]. intros s H. right. exact H. Qed.

Lemma Forall_plain_snoc l s :
  Forall (fun s => plain s = true) l -> plain s = true ->
  Forall (fun s => plain s = true) (l ++ [s])%list.
Proof. intros Hl Hs. apply Forall_app. split; [exact Hl|repeat constructor; exact Hs]. Qed.

Lemma abs_path_snoc segs s :
  segs <> [] -> abs_path (segs ++ [s])%list = abs_path segs ++ "/" ++ s.
Proof.
  intros Hne. unfold abs_path. rewrite concat_snoc by exact Hne.
  rewrite append_assoc. reflexivity.
Qed.

(** The path of a child: [normalize(path(parent) + '/' + name)]. *)
Lemma normalize_child segs s :
  Forall (fun s => plain s = true) segs -> plain s = true ->
  pathUtils.normalize (abs_path segs ++ "/" ++ s) = abs_path (segs ++ [s])%list.
Proof.
  intros Hsegs Hs.
  assert (Hall := Forall_plain_snoc segs s Hsegs Hs).
  assert (Hne : (segs ++ [s])%list <> []) by (destruct segs; discriminate).
  destruct segs as [|x segs'].
  - change (abs_path [] ++ "/" ++ s) with (String "/" (String "/" s)).
    assert (Hsplit : split_slash (String "/" s) = [""; s]).
    { change (split_slash (String "/" s)) with ("" :: split_slash s).
      rewrite split_slash_single; [reflexivity|].
      apply plain_inv in Hs. tauto. }
    apply normalize_abs.
    + rewrite Hsplit.
      constructor; [left; reflexivity|constructor; [right; exact Hs|constructor]].
    + rewrite Hsplit. apply (filter_plain [s]). exact Hall.
    + exact Hne.
    + exact Hall.
    + change (String "/" (String "/" s)) with ("//" ++ s).
      apply ends_with_slash_plain. exact Hs.
  - rewrite <- abs_path_snoc by discriminate.
    assert (Hsplit : split_slash (String.concat "/" ((x :: segs') ++ [s])%list)
                     = ((x :: segs') ++ [s])%list).
    { apply split_slash_concat; [exact Hne|].
      apply Forall_plain_no_slash. exact Hall. }
    apply normalize_abs.
    + rewrite Hsplit. apply Forall_plain_or. exact Hall.
    + rewrite Hsplit. apply filter_plain. exact Hall.
    + exact Hne.
    + exact Hall.
    + change (String "/" (String.concat "/" ((x :: segs') ++ [s])%list))
        with (abs_path ((x :: segs') ++ [s])%list).
      rewrite abs_path_snoc by discriminate.
      rewrite <- append_assoc. apply ends_with_slash_plain. exact Hs.
Qed.

(** Such a path is its own normal form. *)
Lemma normalize_abs_path segs s :
  Forall (fun s => plain s = true) segs -> plain s = true ->
  pathUtils.normalize (abs_path (segs ++ [s])%list) = abs_path (segs ++ [s])%list.
Proof.
  intros Hsegs Hs.
  assert (Hall := Forall_plain_snoc segs s Hsegs Hs).
  assert (Hne : (segs ++ [s])%list <> []) by (destruct segs; discriminate).
  assert (Hsplit : split_slash (String.concat "/" (segs ++ [s])%list)
                   = (segs ++ [s])%list).
  { apply split_slash_concat; [exact Hne|].
    apply Forall_plain_no_slash. exact Hall. }
  apply normalize_abs.
  - rewrite Hsplit. apply Forall_plain_or. exact Hall.
  - rewrite Hsplit. apply filter_plain. exact Hall.
  - exact Hne.
  - exact Hall.
  - change (String "/" (String.concat "/" (segs ++ [s])%list))
      with (abs_path (segs ++ [s])%list).
    destruct segs as [|x segs'].
    + change (abs_path ([] ++ [s])%list) with ("/" ++ s).
      apply ends_with_slash_plain. exact Hs.
    + rewrite abs_path_snoc by discriminate.
      rewrite <- append_assoc. apply ends_with_slash_plain. exact Hs.
Qed.

Lemma split_slash_abs_path segs :
  Forall (fun s => plain s = true) segs ->
  filter (fun s => nonempty s = true) (split_slash (abs_path segs)) = segs.
Proof.
  intros H. change (split_slash (abs_path segs))
    with ("" :: split_slash (String.concat "/" segs)).
  change (filter (fun s => nonempty s = true)
            ("" :: split_slash (String.concat "/" segs)))
    with (filter (fun s => nonempty s = true)
            (split_slash (String.concat "/" segs))).
  destruct segs as [|x l]; [reflexivity|].
  rewrite split_slash_concat;
    [apply filter_plain; exact H|discriminate|apply Forall_plain_no_slash; exact H].
Qed.

Lemma rev_segments_abs_path segs s :
  Forall (fun s => plain s = true) segs -> plain s = true ->
  pathUtils.rev_segments (abs_path (segs ++ [s])%list)
  = (s :: rev segs ++ [""])%list.
Proof.
  intros Hsegs Hs. unfold pathUtils.rev_segments.
  change (split_slash (abs_path (segs ++ [s])%list))
    with ("" :: split_slash (String.concat "/" (segs ++ [s])%list)).
  rewrite split_slash_concat.
  - change (rev ("" :: (segs ++ [s])%list)) with (rev (segs ++ [s]) ++ [""])%list.
    rewrite rev_unit. simpl.
    apply plain_inv in Hs as (H1 & _). apply str_eqb_neq in H1. rewrite H1.
    reflexivity.
  - destruct segs; discriminate.
  - apply Forall_plain_no_slash. apply Forall_plain_snoc; assumption.
Qed.

Lemma basename_abs_path segs s :
  Forall (fun s => plain s = true) segs -> plain s = true ->
  pathUtils.basename (abs_path (segs ++ [s])%list) = s.
Proof.
  intros Hsegs Hs. unfold pathUtils.basename.
  rewrite rev_segments_abs_path by assumption. reflexivity.
Qed.

Lemma dirname_abs_path segs s :
  Forall (fun s => plain s = true) segs -> plain s = true ->
  pathUtils.dirname (abs_path (segs ++ [s])%list) = abs_path segs.
Proof.
  intros Hsegs Hs. unfold pathUtils.dirname.
  change (str_eqb (abs_path (segs ++ [s])%list) "") with false. cbv iota.
  change (starts_with_slash (abs_path (segs ++ [s])%list)) with true.
  cbv zeta. rewrite rev_segments_abs_path by assumption.
  destruct (rev segs ++ [""])%list as [|b bs] eqn:E.
  { destruct (rev segs); discriminate. }
  rewrite <- E. rewrite rev_app_distr, rev_involutive.
  change (rev [""] ++ segs)%list with ("" :: segs).
  destruct segs as [|x l]; [reflexivity|].
  change (String.concat "/" ("" :: x :: l)) with (abs_path (x :: l)).
  change (abs_path (x :: l)) with (String "/" (String.concat "/" (x :: l))).
  change (str_eqb (String "/" (String.concat "/" (x :: l))) "") with false.
  cbv iota.
  assert (Hx : String.concat "/" (x :: l) <> "").
  { apply concat_nonempty. inversion Hsegs as [|? ? Hp _]; subst.
    apply plain_inv in Hp. tauto. }
  destruct (String.concat "/" (x :: l)) eqn:Ec; [congruence|]. reflexivity.
Qed.

Lemma includes_plain s :
  plain s = true ->
  includes MOVE_UP_PATHS s = false /\ includes CURRENT_DIR_PATHS s = false.
Proof.
  intros H. apply plain_inv in H as (_ & H2 & H3 & H4).
  unfold includes, MOVE_UP_PATHS, CURRENT_DIR_PATHS. simpl.
  apply str_eqb_neq in H2, H3. rewrite H2, H3.
  assert (Hup : str_eqb s "../" = false).
  { apply str_eqb_neq. intros ->. discriminate. }
  assert (Hcur : str_eqb s "./" = false).
  { apply str_eqb_neq. intros ->. discriminate. }
  rewrite Hup, Hcur. split; reflexivity.
Qed.

Lemma includes_abs_path x :
  includes MOVE_UP_PATHS (String "/" x) = false /\
  includes CURRENT_DIR_PATHS (String "/" x) = false.
Proof. split; reflexivity. Qed.

(** ** Walking the tree *)

Lemma tree_dir_plain st root d segs :
  tree_dir st root d segs -> Forall (fun s => plain s = true) segs.
Proof.
  induction 1 as [|p segs s c _ IH _ _ _ Hs]; [constructor|].
  apply Forall_plain_snoc; assumption.
Qed.

Lemma walk_app st a l1 l2 :
  walk st a (l1 ++ l2)
  = match walk st a l1 with Some b => walk st b l2 | None => None end.
Proof.
  revert a. induction l1 as [|x l1 IH]; intros a; simpl; [reflexivity|].
  destruct (includes MOVE_UP_PATHS x).
  - destruct (dir_parent (dir_at st a)); apply IH.
  - destruct (includes CURRENT_DIR_PATHS x); [apply IH|].
    destruct (map_get x (directoriesByName (dir_at st a))); [apply IH|reflexivity].
Qed.

Lemma walk_tree st root d segs :
  tree_dir st root d segs -> walk st root segs = Some d.
Proof.
  induction 1 as [|p segs s c _ IH Hget _ _ Hs]; [reflexivity|].
  rewrite walk_app, IH. simpl.
  destruct (includes_plain s Hs) as [-> ->]. rewrite Hget. reflexivity.
Qed.

(** ** The depth of a directory is below the number of directories *)

Lemma dir_at_parent_valid st c p :
  dir_parent (dir_at st c) = Some p -> c < length (directories st).
Proof.
  intros H. destruct (Nat.lt_ge_cases c (length (directories st))) as [Hlt|Hge];
    [exact Hlt|].
  rewrite dir_at_default in H by exact Hge. discriminate.
Qed.

Lemma ancestor_unique st root k1 k2 x :
  dir_parent (dir_at st root) = None ->
  ancestor st k1 x = Some root -> ancestor st k2 x = Some root -> k1 = k2.
Proof.
  intros Hroot. revert x k2. induction k1 as [|k1 IH]; intros x k2; simpl.
  - intros [= ->]. destruct k2 as [|k2]; [reflexivity|].
    simpl. rewrite Hroot. discriminate.
  - destruct (dir_parent (dir_at st x)) as [p|] eqn:Ep; [|discriminate].
    intros H1. destruct k2 as [|k2]; simpl.
    + intros [= ->]. congruence.
    + rewrite Ep. intros H2. f_equal. eapply IH; eauto.
Qed.

Lemma tree_dir_ancestor st root d segs :
  tree_dir st root d segs -> ancestor st (length segs) d = Some root.
Proof.
  induction 1 as [|p segs s c _ IH _ _ Hpar _]; [reflexivity|].
  rewrite length_app, Nat.add_1_r. simpl. rewrite Hpar. exact IH.
Qed.

(** The directories on a chain of parents that ends at a directory without
    parent are all different, so the chain is shorter than the store. *)
Lemma chain_list st root :
  dir_parent (dir_at st root) = None -> root < length (directories st) ->
  forall k d, ancestor st k d = Some root ->
  exists l, length l = S k /\ NoDup l /\
    forall x, In x l ->
      x < length (directories st) /\
      exists j, j <= k /\ ancestor st j x = Some root.
Proof.
  intros Hroot Hvalid. induction k as [|k IH]; intros d Hanc.
  - injection Hanc as ->. exists [root]. split; [reflexivity|]. split.
    + apply NoDup_singleton.
    + intros x [<-|[]]. split; [exact Hvalid|]. exists 0. split; [lia|reflexivity].
  - pose proof Hanc as Hd. simpl in Hanc.
    destruct (dir_parent (dir_at st d)) as [p|] eqn:Hpar; [|discriminate].
    destruct (IH p Hanc) as (l & Hlen & Hnd & Hall).
    exists (d :: l). split; [simpl; lia|]. split.
    + apply NoDup_cons. split; [|exact Hnd]. rewrite list_elem_of_In. intros Hin.
      destruct (Hall d Hin) as (_ & j & Hj & Hanc').
      pose proof (ancestor_unique st root _ _ d Hroot Hanc' Hd). lia.
    + intros x [<-|Hin].
      * split; [eapply dir_at_parent_valid; eauto|].
        exists (S k). split; [lia|exact Hd].
      * destruct (Hall x Hin) as (Hx & j & Hj & Hanc').
        split; [exact Hx|]. exists j. split; [lia|exact Hanc'].
Qed.

Lemma chain_bound st root k d :
  dir_parent (dir_at st root) = None -> root < length (directories st) ->
  ancestor st k d = Some root -> k < length (directories st).
Proof.
  intros Hroot Hvalid Hanc.
  destruct (chain_list st root Hroot Hvalid k d Hanc) as (l & Hlen & Hnd & Hall).
  assert (Hle : length l <= length (seq 0 (length (directories st)))).
  { apply List.NoDup_incl_length; [apply NoDup_ListNoDup; exact Hnd|].
    intros x Hx. apply in_seq. destruct (Hall x Hx) as [Hlt _]. lia. }
  rewrite length_seq in Hle. lia.
Qed.

Lemma tree_dir_depth st root d segs :
  tree_dir st root d segs ->
  dir_parent (dir_at st root) = None -> root < length (directories st) ->
  length segs < length (directories st).
Proof.
  intros Ht Hroot Hvalid. eapply chain_bound; eauto.
  apply tree_dir_ancestor. exact Ht.
Qed.

(** ** The bound on the loop of [_getRoot] loses nothing

    When the loop ends at all, it ends within as many steps as there are
    directory objects: where [_getRoot] is [Diverge], no number of steps
    is enough. *)

Lemma getRoot_loop_ancestor n st d r :
  getRoot_loop n st d = Ret r ->
  exists k, k < n /\ ancestor st k d = Some r.
Proof.
  revert d. induction n as [|n IH]; simpl; intros d; [discriminate|].
  destruct (dir_parent (dir_at st d)) as [p|] eqn:E.
  - intros H. destruct (IH p H) as (k & Hk & Hanc).
    exists (S k). split; [lia|]. simpl. rewrite E. exact Hanc.
  - intros [= <-]. exists 0. split; [lia|reflexivity].
Qed.

Lemma ancestor_getRoot_loop st r k :
  dir_parent (dir_at st r) = None ->
  forall d n, ancestor st k d = Some r -> k < n -> getRoot_loop n st d = Ret r.
Proof.
  intros Hr. induction k as [|k IH]; intros d n Hanc Hn.
  - injection Hanc as ->. destruct n as [|n]; [lia|]. simpl. rewrite Hr. reflexivity.
  - destruct n as [|n]; [lia|]. simpl in *.
    destruct (dir_parent (dir_at st d)) as [p|]; [|discriminate].
    apply IH; [exact Hanc|lia].
Qed.

Lemma _getRoot_enough_fuel st n r :
  Inv st -> getRoot_loop n st (currentDir st) = Ret r -> _getRoot st = Ret r.
Proof.
  intros HI H. pose proof (getRoot_loop_root _ _ _ _ H) as Hr.
  assert (Hv : r < length (directories st)).
  { eapply getRoot_loop_valid; [exact HI| |exact H]. apply HI. }
  destruct (getRoot_loop_ancestor _ _ _ _ H) as (k & _ & Hanc).
  unfold _getRoot. eapply ancestor_getRoot_loop; eauto.
  eapply chain_bound; eauto.
Qed.

(** Likewise for the recursion of [getPath]. *)

Lemma getPath_rec_ancestor n st d p :
  Directory_getPath_rec n st d = Ret p ->
  exists k r, k < n /\ ancestor st k d = Some r /\ dir_parent (dir_at st r) = None.
Proof.
  revert d p. induction n as [|n IH]; simpl; intros d p; [discriminate|].
  destruct (dir_parent (dir_at st d)) as [q|] eqn:E.
  - destruct (Directory_getPath_rec n st q) as [pp|e|] eqn:Eq; simpl; try discriminate.
    intros _. destruct (IH q pp Eq) as (k & r & Hk & Hanc & Hr).
    exists (S k), r. split; [lia|]. split; [|exact Hr]. simpl. rewrite E. exact Hanc.
  - intros _. exists 0, d. split; [lia|]. split; [reflexivity|exact E].
Qed.

Lemma getPath_rec_more_fuel n m st d p :
  Directory_getPath_rec n st d = Ret p -> n <= m ->
  Directory_getPath_rec m st d = Ret p.
Proof.
  revert m d p. induction n as [|n IH]; simpl; intros m d p; [discriminate|].
  intros H Hle. destruct m as [|m]; [lia|]. simpl.
  destruct (dir_parent (dir_at st d)) as [q|]; [|exact H].
  destruct (Directory_getPath_rec n st q) as [pp|e|] eqn:Eq; simpl in H;
    try discriminate.
  rewrite (IH m q pp Eq) by lia. exact H.
Qed.

Lemma ancestor_getPath_rec st r k :
  dir_parent (dir_at st r) = None ->
  forall d n, ancestor st k d = Some r -> k < n ->
  exists p, Directory_getPath_rec n st d = Ret p.
Proof.
  intros Hr. induction k as [|k IH]; intros d n Hanc Hn.
  - injection Hanc as ->. destruct n as [|n]; [lia|]. simpl. rewrite Hr. eauto.
  - destruct n as [|n]; [lia|]. simpl in *.
    destruct (dir_parent (dir_at st d)) as [q|]; [|discriminate].
    destruct (IH q n Hanc) as (pp & ->); [lia|]. simpl. eauto.
Qed.

Lemma ancestor_valid st k d r :
  Inv st -> d < length (directories st) -> ancestor st k d = Some r ->
  r < length (directories st).
Proof.
  intros HI. revert d. induction k as [|k IH]; simpl; intros d Hd.
  - intros [= <-]. exact Hd.
  - destruct (dir_parent (dir_at st d)) as [q|] eqn:E; [|discriminate].
    apply IH. destruct (Inv_dir_at st d HI) as (H1 & _). auto.
Qed.

Lemma Directory_getPath_enough_fuel st n d p :
  Inv st -> d < length (directories st) ->
  Directory_getPath_rec n st d = Ret p -> Directory_getPath st d = Ret p.
Proof.
  intros HI Hd H.
  destruct (getPath_rec_ancestor _ _ _ _ H) as (k & r & _ & Hanc & Hr).
  assert (Hk : k < length (directories st)).
  { eapply chain_bound; eauto. eapply ancestor_valid; eauto. }
  destruct (ancestor_getPath_rec st r k Hr d _ Hanc Hk) as (p' & Hp').
  unfold Directory_getPath. rewrite Hp'. f_equal.
  pose proof (getPath_rec_more_fuel _ (Nat.max n (length (directories st))) _ _ _ H
                ltac:(lia)) as H1.
  pose proof (getPath_rec_more_fuel _ (Nat.max n (length (directories st))) _ _ _ Hp'
                ltac:(lia)) as H2.
  congruence.
Qed.

(** ** [getPath] and [_getTarget] on the nodes of the tree *)

Lemma getPath_rec_tree st root d segs :
  tree_dir st root d segs ->
  dir_parent (dir_at st root) = None -> dir_name (dir_at st root) = ROOT_PATH ->
  forall fuel, length segs < fuel ->
  Directory_getPath_rec fuel st d = Ret (abs_path segs).
Proof.
  intros Ht Hroot Hname.
  induction Ht as [|p segs s c Hp IH Hget Hn Hpar Hs]; intros fuel Hfuel.
  - destruct fuel as [|n]; [lia|]. simpl. rewrite Hroot, Hname. reflexivity.
  - rewrite length_app, Nat.add_1_r in Hfuel.
    destruct fuel as [|n]; [lia|]. cbn [Directory_getPath_rec]. rewrite Hpar.
    rewrite IH by lia. cbn [rbind]. rewrite Hn.
    rewrite normalize_child; [reflexivity| |exact Hs].
    eapply tree_dir_plain; eauto.
Qed.

Lemma Directory_getPath_tree st root d segs :
  Inv st -> _getRoot st = Ret root -> tree_dir st root d segs ->
  Directory_getPath st d = Ret (abs_path segs).
Proof.
  intros HI Hroot Ht. unfold Directory_getPath.
  assert (Hnone : dir_parent (dir_at st root) = None)
    by (eapply getRoot_loop_root; exact Hroot).
  eapply getPath_rec_tree; eauto.
  - destruct (Inv_dir_at st root HI) as (_ & H2 & _). auto.
  - eapply tree_dir_depth; eauto. eapply _getRoot_valid; eauto.
Qed.

Lemma _getTarget_abs_path st root segs s type :
  Forall (fun s => plain s = true) segs -> plain s = true ->
  _getRoot st = Ret root ->
  _getTarget st (abs_path (segs ++ [s])%list) type
  = match walk st root segs with
    | None => Ret None
    | Some c =>
        match type with
        | DIRECTORY => Ret (map_get s (directoriesByName (dir_at st c)))
        | FILE => Ret (map_get s (filesByName (dir_at st c)))
        end
    end.
Proof.
  intros Hsegs Hs Hroot. unfold _getTarget.
  rewrite normalize_abs_path by assumption.
  rewrite dirname_abs_path, basename_abs_path by assumption.
  rewrite split_slash_abs_path by assumption.
  change (pathUtils.isAbsolute (abs_path (segs ++ [s])%list)) with true.
  cbv iota. rewrite Hroot. simpl rbind.
  assert (Hnot : str_eqb (abs_path (segs ++ [s])%list) ROOT_PATH = false).
  { apply str_eqb_neq. unfold abs_path, ROOT_PATH. rewrite slash_append.
    intros [= H]. destruct segs as [|x l].
    - simpl in H. apply plain_inv in Hs. tauto.
    - revert H. apply concat_nonempty.
      inversion Hsegs as [|? ? Hp _]; subst. apply plain_inv in Hp. tauto. }
  destruct type; [|reflexivity].
  change (includes CURRENT_DIR_PATHS (abs_path (segs ++ [s])%list)) with false.
  change (includes MOVE_UP_PATHS (abs_path (segs ++ [s])%list)) with false.
  cbv iota. rewrite Hnot. reflexivity.
Qed.

(** ** The path round trip *)

(** C5 does not hold of every node: [makeDirectory('.')] creates a directory named [.]
    in the root; its path is [/], which resolves to the root and not to
    it. *)
Lemma path_of_dot_directory_resolves_to_root :
  let st := st_dot_directory in
  reachable st /\
  _getRoot st = Ret 0 /\
  map_get "." (directoriesByName (dir_at st 0)) = Some 1 /\
  Directory_getPath st 1 = Ret "/" /\
  _getTarget st "/" DIRECTORY = Ret (Some 0) /\
  (p <-r Directory_getPath st 1; _getTarget st p DIRECTORY) <> Ret (Some 1).
Proof.
  simpl. split; [apply reachable_run_all; apply reachable_new|].
  repeat split; try reflexivity. vm_compute. discriminate.
Qed.

(** C5, amended: in a reachable state, let the root be the directory
    without parent that the parent links of the current directory lead to.
    For every directory or file reached from the root through the child
    collections, every node on the way (the node itself included) being held
    under its own name by the directory that is its parent, and all these
    names being plain (not empty, neither [.] nor [..], without [/]),
    resolving the node's [getPath()] with the node's kind returns the
    node. *)
Theorem path_round_trip st root :
  reachable st -> _getRoot st = Ret root ->
  (forall d segs, tree_dir st root d segs ->
     (p <-r Directory_getPath st d; _getTarget st p DIRECTORY) = Ret (Some d)) /\
  (forall f segs, tree_file st root f segs ->
     (p <-r File_getPath st f; _getTarget st p FILE) = Ret (Some f)).
Proof.
  intros Hr Hroot. pose proof (reachable_Inv st Hr) as HI. split.
  - intros d segs Ht.
    rewrite (Directory_getPath_tree st root d segs HI Hroot Ht). cbn [rbind].
    destruct Ht as [|p segs s c Hp Hget Hname Hpar Hs].
    + change (_getTarget st (abs_path []) DIRECTORY)
        with (r <-r _getRoot st; Ret (Some r)).
      rewrite Hroot. reflexivity.
    + rewrite (_getTarget_abs_path st root) by
        (eauto using tree_dir_plain).
      rewrite (walk_tree st root p segs Hp), Hget. reflexivity.
  - intros f segs Ht. destruct Ht as [p segs s f Hp Hget Hname Hpar Hs].
    unfold File_getPath. rewrite Hpar, Hname.
    rewrite (Directory_getPath_tree st root p segs HI Hroot Hp). cbn [rbind].
    rewrite normalize_child by (eauto using tree_dir_plain).
    rewrite (_getTarget_abs_path st root) by (eauto using tree_dir_plain).
    rewrite (walk_tree st root p segs Hp), Hget. reflexivity.
Qed.

Lemma path_round_trip_witness :
  (p <-r Directory_getPath st_foo 2; _getTarget st_foo p DIRECTORY) = Ret (Some 2) /\
  (p <-r File_getPath st_foo 0; _getTarget st_foo p FILE) = Ret (Some 0).
Proof.
  assert (H1 : tree_dir st_foo 0 1 ["foo"]).
  { apply (tree_child st_foo 0 0 [] "foo" 1); try reflexivity. constructor. }
  assert (H2 : tree_dir st_foo 0 2 ["foo"; "bar"]).
  { apply (tree_child st_foo 0 1 ["foo"] "bar" 2); try reflexivity. exact H1. }
  assert (H3 : tree_file st_foo 0 0 ["foo"; "bar"; "foo"]).
  { apply (tree_file_in st_foo 0 2 ["foo"; "bar"] "foo" 0); try reflexivity.
    exact H2. }
  destruct (path_round_trip st_foo 0) as [Hdir Hfile].
  - apply reachable_run_all. apply reachable_new.
  - reflexivity.
  - split; [exact (Hdir 2 _ H2)|exact (Hfile 0 _ H3)].
Defined.

(** * Further properties of the operations *)

(** ** What the resolver reads

    [_getTarget] reads the current directory and, of the directories, their
    parents and child collections. *)

Lemma getRoot_loop_ext st1 st2 n d :
  (forall x, dir_parent (dir_at st1 x) = dir_parent (dir_at st2 x)) ->
  getRoot_loop n st1 d = getRoot_loop n st2 d.
Proof.
  intros H. revert d. induction n as [|n IH]; intros d; simpl; [reflexivity|].
  rewrite H. destruct (dir_parent (dir_at st2 d)); [apply IH|reflexivity].
Qed.

Lemma walk_ext st1 st2 d l :
  (forall x, dir_parent (dir_at st1 x) = dir_parent (dir_at st2 x)) ->
  (forall x, directoriesByName (dir_at st1 x) = directoriesByName (dir_at st2 x)) ->
  walk st1 d l = walk st2 d l.
Proof.
  intros Hp Hd. revert d. induction l as [|x l IH]; intros d; simpl; [reflexivity|].
  rewrite Hp, Hd.
  destruct (includes MOVE_UP_PATHS x).
  - destruct (dir_parent (dir_at st2 d)); apply IH.
  - destruct (includes CURRENT_DIR_PATHS x); [apply IH|].
    destruct (map_get x (directoriesByName (dir_at st2 d))); [apply IH|reflexivity].
Qed.

Lemma _getTarget_same_directories st1 st2 path type :
  directories st1 = directories st2 -> currentDir st1 = currentDir st2 ->
  _getTarget st1 path type = _getTarget st2 path type.
Proof.
  intros Hd Hc.
  assert (Hat : forall x, dir_at st1 x = dir_at st2 x).
  { intros x. unfold dir_at. rewrite Hd. reflexivity. }
  assert (Hroot : _getRoot st1 = _getRoot st2).
  { unfold _getRoot. rewrite Hd, Hc. apply getRoot_loop_ext.
    intros x. rewrite Hat. reflexivity. }
  unfold _getTarget. rewrite Hroot, Hc.
  assert (Hw : forall d l, walk st1 d l = walk st2 d l).
  { intros d l. apply walk_ext; intros x; rewrite Hat; reflexivity. }
  destruct type.
  - rewrite !Hat.
    destruct (includes CURRENT_DIR_PATHS _); [reflexivity|].
    destruct (str_eqb _ ROOT_PATH); [reflexivity|].
    destruct (includes MOVE_UP_PATHS _); [reflexivity|].
    destruct (if pathUtils.isAbsolute _ then _ else _) as [start|e|];
      simpl; try reflexivity.
    rewrite Hw. destruct (walk st2 start _); [|reflexivity].
    rewrite Hat. reflexivity.
  - destruct (if pathUtils.isAbsolute _ then _ else _) as [start|e|];
      simpl; try reflexivity.
    rewrite Hw. destruct (walk st2 start _); [|reflexivity].
    rewrite Hat. reflexivity.
Qed.

(** ** Calls that fail without a trace *)

(** X1: when [changeDirectory], [removeFile], [writeFile] or [moveFile] does
    not return (it throws, or the resolution of a path does not end), the
    state is the one before the call. *)
Theorem failed_call_leaves_state st :
  (forall path, fst (changeDirectory path st) <> Ret tt ->
                snd (changeDirectory path st) = st) /\
  (forall path, fst (removeFile path st) <> Ret tt ->
                snd (removeFile path st) = st) /\
  (forall path c, fst (writeFile path c st) <> Ret tt ->
                  snd (writeFile path c st) = st) /\
  (forall path target, fst (moveFile path target st) <> Ret tt ->
                       snd (moveFile path target st) = st).
Proof.
  repeat split.
  - intros path. unfold changeDirectory, bind, query.
    destruct (_getTargetDirectory st _) as [[d|]|e|]; simpl; try reflexivity.
    intros H. congruence.
  - intros path. unfold removeFile, bind, query.
    destruct (_getTargetFile st _) as [[f|]|e|]; simpl; try reflexivity.
    intros H. congruence.
  - intros path c. unfold writeFile, bind, query.
    destruct (_getTargetFile st _) as [[f|]|e|]; simpl; try reflexivity.
    destruct (_ >? _)%Z; simpl; [reflexivity|]. intros H. congruence.
  - intros path target. unfold moveFile, bind, query.
    destruct (_getTargetFile st _) as [[f|]|e|]; simpl; try reflexivity;
      destruct (_getTargetDirectory st _) as [[d|]|e'|]; simpl; try reflexivity.
    unfold Directory_addFile.
    destruct (Directory_hasDirectory _ _ _); simpl; [reflexivity|].
    intros H. congruence.
Qed.

Lemma failed_call_leaves_state_witness :
  snd (moveFile "a" "c" st_file_and_directory) = st_file_and_directory /\
  snd (writeFile "a" "xx" st_one_byte) = st_one_byte.
Proof.
  split.
  - apply (proj2 (proj2 (proj2 (failed_call_leaves_state st_file_and_directory)))).
    vm_compute. discriminate.
  - apply (proj1 (proj2 (proj2 (failed_call_leaves_state st_one_byte)))).
    vm_compute. discriminate.
Defined.

(** ** Writing and reading *)

Lemma writeFile_returns st path c :
  fst (writeFile path c st) = Ret tt ->
  exists f, _getTargetFile st path = Ret (Some f) /\
    (totalFileContentBytes st + byteLength c <= maxBytes st)%Z /\
    snd (writeFile path c st)
    = with_total (totalFileContentBytes st + byteLength c)%Z
        (upd_file f (set_content (Some c))
           (upd_file f (set_contentByteCount (Some (byteLength c))) st)).
Proof.
  unfold writeFile, bind, query.
  destruct (_getTargetFile st path) as [[f|]|e|]; simpl; try discriminate.
  destruct (_ >? _)%Z eqn:E; simpl; [discriminate|]. intros _.
  exists f. split; [reflexivity|]. split; [|reflexivity].
  destruct (Z.gtb_spec (totalFileContentBytes st + byteLength c) (maxBytes st));
    [discriminate|lia].
Qed.

(** X2: in a reachable state, after [writeFile(path, content)] has returned,
    [readFile(path)] returns [content]. *)
Theorem writeFile_then_readFile st path c :
  reachable st ->
  fst (writeFile path c st) = Ret tt ->
  readFile (snd (writeFile path c st)) path = Ret (Some c).
Proof.
  intros Hr Hw. pose proof (reachable_Inv st Hr) as HI.
  destruct (writeFile_returns st path c Hw) as (f & Hf & _ & ->).
  pose proof (_getTargetFile_valid st path f HI Hf) as Hv.
  unfold readFile, _getTargetFile.
  rewrite (_getTarget_same_directories _ st) by reflexivity.
  unfold _getTargetFile in Hf. rewrite Hf. simpl.
  unfold file_at. simpl.
  rewrite list_lookup_insert_eq by (rewrite length_insert; exact Hv).
  reflexivity.
Qed.

Lemma writeFile_then_readFile_witness :
  readFile (snd (writeFile "a" "hello" st_file_and_directory)) "a"
  = Ret (Some "hello").
Proof.
  apply (writeFile_then_readFile st_file_and_directory "a" "hello").
  - apply reachable_run_all. apply reachable_new.
  - reflexivity.
Defined.

(** X3: a [writeFile] that returns changes nothing but the content fields of
    the file it writes and the byte counter: the directories, the current
    directory and the capacity are the same, the file keeps its name and
    parent, and every other file object is as before. *)
Theorem writeFile_frame st path c f :
  _getTargetFile st path = Ret (Some f) ->
  fst (writeFile path c st) = Ret tt ->
  let st' := snd (writeFile path c st) in
  directories st' = directories st /\
  currentDir st' = currentDir st /\
  maxBytes st' = maxBytes st /\
  file_name (file_at st' f) = file_name (file_at st f) /\
  file_parent (file_at st' f) = file_parent (file_at st f) /\
  (forall f', f' <> f -> file_at st' f' = file_at st f').
Proof.
  intros Hf Hw. destruct (writeFile_returns st path c Hw) as (f0 & Hf0 & _ & Hst).
  assert (f0 = f) by congruence. subst f0.
  cbv zeta. rewrite Hst. repeat split.
  - change (file_name (file_at (upd_file f (set_content (Some c))
              (upd_file f (set_contentByteCount (Some (byteLength c))) st)) f)
            = file_name (file_at st f)).
    rewrite (file_at_upd_file_field file_name) by reflexivity.
    apply (file_at_upd_file_field file_name). reflexivity.
  - change (file_parent (file_at (upd_file f (set_content (Some c))
              (upd_file f (set_contentByteCount (Some (byteLength c))) st)) f)
            = file_parent (file_at st f)).
    rewrite (file_at_upd_file_field file_parent) by reflexivity.
    apply (file_at_upd_file_field file_parent). reflexivity.
  - intros f' Hne.
    change (file_at (upd_file f (set_content (Some c))
              (upd_file f (set_contentByteCount (Some (byteLength c))) st)) f'
            = file_at st f').
    rewrite !file_at_upd_file_ne by congruence. reflexivity.
Qed.

Lemma writeFile_frame_witness :
  directories (snd (writeFile "a" "hello" st_file_and_directory))
  = directories st_file_and_directory.
Proof.
  apply (writeFile_frame st_file_and_directory "a" "hello" 0); reflexivity.
Defined.

(** ** Distinct keys and consistent byte counts *)

Lemma map_has_cons_ne k k0 v0 m :
  str_eqb k k0 = false -> map_has k ((k0, v0) :: m) = map_has k m.
Proof. intros H. unfold map_has. simpl. rewrite H. reflexivity. Qed.

Lemma map_keys_set k v m :
  map_keys (map_set k v m)
  = if map_has k m then map_keys m else (map_keys m ++ [k])%list.
Proof.
  induction m as [|[k0 v0] m IH]; [reflexivity|]. simpl map_set.
  destruct (str_eqb k k0) eqn:E.
  - unfold map_has. simpl. rewrite E. apply str_eqb_eq in E. subst. reflexivity.
  - rewrite (map_has_cons_ne _ _ _ _ E). simpl. rewrite IH.
    destruct (map_has k m); reflexivity.
Qed.

Lemma NoDup_map_set k v m :
  NoDup (map_keys m) -> NoDup (map_keys (map_set k v m)).
Proof.
  intros H. rewrite map_keys_set. destruct (map_has k m) eqn:E; [exact H|].
  apply NoDup_app. split; [exact H|]. split; [|apply NoDup_singleton].
  intros x Hx Hk. apply list_elem_of_singleton in Hk. subst x.
  apply list_elem_of_In, map_has_keys in Hx. congruence.
Qed.

Lemma NoDup_map_delete k m :
  NoDup (map_keys m) -> NoDup (map_keys (map_delete k m)).
Proof.
  induction m as [|[k0 v0] m IH]; simpl; [intros H; exact H|].
  intros H. apply NoDup_cons in H as [Hk0 Hm].
  destruct (str_eqb k k0); [apply IH; exact Hm|].
  simpl. apply NoDup_cons. split; [|apply IH; exact Hm].
  intros Hin. apply Hk0. apply list_elem_of_In, map_has_keys in Hin.
  rewrite map_has_delete in Hin. apply andb_true_iff in Hin as [_ Hin].
  apply list_elem_of_In, map_has_keys. exact Hin.
Qed.

Lemma keys_distinct_default : keys_distinct (new_Directory None ROOT_PATH).
Proof. split; apply NoDup_nil_2. Qed.

Lemma Inv2_dir_at st d : Inv2 st -> keys_distinct (dir_at st d).
Proof.
  intros [HD _]. unfold dir_at.
  destruct (directories st !! d) as [o|] eqn:E; simpl.
  - eapply Forall_lookup_1; eauto.
  - apply keys_distinct_default.
Qed.

Lemma Inv2_file_at st f : Inv2 st -> content_consistent (file_at st f).
Proof.
  intros [_ HF]. unfold file_at.
  destruct (files st !! f) as [o|] eqn:E; simpl.
  - eapply Forall_lookup_1; eauto.
  - reflexivity.
Qed.

Lemma Inv2_upd_dir st d f :
  Inv2 st -> keys_distinct (f (dir_at st d)) -> Inv2 (upd_dir d f st).
Proof.
  intros [HD HF] H. split; simpl; [|exact HF]. apply Forall_insert; assumption.
Qed.

Lemma Inv2_upd_file st x f :
  Inv2 st -> content_consistent (f (file_at st x)) -> Inv2 (upd_file x f st).
Proof.
  intros [HD HF] H. split; simpl; [exact HD|]. apply Forall_insert; assumption.
Qed.

Lemma bind_post {A B} (I : VirtualFileSystem -> Prop) (m : M A) (k : A -> M B) st :
  I (snd (m st)) ->
  (forall a, fst (m st) = Ret a -> I (snd (k a (snd (m st))))) ->
  I (snd (bind m k st)).
Proof.
  unfold bind. destruct (m st) as [[a|e|] st']; simpl; auto.
Qed.

Lemma Directory_addDirectory_Inv2 this dir st :
  Inv2 st -> Inv2 (snd (Directory_addDirectory this dir st)).
Proof.
  intros HI. unfold Directory_addDirectory.
  destruct (Directory_hasFile _ _ _); [exact HI|]. simpl.
  assert (H1 : Inv2 (upd_dir dir (set_dir_parent (Some this)) st)).
  { apply Inv2_upd_dir; [exact HI|]. exact (Inv2_dir_at st dir HI). }
  apply Inv2_upd_dir; [exact H1|].
  destruct (Inv2_dir_at _ this H1) as [Hf Hd].
  split; simpl; [exact Hf|]. apply NoDup_map_set. exact Hd.
Qed.

Lemma Directory_addFile_Inv2 this file st :
  Inv2 st -> Inv2 (snd (Directory_addFile this file st)).
Proof.
  intros HI. unfold Directory_addFile.
  destruct (Directory_hasDirectory _ _ _); [exact HI|]. simpl.
  assert (H1 : Inv2 (upd_file file (set_file_parent this) st)).
  { apply Inv2_upd_file; [exact HI|]. exact (Inv2_file_at st file HI). }
  apply Inv2_upd_dir; [exact H1|].
  destruct (Inv2_dir_at _ this H1) as [Hf Hd].
  split; simpl; [|exact Hd]. apply NoDup_map_set. exact Hf.
Qed.

Lemma Directory_removeDirectory_Inv2 this name st :
  Inv2 st -> Inv2 (snd (Directory_removeDirectory this name st)).
Proof.
  intros HI. unfold Directory_removeDirectory.
  destruct (str_eqb name ROOT_PATH); [exact HI|]. simpl.
  apply Inv2_upd_dir; [exact HI|].
  destruct (Inv2_dir_at st this HI) as [Hf Hd].
  split; simpl; [exact Hf|]. apply NoDup_map_delete. exact Hd.
Qed.

Lemma Directory_removeFile_Inv2 this name st :
  Inv2 st -> Inv2 (snd (Directory_removeFile this name st)).
Proof.
  intros HI. unfold Directory_removeFile, modify. simpl.
  apply Inv2_upd_dir; [exact HI|].
  destruct (Inv2_dir_at st this HI) as [Hf Hd].
  split; simpl; [|exact Hd]. apply NoDup_map_delete. exact Hf.
Qed.

Lemma Directory_createAndAddDirectory_Inv2 this name st :
  Inv2 st -> Inv2 (snd (Directory_createAndAddDirectory this name st)).
Proof.
  intros HI. unfold Directory_createAndAddDirectory.
  destruct (str_eqb name ROOT_PATH); [exact HI|].
  assert (H1 : Inv2 (snd (alloc_Directory (new_Directory (Some this) name) st))).
  { destruct HI as [HD HF]. split; simpl; [|exact HF].
    apply Forall_app. split; [exact HD|].
    repeat constructor. }
  apply (bind_post Inv2); [exact H1|]. intros dir _.
  apply Directory_addDirectory_Inv2. exact H1.
Qed.

Lemma Directory_createAndAddFile_Inv2 this name st :
  Inv2 st -> Inv2 (snd (Directory_createAndAddFile this name None st)).
Proof.
  intros HI. unfold Directory_createAndAddFile.
  assert (H1 : Inv2 (snd (alloc_File (new_File this name None) st))).
  { destruct HI as [HD HF]. split; simpl; [exact HD|].
    apply Forall_app. split; [exact HF|].
    repeat constructor. }
  apply (bind_post Inv2); [exact H1|]. intros file _.
  apply Directory_addFile_Inv2. exact H1.
Qed.

Lemma Directory_update_Inv2 this name parent st :
  Inv2 st -> Inv2 (snd (Directory_update this name parent st)).
Proof.
  intros HI. unfold Directory_update.
  destruct (dir_parent (dir_at st this)) as [originalParent|]; [|exact HI].
  destruct (map_has _ _); [exact HI|].
  set (nm := default (dir_name (dir_at st this)) name).
  set (pa := default originalParent parent).
  pose (st1 := upd_dir this (set_dir_name nm) st).
  assert (H1 : Inv2 st1).
  { apply Inv2_upd_dir; [exact HI|]. exact (Inv2_dir_at st this HI). }
  pose (st2 := upd_dir this (set_dir_parent (Some pa)) st1).
  assert (H2 : Inv2 st2).
  { apply Inv2_upd_dir; [exact H1|]. exact (Inv2_dir_at st1 this H1). }
  assert (H3 : Inv2 (snd (Directory_addDirectory pa this st2)))
    by (apply Directory_addDirectory_Inv2; exact H2).
  apply (bind_post Inv2); [exact H1|]. intros _ _.
  apply (bind_post Inv2); [exact H2|]. intros _ _.
  apply (bind_post Inv2); [exact H3|]. intros _ _.
  apply Directory_removeDirectory_Inv2. exact H3.
Qed.

Lemma File_update_Inv2 this name parent st :
  Inv2 st -> Inv2 (snd (File_update this name parent None st)).
Proof.
  intros HI. unfold File_update.
  set (nm := default (file_name (file_at st this)) name).
  set (pa := default (file_parent (file_at st this)) parent).
  pose (st1 := upd_file this (set_file_name nm) st).
  assert (H1 : Inv2 st1).
  { apply Inv2_upd_file; [exact HI|]. exact (Inv2_file_at st this HI). }
  pose (st2 := upd_file this (set_content (content (file_at st this))) st1).
  assert (H2 : Inv2 st2).
  { apply Inv2_upd_file; [exact H1|].
    unfold content_consistent. simpl. unfold st1.
    rewrite (file_at_upd_file_field contentByteCount) by reflexivity.
    exact (Inv2_file_at st this HI). }
  assert (H3 : Inv2 (snd (Directory_addFile pa this st2)))
    by (apply Directory_addFile_Inv2; exact H2).
  apply (bind_post Inv2); [exact H1|]. intros _ _.
  apply (bind_post Inv2); [exact H2|]. intros _ _.
  apply (bind_post Inv2); [exact H3|]. intros _ _.
  apply Directory_removeFile_Inv2. exact H3.
Qed.

Lemma File_setContent_Inv2 this c st :
  Inv2 st -> Inv2 (snd (File_setContent this c st)).
Proof.
  intros [HD HF]. unfold File_setContent, bind, modify. simpl.
  split; simpl; [exact HD|].
  destruct (Nat.lt_ge_cases this (length (files st))) as [Hlt|Hge].
  - unfold file_at at 1. simpl.
    rewrite list_lookup_insert_eq by exact Hlt. simpl.
    rewrite list_insert_insert_eq. apply Forall_insert; [exact HF|]. reflexivity.
  - rewrite !list_insert_ge; [exact HF|exact Hge|rewrite length_insert; exact Hge].
Qed.

Lemma run_Inv2 op st : Inv2 st -> Inv2 (snd (run op st)).
Proof.
  intros HI. destruct op; simpl; try exact HI.
  - unfold changeDirectory. apply (bind_post Inv2); [exact HI|].
    intros [d|] _; exact HI.
  - unfold makeDirectory. destruct (_ =? _)%nat; [exact HI|].
    apply (bind_post Inv2); [exact HI|]. intros [d|] _; [|exact HI].
    apply Directory_createAndAddDirectory_Inv2. exact HI.
  - unfold makeFile.
    apply (bind_post Inv2); [exact HI|]. intros [d|] _; [|exact HI].
    apply Directory_createAndAddFile_Inv2. exact HI.
  - unfold removeDirectory.
    apply (bind_post Inv2); [exact HI|]. intros [d|] _; [|exact HI]. cbv beta zeta.
    destruct (dir_parent _); [|exact HI].
    apply (bind_post Inv2); [exact HI|]. intros ? _.
    apply (bind_post Inv2); [exact HI|]. intros _ _.
    apply Directory_removeDirectory_Inv2. exact HI.
  - unfold removeFile.
    apply (bind_post Inv2); [exact HI|]. intros [f|] _; [|exact HI]. cbv beta zeta.
    apply (bind_post Inv2); [destruct (truthy _); exact HI|]. intros _ _.
    apply Directory_removeFile_Inv2. destruct (truthy _); exact HI.
  - unfold writeFile.
    apply (bind_post Inv2); [exact HI|]. intros [f|] _; [|exact HI]. cbv beta zeta.
    destruct (_ >? _)%Z; [exact HI|].
    apply (bind_post Inv2); [apply File_setContent_Inv2; exact HI|]. intros _ _.
    exact (File_setContent_Inv2 f c st HI).
  - unfold moveFile.
    apply (bind_post Inv2); [exact HI|]. intros file _.
    apply (bind_post Inv2); [exact HI|]. intros targetDir _.
    destruct file as [f|]; [|exact HI]. destruct targetDir as [d|]; [|exact HI].
    cbv beta zeta.
    apply (bind_post Inv2); [apply Directory_addFile_Inv2; exact HI|]. intros _ _.
    apply Directory_removeFile_Inv2. apply Directory_addFile_Inv2. exact HI.
  - unfold renameFile.
    apply (bind_post Inv2); [exact HI|]. intros [f|] _; [|exact HI].
    apply (bind_post Inv2); [apply File_update_Inv2; exact HI|]. intros _ _.
    apply Directory_removeFile_Inv2. apply File_update_Inv2. exact HI.
  - unfold renameDirectory. destruct (str_eqb _ _); [exact HI|].
    apply (bind_post Inv2); [exact HI|]. intros [d|] _; [|exact HI].
    apply (bind_post Inv2); [apply Directory_update_Inv2; exact HI|]. intros _ _.
    destruct (dir_parent _).
    + apply Directory_removeDirectory_Inv2. apply Directory_update_Inv2. exact HI.
    + apply Directory_update_Inv2. exact HI.
  - unfold moveDirectory. destruct (str_eqb _ _); [exact HI|].
    apply (bind_post Inv2); [exact HI|]. intros directory _.
    apply (bind_post Inv2); [exact HI|]. intros targetDir _.
    destruct directory as [d|]; [|exact HI]. destruct targetDir as [t|]; [|exact HI].
    cbv beta zeta.
    assert (H1 : Inv2 (snd (Directory_addDirectory t d st)))
      by (apply Directory_addDirectory_Inv2; exact HI).
    apply (bind_post Inv2); [exact H1|]. intros _ _.
    assert (H2 : Inv2 (snd (match dir_parent (dir_at st d) with
            | Some p => Directory_removeDirectory p
                          (dir_name (dir_at (snd (Directory_addDirectory t d st)) d))
                          (snd (Directory_addDirectory t d st))
            | None => ret tt (snd (Directory_addDirectory t d st))
            end))).
    { destruct (dir_parent (dir_at st d)); [|exact H1].
      apply Directory_removeDirectory_Inv2. exact H1. }
    apply (bind_post Inv2); [exact H2|]. intros _ _.
    apply (bind_post Inv2); [exact H2|]. intros here _.
    destruct (pathUtils.relative_is_empty _ _ _); exact H2.
Qed.

Lemma reachable_Inv2 st : reachable st -> Inv2 st.
Proof.
  induction 1 as [|st op _ IH]; [|apply run_Inv2; exact IH].
  split; repeat constructor.
Qed.

(** X4: in every reachable state, the byte count of every file object is
    the byte length of its content, and is undefined exactly when the
    content is. *)
Theorem contentByteCount_consistent st f o :
  reachable st ->
  files st !! f = Some o ->
  contentByteCount o
  = match content o with Some c => Some (byteLength c) | None => None end.
Proof.
  intros Hr Hf. destruct (reachable_Inv2 st Hr) as [_ HF].
  exact (Forall_lookup_1 _ _ _ _ HF Hf).
Qed.

Lemma contentByteCount_consistent_witness :
  contentByteCount (file_at st_replaced 0) = Some 15%Z.
Proof.
  apply (contentByteCount_consistent st_replaced 0 (file_at st_replaced 0)).
  - apply reachable_run_all. apply reachable_new.
  - reflexivity.
Defined.

(** X5: in every reachable state, the listing that [getDirectoryContents]
    returns names nothing twice. *)
Theorem getDirectoryContents_NoDup st path l :
  reachable st ->
  getDirectoryContents st path = Ret l ->
  NoDup l.
Proof.
  intros Hr. pose proof (reachable_Inv st Hr) as HI.
  pose proof (reachable_Inv2 st Hr) as HI2.
  unfold getDirectoryContents.
  destruct (match path with Some p => _ | None => _ end) as [[d|]|e|];
    simpl; try discriminate.
  intros [= <-].
  destruct (Inv2_dir_at st d HI2) as [Hf Hd].
  destruct (Inv_dir_at st d HI) as (_ & _ & _ & _ & Huniq).
  apply NoDup_app. split; [exact Hd|]. split; [|exact Hf].
  intros x Hx Hx'. apply (Huniq x); apply map_has_keys, list_elem_of_In; assumption.
Qed.

Lemma getDirectoryContents_NoDup_witness : NoDup ["b"; "a"].
Proof.
  apply (getDirectoryContents_NoDup st_file_and_directory None).
  - apply reachable_run_all. apply reachable_new.
  - reflexivity.
Defined.

(** ** The capacity *)

Lemma fold_left_stuck {A} (f : ref -> Result A) (g : A -> A -> A) l (r : Result A) :
  (forall a, r <> Ret a) ->
  forall z, fold_left (fun acc d => a <-r acc; b <-r f d; Ret (g a b)) l r <> Ret z.
Proof.
  revert r. induction l as [|d l IH]; intros r Hr z; simpl; [apply Hr|].
  apply IH. intros a. destruct r as [x|e|]; simpl; [|discriminate..].
  exfalso. apply (Hr x). reflexivity.
Qed.

Lemma getTotalByteCount_rec_nonneg n st d z :
  Inv2 st -> Directory_getTotalByteCount_rec n st d = Ret z -> (0 <= z)%Z.
Proof.
  intros HI. revert d z. induction n as [|n IH]; intros d z; simpl; [discriminate|].
  assert (Hfiles : forall l z0, (0 <= z0)%Z ->
            (0 <= fold_left (fun acc f =>
                     (acc + default 0 (contentByteCount (file_at st f)))%Z) l z0)%Z).
  { induction l as [|f l IHl]; intros z0 Hz0; simpl; [exact Hz0|].
    apply IHl. pose proof (Inv2_file_at st f HI) as Hc.
    unfold content_consistent in Hc. rewrite Hc.
    destruct (content (file_at st f)); simpl; unfold byteLength; lia. }
  generalize (Hfiles (map_values (filesByName (dir_at st d))) 0%Z (Z.le_refl 0)).
  generalize (fold_left (fun acc f =>
                (acc + default 0 (contentByteCount (file_at st f)))%Z)
              (map_values (filesByName (dir_at st d))) 0%Z).
  generalize (map_values (directoriesByName (dir_at st d))).
  clear Hfiles. intros l. induction l as [|c l IHl]; intros z0 Hz0; simpl.
  - intros [= <-]. exact Hz0.
  - destruct (Directory_getTotalByteCount_rec n st c) as [b|e|] eqn:Eb; simpl.
    + apply IHl. specialize (IH c b Eb). lia.
    + intros H. exfalso. revert H. apply fold_left_stuck. discriminate.
    + intros H. exfalso. revert H. apply fold_left_stuck. discriminate.
Qed.

Ltac frame_cases :=
  repeat match goal with
         | |- context [match ?x with _ => _ end] => destruct x; simpl
         | |- context [if ?x then _ else _] => destruct x; simpl
         end; try reflexivity.

Lemma maxBytes_addDirectory this dir st :
  maxBytes (snd (Directory_addDirectory this dir st)) = maxBytes st.
Proof. unfold Directory_addDirectory. frame_cases. Qed.

Lemma maxBytes_addFile this file st :
  maxBytes (snd (Directory_addFile this file st)) = maxBytes st.
Proof. unfold Directory_addFile. frame_cases. Qed.

Lemma maxBytes_removeDirectory this name st :
  maxBytes (snd (Directory_removeDirectory this name st)) = maxBytes st.
Proof. unfold Directory_removeDirectory. frame_cases. Qed.

Lemma maxBytes_run op st :
  (forall n, op <> OpSetMaxBytes n) ->
  maxBytes (snd (run op st)) = maxBytes st.
Proof.
  intros Hop. destruct op; simpl; try reflexivity.
  - unfold changeDirectory, bind, query, modify, throw. frame_cases.
  - unfold makeDirectory, Directory_createAndAddDirectory, bind, query, throw.
    destruct (_ =? _)%nat; [reflexivity|].
    destruct (_getTargetDirectory st _) as [[d|]|e|]; simpl; try reflexivity.
    destruct (str_eqb _ ROOT_PATH); simpl; [reflexivity|].
    rewrite maxBytes_addDirectory. reflexivity.
  - unfold makeFile, Directory_createAndAddFile, bind, query, throw.
    destruct (_getTargetDirectory st _) as [[d|]|e|]; simpl; try reflexivity.
    rewrite maxBytes_addFile. reflexivity.
  - unfold removeDirectory, bind, query, modify, throw.
    destruct (_getTargetDirectory st _) as [[d|]|e|]; simpl; try reflexivity.
    destruct (dir_parent _); simpl; [|reflexivity].
    destruct (Directory_getTotalByteCount st d); simpl; try reflexivity.
    rewrite maxBytes_removeDirectory. reflexivity.
  - unfold removeFile, bind, query, modify, throw.
    destruct (_getTargetFile st _) as [[f|]|e|]; simpl; try reflexivity.
    destruct (truthy _); reflexivity.
  - unfold writeFile, File_setContent, bind, query, modify, throw.
    destruct (_getTargetFile st _) as [[f|]|e|]; simpl; try reflexivity.
    destruct (_ >? _)%Z; reflexivity.
  - unfold moveFile, bind, query, throw.
    destruct (_getTargetFile st _) as [[f|]|e|]; simpl; try reflexivity;
      destruct (_getTargetDirectory st _) as [[d|]|e'|]; simpl; try reflexivity.
    pose proof (maxBytes_addFile d f st) as H.
    destruct (Directory_addFile d f st) as [[[]|e|] st1]; simpl in *; exact H.
  - unfold renameFile, File_update, bind, query, modify, throw.
    destruct (_getTargetFile st _) as [[f|]|e|]; simpl; try reflexivity.
    match goal with |- context [Directory_addFile ?d ?x ?s] =>
      pose proof (maxBytes_addFile d x s) as H;
      destruct (Directory_addFile d x s) as [[[]|e|] st1] end; simpl in *; exact H.
  - unfold renameDirectory, Directory_update, bind, query, modify, throw.
    destruct (str_eqb _ ROOT_PATH); [reflexivity|].
    destruct (_getTargetDirectory st _) as [[d|]|e|]; simpl; try reflexivity.
    destruct (dir_parent (dir_at st d)); simpl; [|reflexivity].
    destruct (map_has _ _); simpl; [reflexivity|].
    match goal with |- context [Directory_addDirectory ?d ?x ?s] =>
      pose proof (maxBytes_addDirectory d x s) as H;
      destruct (Directory_addDirectory d x s) as [[[]|e|] st1] end;
      simpl in *; try exact H.
    match goal with |- context [Directory_removeDirectory ?d ?x ?s] =>
      pose proof (maxBytes_removeDirectory d x s) as H';
      destruct (Directory_removeDirectory d x s) as [[[]|e|] st2] end;
      simpl in *; try congruence.
    destruct (dir_parent (dir_at st2 d)); simpl; [|congruence].
    rewrite maxBytes_removeDirectory. congruence.
  - unfold moveDirectory, bind, query, modify, throw, ret.
    destruct (str_eqb _ ROOT_PATH); [reflexivity|].
    destruct (_getTargetDirectory st path) as [[d|]|e|]; simpl; try reflexivity;
      destruct (_getTargetDirectory st targetDirPath) as [[t|]|e'|];
      simpl; try reflexivity.
    pose proof (maxBytes_addDirectory t d st) as H.
    destruct (Directory_addDirectory t d st) as [[[]|e|] st1]; simpl in *;
      try exact H.
    destruct (dir_parent (dir_at st d)) as [p|].
    + pose proof (maxBytes_removeDirectory p (dir_name (dir_at st1 d)) st1) as H'.
      destruct (Directory_removeDirectory p (dir_name (dir_at st1 d)) st1)
        as [[[]|e|] st2]; simpl in *; try congruence.
      destruct (Directory_getPath st2 (currentDir st2)); simpl; try congruence.
      destruct (pathUtils.relative_is_empty _ _ _); simpl; congruence.
    + destruct (Directory_getPath st1 (currentDir st1)); simpl; try congruence.
      destruct (pathUtils.relative_is_empty _ _ _); simpl; congruence.
  - exfalso. eapply Hop. reflexivity.
Qed.

Lemma keeps_total_changeDirectory path : keeps_total (changeDirectory path).
Proof.
  unfold changeDirectory.
  apply keeps_total_bind; [apply keeps_total_query|].
  intros [d|]; [intros st; reflexivity|apply keeps_total_throw].
Qed.

Lemma keeps_total_makeDirectory path : keeps_total (makeDirectory path).
Proof.
  unfold makeDirectory. destruct (_ =? _)%nat; [apply keeps_total_throw|].
  apply keeps_total_bind; [apply keeps_total_query|].
  intros [d|]; [|apply keeps_total_throw].
  unfold Directory_createAndAddDirectory.
  destruct (str_eqb _ _); [apply keeps_total_throw|].
  apply keeps_total_bind; [intros st; reflexivity|].
  intros dir. apply keeps_total_addDirectory.
Qed.

Lemma keeps_total_makeFile path : keeps_total (makeFile path).
Proof.
  unfold makeFile.
  apply keeps_total_bind; [apply keeps_total_query|].
  intros [d|]; [|apply keeps_total_throw].
  unfold Directory_createAndAddFile.
  apply keeps_total_bind; [intros st; reflexivity|].
  intros file. apply keeps_total_addFile.
Qed.

Lemma total_removeFile path st :
  (totalFileContentBytes (snd (removeFile path st)) <= totalFileContentBytes st)%Z.
Proof.
  unfold removeFile, bind, query, modify, throw.
  destruct (_getTargetFile st _) as [[f|]|e|]; simpl; try lia.
  destruct (truthy _); simpl; unfold byteLength; lia.
Qed.

Lemma total_removeDirectory path st :
  Inv2 st ->
  (totalFileContentBytes (snd (removeDirectory path st)) <= totalFileContentBytes st)%Z.
Proof.
  intros HI. unfold removeDirectory, bind, query, modify, throw.
  destruct (_getTargetDirectory st _) as [[d|]|e|]; simpl; try lia.
  destruct (dir_parent _) as [parent|]; simpl; [|lia].
  destruct (Directory_getTotalByteCount st d) as [z|e|] eqn:En; simpl; try lia.
  apply getTotalByteCount_rec_nonneg in En; [|exact HI].
  rewrite keeps_total_removeDirectory. simpl. lia.
Qed.

Lemma total_writeFile path c st :
  (totalFileContentBytes st <= maxBytes st)%Z ->
  (totalFileContentBytes (snd (writeFile path c st)) <= maxBytes st)%Z.
Proof.
  intros H. unfold writeFile, File_setContent, bind, query, modify, throw.
  destruct (_getTargetFile st _) as [[f|]|e|]; simpl; try exact H.
  destruct (Z.gtb_spec (totalFileContentBytes st + byteLength c) (maxBytes st));
    simpl; [exact H|lia].
Qed.

(** X6: in a reachable state where [totalFileContentBytes] is within
    [maxBytes], every call of an operation of the file system leaves it
    within [maxBytes] (only an assignment to [maxBytes] itself can put the
    capacity below the counter): [getAvailableSpace()] stays non-negative. *)
Theorem capacity_respected st op :
  reachable st ->
  (forall n, op <> OpSetMaxBytes n) ->
  (0 <= getAvailableSpace st)%Z ->
  (0 <= getAvailableSpace (snd (run op st)))%Z.
Proof.
  intros Hr Hop. unfold getAvailableSpace.
  rewrite (maxBytes_run op st Hop). intros H.
  pose proof (reachable_Inv2 st Hr) as HI2.
  assert (Hle : (totalFileContentBytes (snd (run op st)) <= maxBytes st)%Z);
    [|lia].
  destruct op; simpl; try lia.
  - rewrite keeps_total_changeDirectory. lia.
  - rewrite keeps_total_makeDirectory. lia.
  - rewrite keeps_total_makeFile. lia.
  - pose proof (total_removeDirectory path st HI2). lia.
  - pose proof (total_removeFile path st). lia.
  - apply total_writeFile. lia.
  - rewrite keeps_total_moveFile. lia.
  - rewrite keeps_total_renameFile. lia.
  - rewrite keeps_total_renameDirectory. lia.
  - rewrite keeps_total_moveDirectory. lia.
Qed.

Lemma capacity_respected_witness :
  (0 <= getAvailableSpace (snd (run (OpWriteFile "a" "x") st_one_byte)))%Z.
Proof.
  apply (capacity_respected st_one_byte (OpWriteFile "a" "x")).
  - apply reachable_run_all. apply reachable_new.
  - intros n. discriminate.
  - vm_compute. discriminate.
Defined.

(** ** The errors of [makeDirectory] and [makeFile] *)

Lemma split_slash_pieces s : Forall (fun x => no_slash x = true) (split_slash s).
Proof.
  induction s as [|c s IH]; simpl; [repeat constructor|].
  destruct (is_slash c) eqn:E.
  - constructor; [reflexivity|exact IH].
  - destruct (split_slash s) as [|h t]; [repeat constructor; simpl; rewrite E; reflexivity|].
    inversion IH as [|? ? Hh Ht]; subst.
    constructor; [simpl; rewrite E, Hh; reflexivity|exact Ht].
Qed.

Lemma drop_empty_Forall (P : string -> Prop) l :
  Forall P l -> Forall P (pathUtils.drop_empty l).
Proof.
  induction 1 as [|x l Hx Hl IH]; simpl; [constructor|].
  destruct (str_eqb x ""); [exact IH|constructor; assumption].
Qed.

Lemma basename_no_slash path : no_slash (pathUtils.basename path) = true.
Proof.
  unfold pathUtils.basename, pathUtils.rev_segments.
  assert (H : Forall (fun x => no_slash x = true)
                (pathUtils.drop_empty (rev (split_slash path)))).
  { apply drop_empty_Forall. apply Forall_rev. apply split_slash_pieces. }
  destruct (pathUtils.drop_empty _) as [|x l]; [reflexivity|].
  inversion H; assumption.
Qed.

Lemma getRoot_loop_no_throw n st d e : getRoot_loop n st d <> Throw e.
Proof.
  revert d. induction n as [|n IH]; intros d; simpl; [discriminate|].
  destruct (dir_parent (dir_at st d)); [apply IH|discriminate].
Qed.

(** Resolving a path throws nothing: a path that leads nowhere gives
    [undefined]. *)
Lemma _getTarget_no_throw st path type e : _getTarget st path type <> Throw e.
Proof.
  assert (Hroot : forall e', _getRoot st <> Throw e')
    by (intros e'; apply getRoot_loop_no_throw).
  assert (Hgen : forall p,
    (start <-r (if pathUtils.isAbsolute p then _getRoot st else Ret (currentDir st));
     match walk st start (filter (fun s => nonempty s = true)
                            (split_slash (pathUtils.dirname p))) with
     | None => Ret None
     | Some currDir =>
         match type with
         | DIRECTORY => Ret (map_get (pathUtils.basename p)
                               (directoriesByName (dir_at st currDir)))
         | FILE => Ret (map_get (pathUtils.basename p)
                          (filesByName (dir_at st currDir)))
         end
     end) <> Throw e).
  { intros p. destruct (pathUtils.isAbsolute p).
    - destruct (_getRoot st) as [r|e'|] eqn:E; simpl; try discriminate.
      + destruct (walk st r _); [destruct type|]; discriminate.
      + exfalso. exact (Hroot e' eq_refl).
    - simpl. destruct (walk st _ _); [destruct type|]; discriminate. }
  unfold _getTarget. destruct type; [|apply Hgen].
  destruct (includes CURRENT_DIR_PATHS _); [discriminate|].
  destruct (str_eqb _ ROOT_PATH).
  { destruct (_getRoot st) as [r|e'|] eqn:E; simpl; try discriminate.
    exfalso. exact (Hroot e' eq_refl). }
  destruct (includes MOVE_UP_PATHS _).
  { destruct (dir_parent _); discriminate. }
  apply Hgen.
Qed.

(** X7: [makeDirectory] returns or throws [MissingPath], [DirectoryNotFound]
    or [AmbiguousPath], and [makeFile] returns or throws [DirectoryNotFound]
    or [AmbiguousPath] (unless resolving the path does not end).  The
    [DirectoryExists] of [createAndAddDirectory] is never thrown through
    [makeDirectory]: the base name of a path is never [/]. *)
Theorem make_errors st path :
  In (fst (makeDirectory path st))
     [Ret tt; Throw MissingPath; Throw DirectoryNotFound; Throw AmbiguousPath;
      Diverge] /\
  In (fst (makeFile path st))
     [Ret tt; Throw DirectoryNotFound; Throw AmbiguousPath; Diverge].
Proof.
  split.
  - unfold makeDirectory, bind, query, throw.
    destruct (_ =? _)%nat; [simpl; tauto|].
    destruct (_getTargetDirectory st _) as [[d|]|e|] eqn:Ed; simpl; try tauto.
    + unfold Directory_createAndAddDirectory, bind, throw.
      destruct (str_eqb _ ROOT_PATH) eqn:E.
      * apply str_eqb_eq in E.
        pose proof (basename_no_slash (pathUtils.normalize path)) as H.
        rewrite E in H. discriminate.
      * simpl. unfold Directory_addDirectory.
        destruct (Directory_hasFile _ _ _); simpl; tauto.
    + exfalso. exact (_getTarget_no_throw _ _ _ _ Ed).
  - unfold makeFile, bind, query, throw.
    destruct (_getTargetDirectory st _) as [[d|]|e|] eqn:Ed; simpl; try tauto.
    + unfold Directory_createAndAddFile, bind. simpl. unfold Directory_addFile.
      destruct (Directory_hasDirectory _ _ _); simpl; tauto.
    + exfalso. exact (_getTarget_no_throw _ _ _ _ Ed).
Qed.

(** ** Making a node and finding it again *)

Lemma tree_dir_nil st root d : tree_dir st root d [] -> d = root.
Proof.
  intros H. remember [] as l eqn:El.
  destruct H as [|p segs s c _ _ _ _ _]; [reflexivity|].
  destruct segs; discriminate.
Qed.

Lemma tree_dir_valid st root d segs :
  tree_dir st root d segs -> root < length (directories st) ->
  d < length (directories st).
Proof.
  intros H Hroot. destruct H as [|p segs s c _ _ _ Hpar _]; [exact Hroot|].
  eapply dir_at_parent_valid; eauto.
Qed.

Lemma _getTargetDirectory_tree st root d segs :
  _getRoot st = Ret root -> tree_dir st root d segs ->
  _getTargetDirectory st (abs_path segs) = Ret (Some d).
Proof.
  intros Hroot Ht. unfold _getTargetDirectory.
  destruct Ht as [|p segs s c Hp Hget Hname Hpar Hs].
  - change (_getTarget st (abs_path []) DIRECTORY)
      with (r <-r _getRoot st; Ret (Some r)).
    rewrite Hroot. reflexivity.
  - rewrite (_getTarget_abs_path st root) by (eauto using tree_dir_plain).
    rewrite (walk_tree st root p segs Hp), Hget. reflexivity.
Qed.

Lemma tree_file_getPath st root f segs :
  Inv st -> _getRoot st = Ret root -> tree_file st root f segs ->
  File_getPath st f = Ret (abs_path segs).
Proof.
  intros HI Hroot Ht. destruct Ht as [p segs s f Hp Hget Hname Hpar Hs].
  unfold File_getPath. rewrite Hpar, Hname.
  rewrite (Directory_getPath_tree st root p segs HI Hroot Hp). cbn [rbind].
  rewrite normalize_child by (eauto using tree_dir_plain). reflexivity.
Qed.

Lemma tree_file_resolve st root f segs :
  _getRoot st = Ret root -> tree_file st root f segs ->
  _getTargetFile st (abs_path segs) = Ret (Some f).
Proof.
  intros Hroot Ht. destruct Ht as [p segs s f Hp Hget Hname Hpar Hs].
  unfold _getTargetFile.
  rewrite (_getTarget_abs_path st root) by (eauto using tree_dir_plain).
  rewrite (walk_tree st root p segs Hp), Hget. reflexivity.
Qed.

(** The tree is the same when parents, names and child-directory
    collections are. *)
Lemma tree_dir_same st st' root d segs :
  (forall x, dir_parent (dir_at st' x) = dir_parent (dir_at st x)) ->
  (forall x, dir_name (dir_at st' x) = dir_name (dir_at st x)) ->
  (forall x, directoriesByName (dir_at st' x) = directoriesByName (dir_at st x)) ->
  tree_dir st root d segs -> tree_dir st' root d segs.
Proof.
  intros Hp Hn Hd. induction 1 as [|p segs s c _ IH Hget Hname Hpar Hs];
    [constructor|].
  apply (tree_child st' root p segs s c); auto.
  - rewrite Hd. exact Hget.
  - rewrite Hn. exact Hname.
  - rewrite Hp. exact Hpar.
Qed.

Lemma makeFile_returns st path d :
  _getTargetDirectory st (pathUtils.dirname (pathUtils.normalize path))
    = Ret (Some d) ->
  Directory_hasDirectory st d (pathUtils.basename (pathUtils.normalize path))
    = false ->
  makeFile path st
  = (Ret tt,
     upd_dir d (fun o =>
        set_filesByName
          (map_set (pathUtils.basename (pathUtils.normalize path))
                   (length (files st)) (filesByName o)) o)
       (upd_file (length (files st)) (set_file_parent d)
          (with_files
             (files st ++ [new_File d (pathUtils.basename (pathUtils.normalize path))
                             None])%list st))).
Proof.
  intros Hd Hno. unfold makeFile, bind, query. rewrite Hd.
  unfold Directory_createAndAddFile, bind, alloc_File.
  set (name := pathUtils.basename (pathUtils.normalize path)) in *.
  set (st1 := with_files (files st ++ [new_File d name None])%list st).
  assert (Hnew : file_at st1 (length (files st)) = new_File d name None).
  { unfold file_at, st1. simpl. rewrite lookup_app_r by lia.
    rewrite Nat.sub_diag. reflexivity. }
  rewrite addFile_returns.
  - rewrite Hnew. reflexivity.
  - rewrite Hnew. exact Hno.
Qed.

(** X8: in a reachable state whose current directory leads by its parent
    links to a directory without parent, the root that [_getRoot] returns,
    let [p] be a directory of the tree of this root at the absolute path of
    plain segments [segs], and [s] a plain name that no child directory of
    [p] bears.  Then [makeFile] on the path [segs/s] returns, the path
    resolves to the new file, whose [getPath()] is that path, and
    [readFile] of the path returns no content, whether or not a file of
    that name was there before.  (Where the parent links of the current
    directory form a cycle, [_getRoot] and with it [makeFile] on an
    absolute path do not complete.) *)
Theorem makeFile_then_resolve st root p segs s :
  reachable st -> _getRoot st = Ret root ->
  tree_dir st root p segs -> plain s = true ->
  Directory_hasDirectory st p s = false ->
  let path := abs_path (segs ++ [s])%list in
  let st' := snd (makeFile path st) in
  fst (makeFile path st) = Ret tt /\
  _getTargetFile st' path = Ret (Some (length (files st))) /\
  File_getPath st' (length (files st)) = Ret path /\
  readFile st' path = Ret None.
Proof.
  intros Hr Hroot Ht Hs Hno path st'.
  pose proof (reachable_Inv st Hr) as HI.
  assert (Hplain := tree_dir_plain st root p segs Ht).
  assert (Hpv : p < length (directories st)).
  { eapply tree_dir_valid; eauto. eapply _getRoot_valid; eauto. }
  assert (HI' : Inv st').
  { apply reachable_Inv. exact (reachable_run st (OpMakeFile path) Hr). }
  assert (Hn : pathUtils.normalize path = path)
    by (apply normalize_abs_path; assumption).
  assert (Hb : pathUtils.basename path = s)
    by (apply basename_abs_path; assumption).
  assert (Hd : pathUtils.dirname path = abs_path segs)
    by (apply dirname_abs_path; assumption).
  assert (Hmk := makeFile_returns st path p).
  rewrite Hn, Hb, Hd in Hmk.
  specialize (Hmk (_getTargetDirectory_tree st root p segs Hroot Ht) Hno).
  split; [rewrite Hmk; reflexivity|].
  set (f := length (files st)) in *.
  set (st1 := with_files (files st ++ [new_File p s None])%list st) in *.
  set (st2 := upd_file f (set_file_parent p) st1) in *.
  assert (Hst' : st' = upd_dir p (fun o =>
              set_filesByName (map_set s f (filesByName o)) o) st2).
  { unfold st'. rewrite Hmk. reflexivity. }
  assert (Hfile : file_at st' f = mkFile p s None None).
  { rewrite Hst'. rewrite file_at_upd_dir. unfold st2.
    rewrite file_at_upd_file_eq
      by (unfold st1; simpl; rewrite length_app; simpl; lia).
    unfold file_at, st1. simpl. rewrite lookup_app_r by lia.
    rewrite Nat.sub_diag. reflexivity. }
  assert (Hroot' : _getRoot st' = Ret root).
  { assert (Hlen : length (directories st') = length (directories st)).
    { rewrite Hst'. rewrite length_directories_upd_dir. reflexivity. }
    assert (Hcur : currentDir st' = currentDir st) by (rewrite Hst'; reflexivity).
    rewrite <- Hroot. unfold _getRoot. rewrite Hlen, Hcur.
    apply getRoot_loop_ext. intros x. rewrite Hst'.
    rewrite (dir_at_upd_dir_field dir_parent) by reflexivity. reflexivity. }
  assert (Ht' : tree_dir st' root p segs).
  { eapply tree_dir_same; [| | |exact Ht]; intros x; rewrite Hst'.
    - rewrite (dir_at_upd_dir_field dir_parent) by reflexivity. reflexivity.
    - rewrite (dir_at_upd_dir_field dir_name) by reflexivity. reflexivity.
    - rewrite (dir_at_upd_dir_field directoriesByName) by reflexivity.
      reflexivity. }
  assert (Htf : tree_file st' root f (segs ++ [s])).
  { apply (tree_file_in st' root p segs s f); auto.
    - rewrite Hst'. rewrite dir_at_upd_dir_eq by exact Hpv.
      simpl. rewrite map_get_set, str_eqb_refl. reflexivity.
    - rewrite Hfile. reflexivity.
    - rewrite Hfile. reflexivity. }
  pose proof (tree_file_resolve st' root f _ Hroot' Htf) as Hres.
  split; [exact Hres|]. split.
  - exact (tree_file_getPath st' root f _ HI' Hroot' Htf).
  - unfold readFile. fold path in Hres. rewrite Hres. simpl.
    rewrite Hfile. reflexivity.
Qed.

Lemma makeFile_then_resolve_witness :
  readFile (snd (makeFile "/foo/bar/foo" st_foo)) "/foo/bar/foo" = Ret None.
Proof.
  assert (H1 : tree_dir st_foo 0 1 ["foo"]).
  { apply (tree_child st_foo 0 0 [] "foo" 1); try reflexivity. constructor. }
  assert (H2 : tree_dir st_foo 0 2 ["foo"; "bar"]).
  { apply (tree_child st_foo 0 1 ["foo"] "bar" 2); try reflexivity. exact H1. }
  apply (makeFile_then_resolve st_foo 0 2 ["foo"; "bar"] "foo").
  - apply reachable_run_all. apply reachable_new.
  - reflexivity.
  - exact H2.
  - reflexivity.
  - reflexivity.
Defined.

Lemma makeDirectory_returns st path d :
  path <> "" -> d < length (directories st) ->
  _getTargetDirectory st (pathUtils.dirname (pathUtils.normalize path))
    = Ret (Some d) ->
  Directory_hasFile st d (pathUtils.basename (pathUtils.normalize path)) = false ->
  let name := pathUtils.basename (pathUtils.normalize path) in
  let n := length (directories st) in
  let st' := snd (makeDirectory path st) in
  fst (makeDirectory path st) = Ret tt /\
  length (directories st') = S n /\
  files st' = files st /\ currentDir st' = currentDir st /\
  dir_at st' n = mkDirectory (Some d) name [] [] /\
  dir_at st' d
  = set_directoriesByName (map_set name n (directoriesByName (dir_at st d)))
      (dir_at st d) /\
  (forall x, x < n -> x <> d -> dir_at st' x = dir_at st x).
Proof.
  intros Hne Hdv Hd Hno name n st'.
  assert (Hmk : makeDirectory path st
    = Directory_addDirectory d n
        (with_directories (directories st ++ [new_Directory (Some d) name])%list st)).
  { assert (Hl : (String.length path =? 0)%nat = false)
      by (destruct path; [congruence|reflexivity]).
    unfold makeDirectory, bind, query. rewrite Hl, Hd.
    unfold Directory_createAndAddDirectory, bind, alloc_Directory.
    fold name.
    destruct (str_eqb name ROOT_PATH) eqn:E; [|reflexivity].
    apply str_eqb_eq in E.
    pose proof (basename_no_slash (pathUtils.normalize path)) as H.
    fold name in H. rewrite E in H. discriminate. }
  set (st1 := with_directories (directories st ++ [new_Directory (Some d) name])%list st)
    in *.
  assert (Hn1 : dir_at st1 n = new_Directory (Some d) name).
  { unfold dir_at, st1. simpl. rewrite lookup_app_r by (unfold n; lia).
    unfold n. rewrite Nat.sub_diag. reflexivity. }
  assert (Hold : forall x, x < n -> dir_at st1 x = dir_at st x).
  { intros x Hx. unfold dir_at, st1. simpl. rewrite lookup_app_l by exact Hx.
    reflexivity. }
  assert (Hlen1 : length (directories st1) = S n).
  { unfold st1. simpl. rewrite length_app. simpl. unfold n. lia. }
  assert (Hadd : Directory_addDirectory d n st1
    = (Ret tt,
       upd_dir d (fun o => set_directoriesByName
                             (map_set name n (directoriesByName o)) o)
         (upd_dir n (set_dir_parent (Some d)) st1))).
  { unfold Directory_addDirectory, Directory_hasFile.
    rewrite Hn1, (Hold d Hdv). simpl dir_name. fold name in Hno.
    unfold Directory_hasFile in Hno. rewrite Hno. unfold ret.
    rewrite dir_at_upd_dir_eq by lia. rewrite Hn1. reflexivity. }
  unfold st'. rewrite Hmk, Hadd. simpl fst. simpl snd.
  set (st2 := upd_dir n (set_dir_parent (Some d)) st1).
  assert (Hlen2 : length (directories st2) = S n).
  { unfold st2. rewrite length_directories_upd_dir. exact Hlen1. }
  split; [reflexivity|]. split.
  { rewrite length_directories_upd_dir. exact Hlen2. }
  split; [reflexivity|]. split; [reflexivity|]. split.
  { rewrite dir_at_upd_dir_ne by (unfold n; lia). unfold st2.
    rewrite dir_at_upd_dir_eq by lia. rewrite Hn1. reflexivity. }
  split.
  { rewrite dir_at_upd_dir_eq by lia. unfold st2.
    rewrite dir_at_upd_dir_ne by (unfold n; lia). rewrite (Hold d Hdv).
    reflexivity. }
  intros x Hx Hxd. rewrite dir_at_upd_dir_ne by congruence. unfold st2.
  rewrite dir_at_upd_dir_ne by lia. apply Hold. exact Hx.
Qed.

Lemma getRoot_loop_ext_valid st st' n d :
  Inv st -> d < length (directories st) ->
  (forall x, x < length (directories st) ->
     dir_parent (dir_at st' x) = dir_parent (dir_at st x)) ->
  getRoot_loop n st' d = getRoot_loop n st d.
Proof.
  intros HI Hd H. revert d Hd. induction n as [|n IH]; intros d Hd; simpl;
    [reflexivity|].
  rewrite (H d Hd). destruct (dir_parent (dir_at st d)) as [q|] eqn:E;
    [|reflexivity].
  apply IH. destruct (Inv_dir_at st d HI) as (H1 & _). auto.
Qed.

(** The tree above a directory [p] is the same when only the
    child-directory collection of [p] and new objects differ. *)
Lemma tree_dir_change st st' root p segs :
  dir_parent (dir_at st root) = None -> root < length (directories st) ->
  tree_dir st root p segs ->
  (forall x, x < length (directories st) ->
     dir_parent (dir_at st' x) = dir_parent (dir_at st x) /\
     dir_name (dir_at st' x) = dir_name (dir_at st x)) ->
  (forall x, x < length (directories st) -> x <> p ->
     directoriesByName (dir_at st' x) = directoriesByName (dir_at st x)) ->
  forall d segs', tree_dir st root d segs' -> length segs' <= length segs ->
  tree_dir st' root d segs'.
Proof.
  intros Hroot Hrv Hp Hsame Hdirs d segs' Ht.
  induction Ht as [|a segs0 seg c Ha IH Hget Hname Hpar Hs]; intros Hlen;
    [constructor|].
  rewrite length_app, Nat.add_1_r in Hlen.
  assert (Hav : a < length (directories st)) by (eapply tree_dir_valid; eauto).
  assert (Hcv : c < length (directories st))
    by (eapply dir_at_parent_valid; eauto).
  assert (Hap : a <> p).
  { intros ->.
    pose proof (ancestor_unique st root _ _ p Hroot
                  (tree_dir_ancestor _ _ _ _ Ha) (tree_dir_ancestor _ _ _ _ Hp)).
    lia. }
  destruct (Hsame c Hcv) as [Hcp Hcn].
  apply (tree_child st' root a segs0 seg c).
  - apply IH. lia.
  - rewrite (Hdirs a Hav Hap). exact Hget.
  - rewrite Hcn. exact Hname.
  - rewrite Hcp. exact Hpar.
  - exact Hs.
Qed.

(** X9: in a reachable state whose current directory leads by its parent
    links to a directory without parent, the root that [_getRoot] returns,
    let [p] be a directory of the tree of this root at the absolute path of
    plain segments [segs], and [s] a plain name that no file of [p] bears.
    Then [makeDirectory] on the path [segs/s] returns, the path resolves to
    the new directory, whose [getPath()] is that path, and the new
    directory is empty, whether or not a directory of that name was there
    before.  (Where the parent links of the current directory form a cycle,
    [_getRoot] and with it [makeDirectory] on an absolute path do not
    complete.) *)
Theorem makeDirectory_then_resolve st root p segs s :
  reachable st -> _getRoot st = Ret root ->
  tree_dir st root p segs -> plain s = true ->
  Directory_hasFile st p s = false ->
  let path := abs_path (segs ++ [s])%list in
  let st' := snd (makeDirectory path st) in
  fst (makeDirectory path st) = Ret tt /\
  _getTargetDirectory st' path = Ret (Some (length (directories st))) /\
  Directory_getPath st' (length (directories st)) = Ret path /\
  getDirectoryContents st' (Some path) = Ret [].
Proof.
  intros Hr Hroot Ht Hs Hno path st'.
  pose proof (reachable_Inv st Hr) as HI.
  assert (Hplain := tree_dir_plain st root p segs Ht).
  assert (Hrv : root < length (directories st)) by (eapply _getRoot_valid; eauto).
  assert (Hrn : dir_parent (dir_at st root) = None)
    by (eapply getRoot_loop_root; exact Hroot).
  assert (Hpv : p < length (directories st)) by (eapply tree_dir_valid; eauto).
  assert (HI' : Inv st').
  { apply reachable_Inv. exact (reachable_run st (OpMakeDirectory path) Hr). }
  assert (Hn : pathUtils.normalize path = path)
    by (apply normalize_abs_path; assumption).
  assert (Hb : pathUtils.basename path = s)
    by (apply basename_abs_path; assumption).
  assert (Hd : pathUtils.dirname path = abs_path segs)
    by (apply dirname_abs_path; assumption).
  assert (Hmk := makeDirectory_returns st path p).
  rewrite Hn, Hb, Hd in Hmk.
  destruct Hmk as (Hret & Hlen & Hfiles & Hcur & Hnew & Hparent & Hother).
  { discriminate. }
  { exact Hpv. }
  { exact (_getTargetDirectory_tree st root p segs Hroot Ht). }
  { exact Hno. }
  fold st' in Hlen, Hfiles, Hcur, Hnew, Hparent, Hother.
  set (n := length (directories st)) in *.
  split; [exact Hret|].
  assert (Hsame : forall x, x < n ->
            dir_parent (dir_at st' x) = dir_parent (dir_at st x) /\
            dir_name (dir_at st' x) = dir_name (dir_at st x)).
  { intros x Hx. destruct (Nat.eq_dec x p) as [->|Hxp].
    - rewrite Hparent. split; reflexivity.
    - rewrite (Hother x Hx Hxp). split; reflexivity. }
  assert (Hroot' : _getRoot st' = Ret root).
  { apply (_getRoot_enough_fuel st' n); [exact HI'|].
    rewrite Hcur. unfold _getRoot in Hroot. fold n in Hroot. rewrite <- Hroot.
    apply getRoot_loop_ext_valid; [exact HI|apply HI|].
    intros x Hx. apply Hsame. exact Hx. }
  assert (Ht' : tree_dir st' root p segs).
  { apply (tree_dir_change st st' root p segs Hrn Hrv Ht Hsame); [|exact Ht|lia].
    intros x Hx Hxp. rewrite (Hother x Hx Hxp). reflexivity. }
  assert (Htn : tree_dir st' root n (segs ++ [s])).
  { apply (tree_child st' root p segs s n); auto.
    - rewrite Hparent. simpl. rewrite map_get_set, str_eqb_refl. reflexivity.
    - rewrite Hnew. reflexivity.
    - rewrite Hnew. reflexivity. }
  pose proof (_getTargetDirectory_tree st' root n _ Hroot' Htn) as Hres.
  fold path in Hres.
  split; [exact Hres|]. split.
  - exact (Directory_getPath_tree st' root n _ HI' Hroot' Htn).
  - unfold getDirectoryContents.
    assert (Hne : str_eqb path "" = false) by reflexivity.
    rewrite Hne, Hres. simpl. rewrite Hnew. reflexivity.
Qed.

Lemma makeDirectory_then_resolve_witness :
  getDirectoryContents (snd (makeDirectory "/foo/bar/baz" st_foo))
    (Some "/foo/bar/baz") = Ret [].
Proof.
  assert (H1 : tree_dir st_foo 0 1 ["foo"]).
  { apply (tree_child st_foo 0 0 [] "foo" 1); try reflexivity. constructor. }
  assert (H2 : tree_dir st_foo 0 2 ["foo"; "bar"]).
  { apply (tree_child st_foo 0 1 ["foo"] "bar" 2); try reflexivity. exact H1. }
  apply (makeDirectory_then_resolve st_foo 0 2 ["foo"; "bar"] "baz").
  - apply reachable_run_all. apply reachable_new.
  - reflexivity.
  - exact H2.
  - reflexivity.
  - reflexivity.
Defined.

(** ** Removing a file *)

Lemma _getTargetFile_landing st path :
  _getTargetFile st path
  = (c <-r landing st path;
     match c with
     | None => Ret None
     | Some c => Ret (map_get (pathUtils.basename (pathUtils.normalize path))
                        (filesByName (dir_at st c)))
     end).
Proof.
  unfold _getTargetFile, _getTarget, landing.
  destruct (if pathUtils.isAbsolute _ then _ else _) as [start|e|]; simpl;
    reflexivity.
Qed.

Lemma landing_same st st' path :
  length (directories st') = length (directories st) ->
  currentDir st' = currentDir st ->
  (forall x, dir_parent (dir_at st' x) = dir_parent (dir_at st x)) ->
  (forall x, directoriesByName (dir_at st' x) = directoriesByName (dir_at st x)) ->
  landing st' path = landing st path.
Proof.
  intros Hl Hc Hp Hd. unfold landing, _getRoot. rewrite Hl, Hc.
  rewrite (getRoot_loop_ext st' st) by exact Hp.
  destruct (if pathUtils.isAbsolute _ then _ else _) as [start|e|]; simpl;
    try reflexivity.
  rewrite (walk_ext st' st) by assumption. reflexivity.
Qed.

Lemma landing_valid st path c :
  Inv st -> landing st path = Ret (Some c) -> c < length (directories st).
Proof.
  intros HI. unfold landing.
  destruct (if pathUtils.isAbsolute _ then _ else _) as [start|e|] eqn:Hs;
    simpl; try discriminate.
  intros [= Hw]. eapply _getTarget_general; eauto.
Qed.

(** X10: in a reachable state, let [path] resolve to a file that its parent
    holds under its name and no other collection holds.  Then [removeFile]
    returns, takes the byte length of the content off the counter, and
    [readFile] of the same path throws [FileNotFound] afterwards. *)
Theorem removeFile_then_readFile st path f :
  reachable st ->
  _getTargetFile st path = Ret (Some f) ->
  (forall d k, d < length (directories st) ->
     map_get k (filesByName (dir_at st d)) = Some f ->
     d = file_parent (file_at st f) /\ k = file_name (file_at st f)) ->
  let st' := snd (removeFile path st) in
  fst (removeFile path st) = Ret tt /\
  totalFileContentBytes st'
  = (totalFileContentBytes st
     - match content (file_at st f) with Some c => byteLength c | None => 0 end)%Z /\
  readFile st' path = Throw FileNotFound.
Proof.
  intros Hr Hf Honly st'. pose proof (reachable_Inv st Hr) as HI.
  assert (Hst' : st' = upd_dir (file_parent (file_at st f))
            (fun o => set_filesByName
                        (map_delete (file_name (file_at st f)) (filesByName o)) o)
            (if truthy (content (file_at st f))
             then with_total (totalFileContentBytes st
                    - byteLength (default "" (content (file_at st f))))%Z st
             else st)).
  { unfold st', removeFile, bind, query. rewrite Hf. reflexivity. }
  split; [unfold removeFile, bind, query; rewrite Hf; reflexivity|].
  split.
  { rewrite Hst'. destruct (content (file_at st f)) as [c|]; simpl.
    - unfold nonempty. destruct (str_eqb c "") eqn:E; simpl; [|reflexivity].
      apply str_eqb_eq in E. subst c. unfold byteLength. simpl. lia.
    - lia. }
  rewrite _getTargetFile_landing in Hf.
  destruct (landing st path) as [[c|]|e|] eqn:Hland; simpl in Hf; try discriminate.
  injection Hf as Hget.
  pose proof (landing_valid st path c HI Hland) as Hcv.
  destruct (Honly c _ Hcv Hget) as [-> Hk].
  assert (Hland' : landing st' path = Ret (Some (file_parent (file_at st f)))).
  { rewrite <- Hland. rewrite Hst'. apply landing_same.
    - rewrite length_directories_upd_dir. destruct (truthy _); reflexivity.
    - destruct (truthy _); reflexivity.
    - intros x. rewrite (dir_at_upd_dir_field dir_parent) by reflexivity.
      destruct (truthy _); reflexivity.
    - intros x. rewrite (dir_at_upd_dir_field directoriesByName) by reflexivity.
      destruct (truthy _); reflexivity. }
  unfold readFile. rewrite _getTargetFile_landing, Hland'. simpl.
  rewrite Hk, Hst'. rewrite dir_at_upd_dir_eq
    by (rewrite <- (length_directories_upd_dir 0 id); destruct (truthy _);
        rewrite length_directories_upd_dir; exact Hcv).
  simpl. rewrite map_get_delete, str_eqb_refl. reflexivity.
Qed.

Lemma st_file_and_directory_only_a :
  forall d k, d < length (directories st_file_and_directory) ->
    map_get k (filesByName (dir_at st_file_and_directory d)) = Some 0 ->
    d = file_parent (file_at st_file_and_directory 0) /\
    k = file_name (file_at st_file_and_directory 0).
Proof.
  change (file_at st_file_and_directory 0) with (mkFile 0 "a" None None).
  intros [|[|d]] k Hd.
  - change (dir_at st_file_and_directory 0)
      with (mkDirectory None "/" [("a", 0)] [("b", 1)]).
    simpl. destruct (str_eqb k "a") eqn:E; [|discriminate].
    apply str_eqb_eq in E. intros _. split; [reflexivity|exact E].
  - change (dir_at st_file_and_directory 1) with (mkDirectory (Some 0) "b" [] []).
    simpl. discriminate.
  - change (length (directories st_file_and_directory)) with 2 in Hd. lia.
Defined.

Lemma removeFile_then_readFile_witness :
  readFile (snd (removeFile "a" st_file_and_directory)) "a" = Throw FileNotFound.
Proof.
  apply (removeFile_then_readFile st_file_and_directory "a" 0).
  - apply reachable_run_all. apply reachable_new.
  - reflexivity.
  - exact st_file_and_directory_only_a.
Defined.

(** ** Moving a file to another directory *)

(** X11: in a reachable state, let [path] resolve to a file that its parent
    holds under its name and no other collection holds, and [target] to
    another directory, which has no child directory of that name.  Then
    [moveFile] returns; afterwards the target holds the file under its name
    and is its parent, the former parent holds nothing under that name, the
    file object is otherwise as before, and again the file is held by its
    parent under its name and by no other collection. *)
Theorem moveFile_to_other_directory st path target f d :
  reachable st ->
  _getTargetFile st path = Ret (Some f) ->
  _getTargetDirectory st target = Ret (Some d) ->
  d <> file_parent (file_at st f) ->
  Directory_hasDirectory st d (file_name (file_at st f)) = false ->
  (forall d' k, d' < length (directories st) ->
     map_get k (filesByName (dir_at st d')) = Some f ->
     d' = file_parent (file_at st f) /\ k = file_name (file_at st f)) ->
  let st' := snd (moveFile path target st) in
  fst (moveFile path target st) = Ret tt /\
  file_at st' f = set_file_parent d (file_at st f) /\
  map_get (file_name (file_at st f)) (filesByName (dir_at st' d)) = Some f /\
  map_get (file_name (file_at st f))
          (filesByName (dir_at st' (file_parent (file_at st f)))) = None /\
  (forall d' k, d' < length (directories st') ->
     map_get k (filesByName (dir_at st' d')) = Some f ->
     d' = file_parent (file_at st' f) /\ k = file_name (file_at st' f)).
Proof.
  intros Hr Hf Hd Hne Hno Honly st'. pose proof (reachable_Inv st Hr) as HI.
  pose proof (_getTargetFile_valid st path f HI Hf) as Hfv.
  pose proof (_getTargetDirectory_valid st target d HI Hd) as Hdv.
  set (name := file_name (file_at st f)) in *.
  set (par := file_parent (file_at st f)) in *.
  set (st1 := upd_file f (set_file_parent d) st).
  set (st2 := upd_dir d (fun o => set_filesByName (map_set name f (filesByName o)) o) st1).
  set (st3 := upd_dir par (fun o => set_filesByName (map_delete name (filesByName o)) o) st2).
  assert (Hmv : moveFile path target st = (Ret tt, st3)).
  { unfold moveFile, bind, query. rewrite Hf, Hd. fold par.
    rewrite addFile_returns by exact Hno. fold name st1 st2.
    unfold Directory_removeFile, modify.
    replace (file_name (file_at st2 f)) with name; [reflexivity|].
    unfold st2. rewrite file_at_upd_dir. unfold st1.
    rewrite (file_at_upd_file_field file_name) by reflexivity. reflexivity. }
  assert (Hst' : st' = st3) by (unfold st'; rewrite Hmv; reflexivity).
  assert (Hfile : file_at st3 f = set_file_parent d (file_at st f)).
  { unfold st3, st2. rewrite !file_at_upd_dir. unfold st1.
    apply file_at_upd_file_eq. exact Hfv. }
  assert (Hd3 : filesByName (dir_at st3 d) = map_set name f (filesByName (dir_at st d))).
  { unfold st3. rewrite dir_at_upd_dir_ne by congruence.
    unfold st2. rewrite dir_at_upd_dir_eq by exact Hdv. reflexivity. }
  assert (Hp3 : filesByName (dir_at st3 par)
                = map_delete name (filesByName (dir_at st par))).
  { destruct (Nat.lt_ge_cases par (length (directories st))) as [Hlt|Hge].
    - unfold st3. rewrite dir_at_upd_dir_eq
        by (unfold st2; rewrite length_directories_upd_dir; exact Hlt).
      unfold st2. rewrite dir_at_upd_dir_ne by congruence. reflexivity.
    - unfold st3. rewrite upd_dir_out_of_range
        by (unfold st2; rewrite length_directories_upd_dir; exact Hge).
      unfold st2. rewrite dir_at_upd_dir_ne by congruence.
      change (dir_at st1 par) with (dir_at st par).
      rewrite dir_at_default by exact Hge. reflexivity. }
  assert (Hother : forall x, x <> d -> x <> par ->
            filesByName (dir_at st3 x) = filesByName (dir_at st x)).
  { intros x Hxd Hxp. unfold st3. rewrite dir_at_upd_dir_ne by congruence.
    unfold st2. rewrite dir_at_upd_dir_ne by congruence. reflexivity. }
  rewrite Hst'. split; [rewrite Hmv; reflexivity|].
  split; [exact Hfile|]. split.
  { rewrite Hd3, map_get_set, str_eqb_refl. reflexivity. }
  split.
  { rewrite Hp3, map_get_delete, str_eqb_refl. reflexivity. }
  intros d' k Hd' Hk. rewrite Hfile. simpl. fold name.
  assert (Hd'v : d' < length (directories st)).
  { unfold st3, st2 in Hd'. rewrite !length_directories_upd_dir in Hd'. exact Hd'. }
  destruct (Nat.eq_dec d' d) as [->|Hdd].
  - split; [reflexivity|]. rewrite Hd3, map_get_set in Hk.
    destruct (str_eqb k name) eqn:E; [apply str_eqb_eq in E; exact E|].
    destruct (Honly d k Hdv Hk) as [Hcontra _]. congruence.
  - exfalso. destruct (Nat.eq_dec d' par) as [->|Hdp].
    + rewrite Hp3, map_get_delete in Hk.
      destruct (str_eqb k name) eqn:E; [discriminate|].
      destruct (Honly par k Hd'v Hk) as [_ Hkn]. subst k.
      rewrite str_eqb_refl in E. discriminate.
    + rewrite (Hother d' Hdd Hdp) in Hk.
      destruct (Honly d' k Hd'v Hk) as [Hcontra _]. congruence.
Qed.

Lemma moveFile_to_other_directory_witness :
  map_get "a" (filesByName (dir_at (snd (moveFile "a" "b" st_file_and_directory)) 1))
  = Some 0.
Proof.
  apply (moveFile_to_other_directory st_file_and_directory "a" "b" 0 1).
  - apply reachable_run_all. apply reachable_new.
  - reflexivity.
  - reflexivity.
  - discriminate.
  - reflexivity.
  - exact st_file_and_directory_only_a.
Defined.

(** ** Renaming a file *)

Lemma renameFile_returns st path name f :
  f < length (files st) ->
  _getTargetFile st path = Ret (Some f) ->
  Directory_hasDirectory st (file_parent (file_at st f)) name = false ->
  renameFile path name st
  = (Ret tt,
     upd_dir (file_parent (file_at st f))
       (fun o => set_filesByName
                   (map_delete (pathUtils.basename path) (filesByName o)) o)
       (upd_dir (file_parent (file_at st f))
          (fun o => set_filesByName
                      (map_delete (file_name (file_at st f)) (filesByName o)) o)
          (upd_dir (file_parent (file_at st f))
             (fun o => set_filesByName (map_set name f (filesByName o)) o)
             (upd_file f (fun _ => set_file_name name (file_at st f)) st)))).
Proof.
  intros Hfv Hf Hno.
  set (par := file_parent (file_at st f)) in *.
  set (old := file_name (file_at st f)) in *.
  set (st1 := upd_file f (set_file_name name) st).
  set (st2 := upd_file f (set_content (content (file_at st f))) st1).
  assert (H2 : file_at st2 f = set_file_name name (file_at st f)).
  { unfold st2. rewrite file_at_upd_file_eq
      by (unfold st1; rewrite length_files_upd_file; exact Hfv).
    unfold st1. rewrite file_at_upd_file_eq by exact Hfv.
    destruct (file_at st f); reflexivity. }
  assert (Hst3 : upd_file f (set_file_parent par) st2
                 = upd_file f (fun _ => set_file_name name (file_at st f)) st).
  { unfold upd_file at 1. rewrite H2.
    unfold st2, st1, upd_file, with_files. simpl.
    rewrite !list_insert_insert_eq.
    unfold par. destruct (file_at st f); reflexivity. }
  assert (Hadd : Directory_addFile par f st2
    = (Ret tt, upd_dir par (fun o => set_filesByName (map_set name f (filesByName o)) o)
                 (upd_file f (fun _ => set_file_name name (file_at st f)) st))).
  { rewrite addFile_returns; rewrite H2; simpl file_name; [|exact Hno].
    rewrite Hst3. reflexivity. }
  unfold renameFile, bind, query. rewrite Hf.
  unfold File_update, bind, modify. simpl default. cbv beta iota zeta.
  simpl fst. simpl snd. fold par old st1 st2. rewrite Hadd.
  unfold Directory_removeFile, modify. simpl fst. simpl snd. cbv iota beta.
  f_equal. f_equal.
  rewrite !file_at_upd_dir.
  rewrite file_at_upd_file_eq by exact Hfv. reflexivity.
Qed.

(** X12: in a reachable state, let [path] resolve to a file that its parent
    holds under its name and no other collection holds, and let [name] be
    another name, different from the base name of [path], that no child
    directory of the parent bears.  Then [renameFile] returns; afterwards
    the file object has the new name and is otherwise as before, its parent
    holds it under the new name and holds nothing under the old one, and
    again the file is held by its parent under its name and by no other
    collection. *)
Theorem renameFile_to_new_name st path name f :
  reachable st ->
  _getTargetFile st path = Ret (Some f) ->
  name <> file_name (file_at st f) ->
  pathUtils.basename path <> name ->
  Directory_hasDirectory st (file_parent (file_at st f)) name = false ->
  (forall d k, d < length (directories st) ->
     map_get k (filesByName (dir_at st d)) = Some f ->
     d = file_parent (file_at st f) /\ k = file_name (file_at st f)) ->
  let st' := snd (renameFile path name st) in
  let parent := file_parent (file_at st f) in
  fst (renameFile path name st) = Ret tt /\
  file_at st' f = set_file_name name (file_at st f) /\
  map_get name (filesByName (dir_at st' parent)) = Some f /\
  map_get (file_name (file_at st f)) (filesByName (dir_at st' parent)) = None /\
  (forall d k, d < length (directories st') ->
     map_get k (filesByName (dir_at st' d)) = Some f ->
     d = file_parent (file_at st' f) /\ k = file_name (file_at st' f)).
Proof.
  intros Hr Hf Hnew Hbase Hno Honly st' par.
  pose proof (reachable_Inv st Hr) as HI.
  pose proof (_getTargetFile_valid st path f HI Hf) as Hfv.
  destruct (_getTargetFile_found st path f HI Hf) as (d0 & Hd0 & Hg0).
  destruct (Honly d0 _ Hd0 Hg0) as [Hpar _]. fold par in Hpar. subst d0.
  clear Hg0.
  set (old := file_name (file_at st f)) in *.
  pose proof (renameFile_returns st path name f Hfv Hf Hno) as Hrn.
  fold par old in Hrn.
  assert (Hst' : st' = snd (renameFile path name st)) by reflexivity.
  rewrite Hrn in Hst'. simpl snd in Hst'.
  assert (Hfile : file_at st' f = set_file_name name (file_at st f)).
  { rewrite Hst'. rewrite !file_at_upd_dir.
    rewrite file_at_upd_file_eq by exact Hfv. reflexivity. }
  assert (Hp : filesByName (dir_at st' par)
    = map_delete (pathUtils.basename path)
        (map_delete old (map_set name f (filesByName (dir_at st par))))).
  { rewrite Hst'. rewrite dir_at_upd_dir_eq
      by (rewrite !length_directories_upd_dir; exact Hd0).
    simpl. rewrite dir_at_upd_dir_eq
      by (rewrite !length_directories_upd_dir; exact Hd0).
    simpl. rewrite dir_at_upd_dir_eq by exact Hd0. reflexivity. }
  assert (Hother : forall x, x <> par ->
            filesByName (dir_at st' x) = filesByName (dir_at st x)).
  { intros x Hx. rewrite Hst'. rewrite !dir_at_upd_dir_ne by congruence.
    reflexivity. }
  assert (Eb : str_eqb name (pathUtils.basename path) = false)
    by (apply str_eqb_neq; congruence).
  assert (Eo : str_eqb name old = false) by (apply str_eqb_neq; congruence).
  assert (Eo' : str_eqb old name = false) by (apply str_eqb_neq; congruence).
  split; [rewrite Hrn; reflexivity|]. split; [exact Hfile|]. split.
  { rewrite Hp, !map_get_delete, Eb, Eo, map_get_set, str_eqb_refl. reflexivity. }
  split.
  { rewrite Hp, !map_get_delete.
    destruct (str_eqb old (pathUtils.basename path)); [reflexivity|].
    rewrite str_eqb_refl. reflexivity. }
  intros d k Hd Hk. rewrite Hfile. simpl. fold par.
  assert (Hdv : d < length (directories st)).
  { rewrite Hst' in Hd. rewrite !length_directories_upd_dir in Hd. exact Hd. }
  destruct (Nat.eq_dec d par) as [->|Hdp].
  - split; [reflexivity|]. rewrite Hp, !map_get_delete in Hk.
    destruct (str_eqb k (pathUtils.basename path)); [discriminate|].
    destruct (str_eqb k old) eqn:E; [discriminate|].
    rewrite map_get_set in Hk.
    destruct (str_eqb k name) eqn:E'; [apply str_eqb_eq in E'; exact E'|].
    destruct (Honly par k Hdv Hk) as [_ Hkn]. fold old in Hkn. subst k.
    rewrite str_eqb_refl in E. discriminate.
  - exfalso. rewrite (Hother d Hdp) in Hk.
    destruct (Honly d k Hdv Hk) as [Hcontra _]. fold par in Hcontra. congruence.
Qed.

Lemma renameFile_to_new_name_witness :
  map_get "c" (filesByName (dir_at (snd (renameFile "a" "c" st_file_and_directory)) 0))
  = Some 0.
Proof.
  apply (renameFile_to_new_name st_file_and_directory "a" "c" 0).
  - apply reachable_run_all. apply reachable_new.
  - reflexivity.
  - discriminate.
  - discriminate.
  - reflexivity.
  - exact st_file_and_directory_only_a.
Defined.

(** ** Renaming a directory onto the name of a file *)

Lemma addDirectory_returns this dir st :
  Directory_hasFile st this (dir_name (dir_at st dir)) = false ->
  Directory_addDirectory this dir st
  = (Ret tt,
     upd_dir this (fun o =>
        set_directoriesByName
          (map_set (dir_name (dir_at st dir)) dir (directoriesByName o)) o)
       (upd_dir dir (set_dir_parent (Some this)) st)).
Proof.
  intros H. unfold Directory_addDirectory. rewrite H. unfold ret.
  rewrite (dir_at_upd_dir_field dir_name) by reflexivity. reflexivity.
Qed.

(** X13: in a reachable state, let [path], not the root path, resolve to a
    directory with a parent.  Then [renameDirectory(path, name)] throws
    [AmbiguousPath] exactly when the parent has a file of that name, and
    the state after this failure is the state before the call. *)
Theorem renameDirectory_AmbiguousPath st path name d p :
  reachable st ->
  pathUtils.normalize path <> ROOT_PATH ->
  _getTargetDirectory st path = Ret (Some d) ->
  dir_parent (dir_at st d) = Some p ->
  (fst (renameDirectory path name st) = Throw AmbiguousPath <->
   Directory_hasFile st p name = true) /\
  (fst (renameDirectory path name st) = Throw AmbiguousPath ->
   snd (renameDirectory path name st) = st).
Proof.
  intros Hr Hnr Hd Hpar. pose proof (reachable_Inv st Hr) as HI.
  pose proof (_getTargetDirectory_valid st path d HI Hd) as Hdv.
  apply str_eqb_neq in Hnr.
  unfold renameDirectory, bind, query. rewrite Hnr, Hd.
  unfold Directory_update. rewrite Hpar. simpl default.
  unfold Directory_hasFile.
  destruct (map_has name (filesByName (dir_at st p))) eqn:Hhas.
  { simpl. split; [split; reflexivity|reflexivity]. }
  set (st1 := upd_dir d (set_dir_name name) st).
  set (st2 := upd_dir d (set_dir_parent (Some p)) st1).
  assert (Hn2 : dir_name (dir_at st2 d) = name).
  { unfold st2. rewrite (dir_at_upd_dir_field dir_name) by reflexivity.
    unfold st1. rewrite dir_at_upd_dir_eq by exact Hdv. reflexivity. }
  assert (Hf2 : filesByName (dir_at st2 p) = filesByName (dir_at st p)).
  { unfold st2. rewrite (dir_at_upd_dir_field filesByName) by reflexivity.
    unfold st1. rewrite (dir_at_upd_dir_field filesByName) by reflexivity.
    reflexivity. }
  assert (Hadd := addDirectory_returns p d st2).
  unfold Directory_hasFile in Hadd. rewrite Hn2, Hf2 in Hadd.
  specialize (Hadd Hhas).
  unfold bind, modify. simpl fst. simpl snd. cbv iota beta. fold st1 st2.
  rewrite Hadd. cbv iota beta.
  unfold Directory_removeDirectory, throw, ret.
  destruct (str_eqb (dir_name (dir_at st d)) ROOT_PATH); simpl.
  { split; [split; discriminate|discriminate]. }
  match goal with |- context [match dir_parent ?x with _ => _ end] =>
    destruct (dir_parent x) end.
  - destruct (str_eqb (pathUtils.basename path) ROOT_PATH); simpl;
      (split; [split; discriminate|discriminate]).
  - simpl. split; [split; discriminate|discriminate].
Qed.

Lemma renameDirectory_AmbiguousPath_witness :
  fst (renameDirectory "b" "a" st_file_and_directory) = Throw AmbiguousPath <->
  Directory_hasFile st_file_and_directory 0 "a" = true.
Proof.
  apply (renameDirectory_AmbiguousPath st_file_and_directory "b" "a" 1 0).
  - apply reachable_run_all. apply reachable_new.
  - discriminate.
  - reflexivity.
  - reflexivity.
Defined.

(** ** Removing a directory and the current directory *)

Lemma getPath_rec_ext st st' n d :
  (forall x, dir_parent (dir_at st' x) = dir_parent (dir_at st x)) ->
  (forall x, dir_name (dir_at st' x) = dir_name (dir_at st x)) ->
  Directory_getPath_rec n st' d = Directory_getPath_rec n st d.
Proof.
  intros Hp Hn. revert d. induction n as [|n IH]; intros d; simpl; [reflexivity|].
  rewrite Hp, Hn. destruct (dir_parent (dir_at st d)); [|reflexivity].
  rewrite IH. reflexivity.
Qed.

(** X14: [removeDirectory] never moves the current directory, whatever it
    removes and whatever its outcome: the current directory is the same
    object, and [getCurrentDir()] gives the same path as before, also when
    the directory removed is the current one or one above it. *)
Theorem removeDirectory_keeps_currentDir st path :
  currentDir (snd (removeDirectory path st)) = currentDir st /\
  getCurrentDir (snd (removeDirectory path st)) = getCurrentDir st.
Proof.
  assert (H : exists p name n,
            snd (removeDirectory path st) = st \/
            snd (removeDirectory path st) = with_total n st \/
            snd (removeDirectory path st)
            = upd_dir p (fun o => set_directoriesByName
                                    (map_delete name (directoriesByName o)) o)
                (with_total n st)).
  { unfold removeDirectory, bind, query, modify, throw.
    destruct (_getTargetDirectory st path) as [[d|]|e|];
      try (exists 0, "", 0%Z; left; reflexivity).
    destruct (dir_parent (dir_at st d)) as [p|];
      [|exists 0, "", 0%Z; left; reflexivity].
    destruct (Directory_getTotalByteCount st d) as [n|e|];
      try (exists 0, "", 0%Z; left; reflexivity).
    exists p, (dir_name (dir_at st d)), (totalFileContentBytes st - n)%Z.
    simpl. unfold Directory_removeDirectory.
    destruct (str_eqb _ ROOT_PATH); [right; left; reflexivity|].
    right; right. reflexivity. }
  destruct H as (p & name & n & [->| [->| ->]]).
  - split; reflexivity.
  - split; [reflexivity|]. unfold getCurrentDir, Directory_getPath.
    apply getPath_rec_ext; intros x; reflexivity.
  - split; [reflexivity|]. unfold getCurrentDir, Directory_getPath.
    change (currentDir (upd_dir p _ (with_total n st))) with (currentDir st).
    rewrite length_directories_upd_dir.
    change (length (directories (with_total n st))) with (length (directories st)).
    apply getPath_rec_ext; intros x.
    + rewrite (dir_at_upd_dir_field dir_parent) by reflexivity. reflexivity.
    + rewrite (dir_at_upd_dir_field dir_name) by reflexivity. reflexivity.
Qed.

(** ** The root keeps its name *)

(** X16: in every reachable state, every directory object that has no
    parent is named [/]: [Directory.update], the one place where a
    directory gets another name, refuses a directory without parent. *)
Theorem parentless_directory_is_named_root st d o :
  reachable st ->
  directories st !! d = Some o ->
  dir_parent o = None ->
  dir_name o = ROOT_PATH.
Proof.
  intros Hr Hd Hp. destruct (reachable_Inv st Hr) as (_ & HD & _).
  destruct (Forall_lookup_1 _ _ _ _ HD Hd) as (_ & H2 & _). auto.
Qed.

Lemma parentless_directory_is_named_root_witness :
  dir_name (dir_at st_foo 0) = ROOT_PATH.
Proof.
  apply (parentless_directory_is_named_root st_foo 0 (dir_at st_foo 0)).
  - apply reachable_run_all. apply reachable_new.
  - reflexivity.
  - reflexivity.
Defined.

(** ** Going up *)

Lemma walk_ups st d k : walk st d (repeat ".." k) = Some (up st d k).
Proof.
  revert d. induction k as [|k IH]; intros d; [reflexivity|].
  simpl repeat. simpl walk.
  change (includes MOVE_UP_PATHS "..") with true. cbv iota.
  simpl up. destruct (dir_parent (dir_at st d)); apply IH.
Qed.

Lemma ups_SS k : ups (S (S k)) = "../" ++ ups (S k).
Proof. reflexivity. Qed.

Lemma ups_head k : exists r, ups (S k) = String "." r.
Proof. destruct k; eexists; reflexivity. Qed.

Lemma ups_nonempty k : ups (S k) <> "".
Proof. destruct (ups_head k) as [r ->]. discriminate. Qed.

Lemma ups_no_trailing_slash k : ends_with_slash (ups (S k)) = false.
Proof.
  induction k as [|k IH]; [reflexivity|].
  rewrite ups_SS. rewrite ends_with_slash_append by apply ups_nonempty. exact IH.
Qed.

Lemma repeat_up_no_slash k : Forall (fun s => no_slash s = true) (repeat ".." k).
Proof. induction k; simpl; constructor; auto. Qed.

Lemma split_slash_ups k : split_slash (ups (S k)) = repeat ".." (S k).
Proof.
  apply split_slash_concat; [discriminate|apply repeat_up_no_slash].
Qed.

Lemma fold_push_ups k j :
  fold_left (pathUtils.push_segment true) (repeat ".." k) (repeat ".." j)
  = repeat ".." (k + j).
Proof.
  revert j. induction k as [|k IH]; intros j; [reflexivity|].
  simpl repeat. simpl fold_left.
  assert (H : pathUtils.push_segment true (repeat ".." j) ".." = repeat ".." (S j))
    by (destruct j; reflexivity).
  rewrite H, IH. rewrite Nat.add_succ_r. reflexivity.
Qed.

Lemma normalize_ups k : pathUtils.normalize (ups (S k)) = ups (S k).
Proof.
  unfold pathUtils.normalize.
  destruct (ups_head k) as [r Hr].
  assert (E1 : str_eqb (ups (S k)) "" = false) by (rewrite Hr; reflexivity).
  assert (E2 : starts_with_slash (ups (S k)) = false) by (rewrite Hr; reflexivity).
  rewrite E1, E2, ups_no_trailing_slash. simpl negb.
  unfold pathUtils.normalizeString.
  rewrite split_slash_ups.
  change (@nil string) with (repeat ".." 0). rewrite (fold_push_ups (S k) 0).
  rewrite Nat.add_0_r, rev_repeat. fold (ups (S k)). rewrite E1. reflexivity.
Qed.

Lemma rev_segments_ups k :
  pathUtils.rev_segments (ups (S k)) = repeat ".." (S k).
Proof.
  unfold pathUtils.rev_segments. rewrite split_slash_ups, rev_repeat. reflexivity.
Qed.

Lemma dirname_ups k : pathUtils.dirname (ups (S (S k))) = ups (S k).
Proof.
  unfold pathUtils.dirname.
  destruct (ups_head (S k)) as [r Hr].
  assert (E1 : str_eqb (ups (S (S k))) "" = false) by (rewrite Hr; reflexivity).
  assert (E2 : starts_with_slash (ups (S (S k))) = false)
    by (rewrite Hr; reflexivity).
  rewrite E1, E2, rev_segments_ups.
  change (repeat ".." (S (S k))) with (".." :: ".." :: repeat ".." k).
  cbv iota. change (".." :: repeat ".." k) with (repeat ".." (S k)).
  rewrite rev_repeat. fold (ups (S k)).
  destruct (ups_head k) as [r' Hr']. rewrite Hr'. reflexivity.
Qed.

Lemma _getTargetDirectory_ups st k :
  _getTargetDirectory st (ups (S (S k)))
  = Ret (map_get ".." (directoriesByName
                         (dir_at st (up st (currentDir st) (S k))))).
Proof.
  unfold _getTargetDirectory, _getTarget.
  rewrite normalize_ups, dirname_ups.
  assert (E1 : includes CURRENT_DIR_PATHS (ups (S (S k))) = false)
    by (destruct k; reflexivity).
  assert (E2 : str_eqb (ups (S (S k))) ROOT_PATH = false)
    by (destruct k; reflexivity).
  assert (E3 : includes MOVE_UP_PATHS (ups (S (S k))) = false)
    by (destruct k; reflexivity).
  assert (E4 : pathUtils.isAbsolute (ups (S (S k))) = false)
    by (destruct k; reflexivity).
  assert (E5 : pathUtils.basename (ups (S (S k))) = "..").
  { unfold pathUtils.basename. rewrite rev_segments_ups. reflexivity. }
  rewrite E1, E2, E3, E4, E5, split_slash_ups.
  assert (E6 : filter (fun s => nonempty s = true) (repeat ".." (S k))
               = repeat ".." (S k)).
  { generalize (S k). intros n. induction n as [|n IH]; [reflexivity|].
    simpl repeat. rewrite filter_cons_True by reflexivity. rewrite IH. reflexivity. }
  rewrite E6. cbn [rbind]. rewrite walk_ups. reflexivity.
Qed.

(** X15: [changeDirectory('..')] always returns, and moves to the parent of
    the current directory, or nowhere when there is none.  A relative path
    of two or more [..] segments is not resolved that way: [_getTarget]
    walks all but the last segment up and then looks for a child directory
    named [..], so that when there is none [changeDirectory('../..')] (and
    likewise with more segments) throws [DirectoryNotFound] and leaves the
    state as it is, however many directories lie above the current one. *)
Theorem changeDirectory_up st :
  changeDirectory (Some "..") st
  = (Ret tt, with_currentDir (up st (currentDir st) 1) st) /\
  (forall k,
     map_get ".." (directoriesByName (dir_at st (up st (currentDir st) (S k))))
       = None ->
     changeDirectory (Some (ups (S (S k)))) st = (Throw DirectoryNotFound, st)).
Proof.
  split.
  - unfold changeDirectory, bind, query, _getTargetDirectory, _getTarget. simpl.
    destruct (dir_parent (dir_at st (currentDir st))); reflexivity.
  - intros k Hk. unfold changeDirectory, bind, query. simpl default.
    rewrite _getTargetDirectory_ups, Hk. reflexivity.
Qed.

Lemma changeDirectory_up_witness :
  changeDirectory (Some "../..")
    (run_all [OpChangeDirectory (Some "/foo/bar")] st_foo)
  = (Throw DirectoryNotFound, run_all [OpChangeDirectory (Some "/foo/bar")] st_foo).
Proof.
  apply (proj2 (changeDirectory_up
                  (run_all [OpChangeDirectory (Some "/foo/bar")] st_foo)) 0).
  reflexivity.
Defined.

(** ** The outcomes of [removeDirectory] *)

(** X17: in a reachable state, when [removeDirectory(path)] returns, the
    path resolved to a directory with a parent, the counter went down by
    what [getTotalByteCount] reports for that directory (a count that is
    not negative), the parent holds no directory under the name of the
    removed one, and no file object was touched.  When it does not return,
    the state is the one before the call, except in one case: for a
    directory named [/] the counter has gone down before
    [CannotUpdateRoot] is thrown. *)
Theorem removeDirectory_outcomes st path :
  reachable st ->
  let st' := snd (removeDirectory path st) in
  (fst (removeDirectory path st) = Ret tt ->
   exists d p n,
     _getTargetDirectory st path = Ret (Some d) /\
     dir_parent (dir_at st d) = Some p /\
     Directory_getTotalByteCount st d = Ret n /\ (0 <= n)%Z /\
     totalFileContentBytes st' = (totalFileContentBytes st - n)%Z /\
     map_get (dir_name (dir_at st d)) (directoriesByName (dir_at st' p)) = None /\
     files st' = files st) /\
  (fst (removeDirectory path st) <> Ret tt ->
   st' = st \/
   exists d n,
     _getTargetDirectory st path = Ret (Some d) /\
     dir_name (dir_at st d) = ROOT_PATH /\
     Directory_getTotalByteCount st d = Ret n /\
     fst (removeDirectory path st) = Throw CannotUpdateRoot /\
     st' = with_total (totalFileContentBytes st - n)%Z st).
Proof.
  intros Hr st'. pose proof (reachable_Inv st Hr) as HI.
  pose proof (reachable_Inv2 st Hr) as HI2.
  unfold st', removeDirectory, bind, query, modify, throw.
  destruct (_getTargetDirectory st path) as [[d|]|e|] eqn:Hd; simpl;
    try (split; [discriminate|intros _; left; reflexivity]).
  destruct (dir_parent (dir_at st d)) as [p|] eqn:Hp; simpl;
    [|split; [discriminate|intros _; left; reflexivity]].
  destruct (Directory_getTotalByteCount st d) as [n|e|] eqn:Hn; simpl;
    try (split; [discriminate|intros _; left; reflexivity]).
  unfold Directory_removeDirectory, throw, ret.
  destruct (str_eqb (dir_name (dir_at st d)) ROOT_PATH) eqn:E; simpl.
  - split; [discriminate|]. intros _. right. exists d, n.
    apply str_eqb_eq in E. repeat split; auto.
  - split; [|intros H; congruence]. intros _. exists d, p, n.
    repeat split; auto.
    + eapply getTotalByteCount_rec_nonneg; eauto.
    + assert (Hpv : p < length (directories st)).
      { destruct (Inv_dir_at st d HI) as (H1 & _). auto. }
      rewrite dir_at_upd_dir_eq by exact Hpv. simpl.
      rewrite map_get_delete, str_eqb_refl. reflexivity.
Qed.

Lemma removeDirectory_outcomes_witness :
  exists d p n,
    _getTargetDirectory st_foo "/foo/bar" = Ret (Some d) /\
    dir_parent (dir_at st_foo d) = Some p /\
    Directory_getTotalByteCount st_foo d = Ret n /\ (0 <= n)%Z /\
    totalFileContentBytes (snd (removeDirectory "/foo/bar" st_foo))
    = (totalFileContentBytes st_foo - n)%Z /\
    map_get (dir_name (dir_at st_foo d))
            (directoriesByName (dir_at (snd (removeDirectory "/foo/bar" st_foo)) p))
    = None /\
    files (snd (removeDirectory "/foo/bar" st_foo)) = files st_foo.
Proof.
  apply (proj1 (removeDirectory_outcomes st_foo "/foo/bar"
                  (reachable_run_all _ _ reachable_new))).
  reflexivity.
Defined.

(** ** The errors of [find] *)

Lemma getPath_rec_no_throw n st d e : Directory_getPath_rec n st d <> Throw e.
Proof.
  revert d. induction n as [|n IH]; intros d; simpl; [discriminate|].
  destruct (dir_parent (dir_at st d)) as [p|]; [|discriminate].
  specialize (IH p). destruct (Directory_getPath_rec n st p); simpl;
    [discriminate|congruence|discriminate].
Qed.

Lemma File_getPath_no_throw st f e : File_getPath st f <> Throw e.
Proof.
  unfold File_getPath, Directory_getPath.
  pose proof (getPath_rec_no_throw (length (directories st)) st
                (file_parent (file_at st f))) as H.
  destruct (Directory_getPath_rec _ st _); simpl;
    [discriminate|intros [= <-]; exact (H _ eq_refl)|discriminate].
Qed.

Lemma find_rec_errors n st name path e :
  find_rec n st name path = Throw e -> e = DirectoryNotFound.
Proof.
  revert path e. induction n as [|n IH]; intros path e; simpl; [discriminate|].
  destruct (_getTargetDirectory st (default "." path)) as [[d|]|e'|] eqn:Hd; simpl.
  - assert (Hfile : forall z,
      match map_get name (filesByName (dir_at st d)) with
      | Some foundFile => p <-r File_getPath st foundFile; Ret [p]
      | None => Ret []
      end <> Throw z).
    { intros z. destruct (map_get name (filesByName (dir_at st d))) as [f|];
        [|discriminate].
      pose proof (File_getPath_no_throw st f) as H.
      destruct (File_getPath st f); simpl;
        [discriminate|intros [= <-]; exact (H _ eq_refl)|discriminate]. }
    destruct (match map_get name (filesByName (dir_at st d)) with
              | Some foundFile => _ | None => _ end) as [m|e'|] eqn:Em; simpl.
    + generalize (map_values (directoriesByName (dir_at st d))).
      assert (Hacc : forall l (acc : Result (list string)),
        (forall z, acc = Throw z -> z = DirectoryNotFound) ->
        fold_left
          (fun acc dir =>
             matches <-r acc;
             own <-r (if str_eqb (dir_name (dir_at st dir)) name
                      then p <-r Directory_getPath st dir; Ret [p]
                      else Ret []);
             p <-r Directory_getPath st dir;
             below <-r find_rec n st name (Some p);
             Ret (matches ++ own ++ below)%list) l acc = Throw e ->
        e = DirectoryNotFound).
      { induction l as [|c l IHl]; intros acc Hacc; simpl; [apply Hacc|].
        apply IHl. intros z.
        destruct acc as [matches|e0|]; simpl; [|intros [= <-]; auto|discriminate].
        pose proof (getPath_rec_no_throw (length (directories st)) st c) as Hg.
        fold (Directory_getPath st c) in Hg.
        destruct (str_eqb (dir_name (dir_at st c)) name).
        - destruct (Directory_getPath st c) as [p|e0|]; simpl;
            [|intros [= <-]; exfalso; exact (Hg _ eq_refl)|discriminate].
          destruct (find_rec n st name (Some p)) as [b|e0|] eqn:Eb; simpl;
            [discriminate| |discriminate].
          intros [= <-]. exact (IH _ _ Eb).
        - simpl. destruct (Directory_getPath st c) as [p|e0|]; simpl;
            [|intros [= <-]; exfalso; exact (Hg _ eq_refl)|discriminate].
          destruct (find_rec n st name (Some p)) as [b|e0|] eqn:Eb; simpl;
            [discriminate| |discriminate].
          intros [= <-]. exact (IH _ _ Eb). }
      intros l. apply Hacc. discriminate.
    + exfalso. exact (Hfile _ eq_refl).
    + generalize (map_values (directoriesByName (dir_at st d))).
      intros l. induction l as [|c l IHl]; simpl; [discriminate|exact IHl].
  - intros [= <-]. reflexivity.
  - exfalso. exact (_getTarget_no_throw _ _ _ _ Hd).
  - discriminate.
Qed.

(** X18: of the errors of [ErrorMsg], [find] throws none but
    [DirectoryNotFound], to whatever depth its recursion is followed: the
    path given, or the path computed for a child directory, resolves to no
    directory.  Its other outcomes are a list, or a call that does not
    complete (the loop of [_getRoot] does not end, or the recursion of
    [find] or [getPath] has no bound, which JavaScript ends with a
    [RangeError] that is none of [ErrorMsg]): that is [Diverge]. *)
Theorem find_errors st name path :
  (forall depth e,
     find_rec depth st name path = Throw e -> e = DirectoryNotFound) /\
  ((exists l, find st name path = Ret l) \/
   find st name path = Throw DirectoryNotFound \/
   find st name path = Diverge).
Proof.
  split; [intros depth e; apply find_rec_errors|].
  destruct (find st name path) as [l|e|] eqn:E.
  - left. exists l. reflexivity.
  - right. left. rewrite (find_rec_errors _ _ _ _ _ E). reflexivity.
  - right. right. reflexivity.
Qed.

Lemma find_errors_witness :
  find st_foo "x" (Some "/nowhere") = Throw DirectoryNotFound /\
  DirectoryNotFound = DirectoryNotFound.
Proof.
  split; [reflexivity|].
  apply (proj1 (find_errors st_foo "x" (Some "/nowhere"))
           (length (directories st_foo)) DirectoryNotFound).
  reflexivity.
Defined.

(** ** [find] below directories held under their own names *)

Lemma collect_ext_in (f g : ref -> Result (list string)) l :
  (forall c, In c l -> f c = g c) -> collect f l = collect g l.
Proof.
  induction l as [|c l IH]; intros H; simpl; [reflexivity|].
  rewrite (H c (or_introl eq_refl)).
  rewrite IH by (intros c' Hc'; apply H; right; exact Hc').
  reflexivity.
Qed.

Lemma collect_returns (f : ref -> Result (list string)) l :
  (forall c, In c l -> exists x, f c = Ret x) -> exists r, collect f l = Ret r.
Proof.
  induction l as [|c l IH]; intros H; simpl; [eexists; reflexivity|].
  destruct (H c (or_introl eq_refl)) as [x ->].
  destruct IH as [r ->]; [intros c' Hc'; apply H; right; exact Hc'|].
  simpl. eexists; reflexivity.
Qed.

Lemma collect_mono (f g : ref -> Result (list string)) l r :
  (forall c x, In c l -> f c = Ret x -> g c = Ret x) ->
  collect f l = Ret r -> collect g l = Ret r.
Proof.
  revert r. induction l as [|c l IH]; intros r H; simpl; [auto|].
  destruct (f c) as [x|e|] eqn:Ef; simpl; try discriminate.
  rewrite (H c x (or_introl eq_refl) Ef).
  destruct (collect f l) as [r'|e|] eqn:Ec; simpl; try discriminate.
  rewrite (IH r') by (intros; eauto using in_cons). simpl. auto.
Qed.

(** A value of a collection with distinct keys is found under its key. *)
Lemma map_values_get (m : JSMap) c :
  NoDup (map_keys m) -> In c (map_values m) ->
  exists k, map_get k m = Some c.
Proof.
  induction m as [|[k0 v0] m IH]; simpl; intros Hnd Hin; [contradiction|].
  apply NoDup_cons in Hnd as [Hk0 Hnd].
  destruct Hin as [->|Hin].
  - exists k0. rewrite str_eqb_refl. reflexivity.
  - destruct (IH Hnd Hin) as [k Hk]. exists k.
    destruct (str_eqb k k0) eqn:E; [|exact Hk].
    apply str_eqb_eq in E. subst k0. exfalso. apply Hk0.
    apply list_elem_of_In. apply map_get_In in Hk.
    change k with (fst (k, c)). apply in_map. exact Hk.
Qed.

Lemma under_trans st d c e : under st d c -> under st c e -> under st d e.
Proof.
  intros Hdc Hce. induction Hce as [|c' k e' _ IH Hk]; [exact Hdc|].
  eapply under_child; eauto.
Qed.

Section FindBelow.
Variables (st : VirtualFileSystem) (root : ref) (name : string).
Hypothesis HI : Inv st.
Hypothesis HI2 : Inv2 st.
Hypothesis Hroot : _getRoot st = Ret root.

Lemma holds_own_child d segs c :
  tree_dir st root d segs -> holds_own st d ->
  In c (map_values (directoriesByName (dir_at st d))) ->
  exists k, tree_dir st root c (segs ++ [k])%list /\ under st d c.
Proof.
  intros Ht [Hdirs _] Hin.
  destruct (map_values_get _ c (proj2 (Inv2_dir_at st d HI2)) Hin) as [k Hk].
  destruct (Hdirs k c Hk) as (Hn & Hp & Hpl).
  exists k. split.
  - eapply tree_child; eauto.
  - eapply under_child; [apply under_here|exact Hk].
Qed.

Lemma find_rec_spec n :
  forall d segs path,
    tree_dir st root d segs ->
    (forall c, under st d c -> holds_own st c) ->
    _getTargetDirectory st (default "." path) = Ret (Some d) ->
    find_rec n st name path = find_spec n st name d.
Proof.
  induction n as [|n IH]; intros d segs path Ht Hw Hd; [reflexivity|].
  rewrite (find_rec_level n st name path d Hd).
  cbn [find_spec].
  destruct (match map_get name (filesByName (dir_at st d)) with
            | Some f => _ | None => _ end) as [ofFile|e|]; cbn [rbind];
    try reflexivity.
  rewrite (collect_ext_in _
    (fun c =>
       own <-r (if str_eqb (dir_name (dir_at st c)) name
                then p <-r Directory_getPath st c; Ret [p]
                else Ret []);
       sub <-r find_spec n st name c;
       Ret (own ++ sub)%list)); [reflexivity|].
  intros c Hin.
  destruct (holds_own_child d segs c Ht (Hw d (under_here st d)) Hin)
    as (k & Htc & Hu).
  rewrite (Directory_getPath_tree st root c _ HI Hroot Htc).
  destruct (str_eqb (dir_name (dir_at st c)) name); cbn [rbind].
  - rewrite (IH c (segs ++ [k])%list (Some (abs_path (segs ++ [k])%list)) Htc).
    + reflexivity.
    + intros c' Hc'. apply Hw. eapply under_trans; eauto.
    + apply (_getTargetDirectory_tree st root c _ Hroot Htc).
  - rewrite (IH c (segs ++ [k])%list (Some (abs_path (segs ++ [k])%list)) Htc).
    + reflexivity.
    + intros c' Hc'. apply Hw. eapply under_trans; eauto.
    + apply (_getTargetDirectory_tree st root c _ Hroot Htc).
Qed.

Lemma find_spec_returns n :
  forall d segs,
    tree_dir st root d segs ->
    (forall c, under st d c -> holds_own st c) ->
    length (directories st) <= n + length segs ->
    exists l, find_spec n st name d = Ret l.
Proof.
  assert (Hrp : dir_parent (dir_at st root) = None)
    by (eapply getRoot_loop_root; exact Hroot).
  assert (Hrv : root < length (directories st))
    by (apply _getRoot_valid; assumption).
  induction n as [|n IH]; intros d segs Ht Hw Hlen.
  - pose proof (tree_dir_depth st root d segs Ht Hrp Hrv). simpl in Hlen. lia.
  - cbn [find_spec].
    assert (Hfile : exists ofFile,
      match map_get name (filesByName (dir_at st d)) with
      | Some f => p <-r File_getPath st f; Ret [p]
      | None => Ret []
      end = Ret ofFile).
    { destruct (map_get name (filesByName (dir_at st d))) as [f|] eqn:Ef;
        [|eexists; reflexivity].
      unfold File_getPath.
      rewrite (proj2 (Hw d (under_here st d)) name f Ef).
      rewrite (Directory_getPath_tree st root d segs HI Hroot Ht).
      simpl. eexists; reflexivity. }
    destruct Hfile as [ofFile ->]. cbn [rbind].
    destruct (collect_returns
      (fun c =>
         own <-r (if str_eqb (dir_name (dir_at st c)) name
                  then p <-r Directory_getPath st c; Ret [p]
                  else Ret []);
         sub <-r find_spec n st name c;
         Ret (own ++ sub)%list)
      (map_values (directoriesByName (dir_at st d)))) as [r ->].
    + intros c Hin.
      destruct (holds_own_child d segs c Ht (Hw d (under_here st d)) Hin)
        as (k & Htc & Hu).
      rewrite (Directory_getPath_tree st root c _ HI Hroot Htc).
      destruct (IH c (segs ++ [k])%list Htc) as [l Hl].
      * intros c' Hc'. apply Hw. eapply under_trans; eauto.
      * rewrite length_app. simpl. lia.
      * rewrite Hl.
        destruct (str_eqb (dir_name (dir_at st c)) name); simpl;
          eexists; reflexivity.
    + simpl. eexists; reflexivity.
Qed.

End FindBelow.

Lemma find_spec_mono n :
  forall m st name d l,
    find_spec n st name d = Ret l -> n <= m -> find_spec m st name d = Ret l.
Proof.
  induction n as [|n IH]; intros m st name d l H Hle; [discriminate|].
  destruct m as [|m]; [lia|].
  cbn [find_spec] in *.
  destruct (match map_get name (filesByName (dir_at st d)) with
            | Some f => _ | None => _ end) as [ofFile|e|]; cbn [rbind] in *;
    try discriminate.
  destruct (collect _ _) as [r|e|] eqn:Ec in H; cbn [rbind] in H;
    try discriminate.
  erewrite collect_mono; [exact H| |exact Ec].
  intros c x _. cbv beta.
  destruct (if str_eqb _ _ then _ else _) as [own|e|]; cbn [rbind];
    try discriminate.
  destruct (find_spec n st name c) as [sub|e|] eqn:Es; cbn [rbind];
    try discriminate.
  rewrite (IH m st name c sub Es) by lia. auto.
Qed.

(** The children of every directory of [st_foo] are held under their own
    names. *)
Lemma st_foo_holds_own : forall c, holds_own st_foo c.
Proof.
  change (file_at st_foo) with
    (fun f => nth f [mkFile 2 "foo" None None] (new_File 0 "" None)).
  intros [|[|[|c]]]; split; intros k x.
  - change (dir_at st_foo 0) with (mkDirectory None "/" [] [("foo", 1)]).
    change (dir_at st_foo 1) with (mkDirectory (Some 0) "foo" [] [("bar", 2)]).
    simpl. destruct (str_eqb k "foo") eqn:E; [|discriminate].
    apply str_eqb_eq in E. subst k. intros [= <-]. repeat split.
  - change (dir_at st_foo 0) with (mkDirectory None "/" [] [("foo", 1)]).
    simpl. discriminate.
  - change (dir_at st_foo 1) with (mkDirectory (Some 0) "foo" [] [("bar", 2)]).
    simpl. destruct (str_eqb k "bar") eqn:E; [|discriminate].
    apply str_eqb_eq in E. subst k. intros [= <-].
    change (dir_at st_foo 2) with (mkDirectory (Some 1) "bar" [("foo", 0)] []).
    repeat split.
  - change (dir_at st_foo 1) with (mkDirectory (Some 0) "foo" [] [("bar", 2)]).
    simpl. discriminate.
  - change (dir_at st_foo 2) with (mkDirectory (Some 1) "bar" [("foo", 0)] []).
    simpl. discriminate.
  - change (dir_at st_foo 2) with (mkDirectory (Some 1) "bar" [("foo", 0)] []).
    simpl. destruct (str_eqb k "foo") eqn:E; [|discriminate].
    intros [= <-]. reflexivity.
  - change (dir_at st_foo (S (S (S c)))) with (new_Directory None ROOT_PATH).
    simpl. discriminate.
  - change (dir_at st_foo (S (S (S c)))) with (new_Directory None ROOT_PATH).
    simpl. discriminate.
Defined.

(** The condition on the files cannot be left out: the root of
    [st_far_parent] holds the file [a], whose parent lies on a cycle of
    parents, and the path of the file is never completed. *)
Example find_file_with_far_parent :
  reachable st_far_parent /\
  _getRoot st_far_parent = Ret 0 /\
  map_get "a" (filesByName (dir_at st_far_parent 0)) = Some 0 /\
  file_parent (file_at st_far_parent 0) = 2 /\
  find st_far_parent "a" None = Diverge.
Proof.
  split; [apply reachable_run_all; apply reachable_new|].
  repeat split.
Qed.



